(** * TimSort.py: a shallow embedding of SimpleTimSort and its stages

    The development follows the source file top to bottom: the [Segment]
    descriptor, the run scanner [IncDecRuns], the fuser [FuseSegments], the
    top-level [segments] routine, the normalizer ([insertSort], [reverse],
    [processSegments]), the merge engine ([mergeSegments], [copySegment],
    [mergeRound], [mergeRounds]) and the driver [SimpleTimSort].

    Python integers are [Z]; Python lists are Rocq lists indexed through
    [getitem]/[setitem], which implement Python's index rules (negative
    indices count from the end, anything else out of range raises
    IndexError).  Exceptions are values of the error monad [Res].  Every
    [while] loop is a structural recursion on a loop budget computed from
    the loop's own variant; an exhausted budget is the distinct outcome
    [Raise OutOfFuel], so a result [Ok _] always is a real, finished run. *)

From Stdlib Require Import ZArith List Lia Bool Permutation.
Import ListNotations.
Open Scope Z_scope.

Set Implicit Arguments.

(** ** Exceptions and the error monad *)

Inductive Exn : Set :=
| IndexError
| TypeError
| AttributeError
| ZeroDivisionError
| UnboundLocalError
| OutOfFuel.

Inductive Res (X : Type) : Type :=
| Ok (x : X)
| Raise (e : Exn).

Arguments Ok {X} x.
Arguments Raise {X} e.

Definition bind {X Y : Type} (c : Res X) (f : X -> Res Y) : Res Y :=
  match c with
  | Ok x => f x
  | Raise e => Raise e
  end.

Notation "x <- c ;; k" := (bind c (fun x => k))
  (at level 61, c at next level, right associativity).
Notation "' p <- c ;; k" := (bind c (fun x => match x with p => k end))
  (at level 61, p pattern, c at next level, right associativity).

(** ** Python lists *)

Definition llen {X : Type} (l : list X) : Z := Z.of_nat (length l).

(** [l[i]] resolves a negative [i] to [i + len(l)]. *)
Definition norm_index (n i : Z) : option nat :=
  let i' := if i <? 0 then i + n else i in
  if (0 <=? i') && (i' <? n) then Some (Z.to_nat i') else None.

Definition getitem {X : Type} (l : list X) (i : Z) : Res X :=
  match norm_index (llen l) i with
  | Some k => match nth_error l k with
              | Some x => Ok x
              | None => Raise IndexError
              end
  | None => Raise IndexError
  end.

Fixpoint list_set {X : Type} (l : list X) (k : nat) (x : X) : list X :=
  match l, k with
  | [], _ => []
  | _ :: t, O => x :: t
  | h :: t, S k' => h :: list_set t k' x
  end.

Definition setitem {X : Type} (l : list X) (i : Z) (x : X) : Res (list X) :=
  match norm_index (llen l) i with
  | Some k => Ok (list_set l k x)
  | None => Raise IndexError
  end.

(** A slice bound is clamped into [0, len(l)] after the negative shift. *)
Definition norm_bound (n b : Z) : nat :=
  Z.to_nat (if b <? 0 then Z.max (b + n) 0 else Z.min b n).

(** [range(a, b)] *)
Definition range2 (a b : Z) : list Z :=
  map (fun k => a + Z.of_nat k) (seq 0 (Z.to_nat (b - a))).

Definition range (b : Z) : list Z := range2 0 b.

(** Running a loop body over a list of loop indices, threading the state. *)
Fixpoint for_each {X S : Type} (xs : list X) (body : S -> X -> Res S) (s : S)
  : Res S :=
  match xs with
  | [] => Ok s
  | x :: xs' => s' <- body s x ;; for_each xs' body s'
  end.

Fixpoint map_res {X Y : Type} (f : X -> Res Y) (xs : list X) : Res (list Y) :=
  match xs with
  | [] => Ok []
  | x :: xs' => y <- f x ;; ys <- map_res f xs' ;; Ok (y :: ys)
  end.

(** ** Constants (lines 8-13) *)

Definition Inc : Z := 1.
Definition Dec : Z := -1.
Definition Unsorted : Z := 0.

Definition runThreshold : Z := 32.
Definition blockMin : Z := 32.
Definition blockMax : Z := 63.

(** ** class Segment *)

Record Segment : Set := mkSegment { start : Z; end_ : Z; tag : Z }.

Definition len (s : Segment) : Z := end_ s - start s.

(** ** Comparisons

    The keys carry one Boolean order [leb], Python's [<=].  [a >= b] is
    [b <= a] and [a > b] is the negation of [a <= b], as for any consistent
    total order. *)

Section Order.
Context {K : Type} (leb : K -> K -> bool).
Definition geb (a b : K) : bool := leb b a.
Definition gtb (a b : K) : bool := negb (leb a b).
End Order.

(** ** class IncDecRuns *)

Module IncDecRuns.

Record t : Set := mk { m : Z; dir : Z; i : Z; j : Z }.

Section Scanner.
Context {A K : Type} (leb : K -> K -> bool) (key : A -> K) (L : list A).

(** [__init__]: the fields [L] and [key] never change and stay section
    variables. *)
Definition init : Res t :=
  let m0 := llen L - 1 in
  x1 <- getitem L 1 ;;
  x0 <- getitem L 0 ;;
  Ok (mk m0 (if geb leb (key x1) (key x0) then Inc else Dec) 0 0).

(** The second conjunct of the [while] condition at lines 46-47, with
    Python's short-circuit evaluation. *)
Definition extends (d j0 : Z) : Res bool :=
  c1 <- (if d =? Inc
         then a <- getitem L j0 ;; b <- getitem L (j0 + 1) ;;
              Ok (leb (key a) (key b))
         else Ok false) ;;
  if c1 : bool then Ok true
  else if d =? Dec
       then a <- getitem L j0 ;; b <- getitem L (j0 + 1) ;;
            Ok (geb leb (key a) (key b))
       else Ok false.

(** The [while] loop of [next]; it returns the final [j]. *)
Fixpoint scan (fuel : nat) (d m0 j0 : Z) : Res Z :=
  match fuel with
  | O => Raise OutOfFuel
  | S fuel' =>
      if j0 <? m0 then
        c <- extends d j0 ;;
        if c : bool then scan fuel' d m0 (j0 + 1) else Ok j0
      else Ok j0
  end.

Definition next (st : t) : Res (option Segment * t) :=
  if j st =? m st then Ok (None, st)
  else
    let i1 := j st in
    j1 <- scan (S (Z.to_nat (m st - j st))) (dir st) (m st) (j st) ;;
    if j1 =? m st
    then Ok (Some (mkSegment i1 (m st + 1) (dir st)),
             mk (m st) (dir st) i1 j1)
    else
      let d1 := - dir st in
      Ok (Some (mkSegment i1 j1 (- d1)), mk (m st) d1 i1 j1).

Definition finished (st : t) : bool := j st =? m st.

(** Successive [next()] calls until [None]. *)
Fixpoint drain (fuel : nat) (st : t) : Res (list Segment) :=
  match fuel with
  | O => Raise OutOfFuel
  | S fuel' =>
      '(r, st') <- next st ;;
      match r with
      | None => Ok []
      | Some s => rest <- drain fuel' st' ;; Ok (s :: rest)
      end
  end.

Definition runs : Res (list Segment) :=
  st <- init ;; drain (S (length L)) st.

End Scanner.

End IncDecRuns.

(** ** class FuseSegments *)

Module FuseSegments.

Record t : Set :=
  mk { IDR : IncDecRuns.t; next1 : option Segment; next2 : option Segment }.

Section Fuser.
Context {A K : Type} (leb : K -> K -> bool) (key : A -> K) (L : list A).

Definition init (idr : IncDecRuns.t) : Res t :=
  '(n1, idr1) <- IncDecRuns.next leb key L idr ;;
  '(n2, idr2) <- IncDecRuns.next leb key L idr1 ;;
  Ok (mk idr2 n1 n2).

(** [o.len()] on a field that may hold [None]. *)
Definition olen (o : option Segment) : Res Z :=
  match o with
  | Some s => Ok (len s)
  | None => Raise AttributeError
  end.

(** The [while] loop at lines 74-75. *)
Fixpoint absorb (fuel : nat) (idr : IncDecRuns.t) (n2 : option Segment)
  : Res (option Segment * IncDecRuns.t) :=
  match fuel with
  | O => Raise OutOfFuel
  | S fuel' =>
      l2 <- olen n2 ;;
      if (l2 <? runThreshold) && negb (IncDecRuns.finished idr)
      then '(n2', idr') <- IncDecRuns.next leb key L idr ;;
           absorb fuel' idr' n2'
      else Ok (n2, idr)
  end.

Definition next (fs : t) : Res (option Segment * t) :=
  match next2 fs with
  | None => Ok (next1 fs, mk (IDR fs) None (next2 fs))
  | Some s2 =>
      l1 <- olen (next1 fs) ;;
      if (l1 <? runThreshold) && (len s2 <? runThreshold)
      then
        st <- match next1 fs with
              | Some s1 => Ok (start s1)
              | None => Raise AttributeError
              end ;;
        '(n2, idr) <-
          absorb (S (Z.to_nat (IncDecRuns.m (IDR fs)
                               - IncDecRuns.j (IDR fs))))
                 (IDR fs) (next2 fs) ;;
        l2 <- olen n2 ;;
        match n2 with
        | None => Raise AttributeError
        | Some s =>
            let e := if l2 <? runThreshold then end_ s else start s in
            let n1' := if l2 <? runThreshold then None else n2 in
            '(n2', idr') <-
              (if l2 <? runThreshold then Ok (None, idr)
               else IncDecRuns.next leb key L idr) ;;
            Ok (Some (mkSegment st e Unsorted), mk idr' n1' n2')
        end
      else
        '(n2', idr') <- IncDecRuns.next leb key L (IDR fs) ;;
        Ok (next1 fs, mk idr' (next2 fs) n2')
  end.

Definition finished (fs : t) : bool :=
  match next1 fs with
  | None => true
  | Some _ => false
  end.

(** Successive [next()] calls until [None]. *)
Fixpoint drain (fuel : nat) (fs : t) : Res (list Segment) :=
  match fuel with
  | O => Raise OutOfFuel
  | S fuel' =>
      '(r, fs') <- next fs ;;
      match r with
      | None => Ok []
      | Some s => rest <- drain fuel' fs' ;; Ok (s :: rest)
      end
  end.

Definition fused : Res (list Segment) :=
  idr <- IncDecRuns.init leb key L ;;
  fs <- init idr ;;
  drain (S (S (length L))) fs.

End Fuser.

End FuseSegments.

(** ** segments(L)

    The scanner is built as [IncDecRuns(L)], with the default identity key:
    the elements themselves are compared, with their own order [lebA]. *)

Section Segments.
Context {A : Type} (lebA : A -> A -> bool) (L : list A).

(** [S[-1].end += 1]. The Segment object that [S[-1]] names was handed out
    by the fuser, which dropped its own reference when it returned it, so
    the update is seen through [S] only. *)
Definition bump_last (S : list Segment) : Res (list Segment) :=
  s <- getitem S (-1) ;;
  setitem S (-1) (mkSegment (start s) (end_ s + 1) (tag s)).

(** The list comprehension of line 100, [[start + (n*i) // k for i in
    range(k+1)]], for a given value of [k]. *)
Definition divs_of (st n k : Z) : Res (list Z) :=
  map_res (fun i => if k =? 0 then Raise ZeroDivisionError
                    else Ok (st + (n * i) / k))
          (range (k + 1)).

(** Lines 99-101. [k] is a local variable of [segments], and line 100,
    [k, divs = n // blockMin, [... // k for i in range(k+1)]], is the only
    statement that binds it. Python evaluates the whole right-hand side
    before it binds anything, so [range(k+1)] and [// k] read the binding
    that [k] had when the statement was reached: [kvar], which is [None]
    while [k] is unbound. Reading an unbound local raises
    UnboundLocalError. The generator of line 101 runs over [range(k)] with
    the new binding. *)
Definition split_block (kvar : option Z) (curr : Segment)
  : Res (list Segment * option Z) :=
  let st := start curr in
  let n := len curr in
  let k' := n / blockMin in
  k <- match kvar with
       | Some k => Ok k
       | None => Raise UnboundLocalError
       end ;;
  divs <- divs_of st n k ;;
  subs <- map_res (fun i => a <- getitem divs i ;; b <- getitem divs (i + 1) ;;
                            Ok (mkSegment a b 0))
                  (range k') ;;
  Ok (subs, Some k').

(** One pass through the body of the [while curr:] loop, lines 94-101;
    [fin] is the value of [FS.finished()], [kvar] the binding of the local
    [k]. *)
Definition segments_body (kvar : option Z) (S : list Segment)
           (curr : Segment) (fin : bool)
  : Res (list Segment * option Z) :=
  if (len curr =? 1) && negb (length S =? 0)%nat && negb fin
  then S' <- bump_last S ;; Ok (S', kvar)
  else if negb (tag curr =? Unsorted) || (len curr <=? blockMax)
       then Ok (S ++ [curr], kvar)
       else '(subs, kvar') <- split_block kvar curr ;;
            Ok (S ++ subs, kvar').

Fixpoint segments_loop (fuel : nat) (kvar : option Z) (S : list Segment)
         (curr : option Segment) (FS : FuseSegments.t)
  : Res (list Segment) :=
  match fuel with
  | O => Raise OutOfFuel
  | S fuel' =>
      match curr with
      | None => Ok S
      | Some c =>
          '(S', kvar') <-
            segments_body kvar S c (FuseSegments.finished FS) ;;
          '(curr', FS') <- FuseSegments.next lebA (fun x => x) L FS ;;
          segments_loop fuel' kvar' S' curr' FS'
      end
  end.

(** When the loop starts nothing has bound [k]. *)
Definition segments : Res (list Segment) :=
  idr <- IncDecRuns.init lebA (fun x => x) L ;;
  FS <- FuseSegments.init lebA (fun x => x) L idr ;;
  '(curr, FS') <- FuseSegments.next lebA (fun x => x) L FS ;;
  segments_loop (S (S (length L))) None [] curr FS'.

End Segments.

(** ** The normalizer: insertSort, reverse, processSegments *)

Section Normalizer.
Context {A K : Type} (leb : K -> K -> bool) (key : A -> K).

(** The inner [while] loop of [insertSort], lines 109-111. *)
Fixpoint shift (fuel : nat) (L : list A) (st j0 : Z) (item : A)
  : Res (list A * Z) :=
  match fuel with
  | O => Raise OutOfFuel
  | S fuel' =>
      if st <=? j0 then
        x <- getitem L j0 ;;
        if gtb leb (key x) (key item) then
          y <- getitem L j0 ;;
          L' <- setitem L (j0 + 1) y ;;
          shift fuel' L' st (j0 - 1) item
        else Ok (L, j0)
      else Ok (L, j0)
  end.

Definition insertSort (L : list A) (st e : Z) : Res (list A) :=
  for_each (range2 st e)
    (fun L0 i0 =>
       item <- getitem L0 i0 ;;
       let j0 := i0 - 1 in
       '(L1, j1) <- shift (S (Z.to_nat (j0 - st + 1))) L0 st j0 item ;;
       setitem L1 (j1 + 1) item)
    L.

(** [L[start:end] = reversed(L[start:end])] *)
Definition reverse (L : list A) (st e : Z) : list A :=
  let a := norm_bound (llen L) st in
  let b := Nat.max a (norm_bound (llen L) e) in
  firstn a L ++ rev (skipn a (firstn b L)) ++ skipn b L.

Definition processSegments (L : list A) (segs : list Segment)
  : Res (list A) :=
  for_each segs
    (fun L0 seg =>
       if tag seg =? Unsorted then insertSort L0 (start seg) (end_ seg)
       else if tag seg =? Dec then Ok (reverse L0 (start seg) (end_ seg))
       else Ok L0)
    L.

End Normalizer.

(** ** The merge engine

    From here on the sequence shares its type with the auxiliary buffer
    [M = [None] * len(L)]: a cell is [Some x] for an element and [None] for
    Python's [None].  The key is a projection on elements. *)

Section MergeEngine.
Context {A K : Type} (leb : K -> K -> bool) (key : A -> K).

Definition cell : Type := option A.

(** One operand of [key(L[...]) <= key(L[...])]. On a cell that holds an
    element this is the key of the element, for every key. On an empty
    cell it is the default key's outcome: [lambda x: x] hands [None]
    through, and Python 3 refuses to order [None] against anything, so
    the comparison raises TypeError once both operands have been read. A
    key of the caller's own may do otherwise on [None] (return a value,
    or raise another exception): every result below in which an empty
    cell reaches a comparison is stated for the default key. *)
Definition key_cell (c : cell) : Res K :=
  match c with
  | Some x => Ok (key x)
  | None => Raise TypeError
  end.

(** The three [while] loops of [mergeSegments]; the state is
    [(M, i, j, k, size)]. *)
Definition mstate : Type := (list cell * Z * Z * Z * Z)%type.

Fixpoint merge_both (fuel : nat) (L : list cell) (seg1 seg2 : Segment)
         (st : Z) (s : mstate) : Res mstate :=
  match fuel with
  | O => Raise OutOfFuel
  | S fuel' =>
      let '(M, i0, j0, k0, size) := s in
      if (i0 <? len seg1) && (j0 <? len seg2) then
        x <- getitem L (start seg1 + i0) ;;
        y <- getitem L (start seg2 + j0) ;;
        kx <- key_cell x ;;
        ky <- key_cell y ;;
        if leb kx ky then
          v <- getitem L (start seg1 + i0) ;;
          M' <- setitem M (st + k0) v ;;
          merge_both fuel' L seg1 seg2 st (M', i0 + 1, j0, k0 + 1, size + 1)
        else
          v <- getitem L (start seg2 + j0) ;;
          M' <- setitem M (st + k0) v ;;
          merge_both fuel' L seg1 seg2 st (M', i0, j0 + 1, k0 + 1, size + 1)
      else Ok s
  end.

Fixpoint merge_left (fuel : nat) (L : list cell) (seg1 : Segment)
         (st : Z) (s : mstate) : Res mstate :=
  match fuel with
  | O => Raise OutOfFuel
  | S fuel' =>
      let '(M, i0, j0, k0, size) := s in
      if i0 <? len seg1 then
        v <- getitem L (start seg1 + i0) ;;
        M' <- setitem M (st + k0) v ;;
        merge_left fuel' L seg1 st (M', i0 + 1, j0, k0 + 1, size + 1)
      else Ok s
  end.

Fixpoint merge_right (fuel : nat) (L : list cell) (seg2 : Segment)
         (st : Z) (s : mstate) : Res mstate :=
  match fuel with
  | O => Raise OutOfFuel
  | S fuel' =>
      let '(M, i0, j0, k0, size) := s in
      if j0 <? len seg2 then
        v <- getitem L (start seg2 + j0) ;;
        M' <- setitem M (st + k0) v ;;
        merge_right fuel' L seg2 st (M', i0, j0 + 1, k0 + 1, size + 1)
      else Ok s
  end.

(** [mergeSegments] returns [size]; the buffer it wrote comes with it. *)
Definition mergeSegments (L : list cell) (seg1 seg2 : Segment)
           (M : list cell) (st : Z) : Res (list cell * Z) :=
  let n1 := Z.to_nat (len seg1) in
  let n2 := Z.to_nat (len seg2) in
  s1 <- merge_both (S (n1 + n2)) L seg1 seg2 st (M, 0, 0, 0, 0) ;;
  s2 <- merge_left (S n1) L seg1 st s1 ;;
  s3 <- merge_right (S n2) L seg2 st s2 ;;
  let '(M', _, _, _, size) := s3 in
  Ok (M', size).

Definition copySegment (L : list cell) (seg : Segment) (M : list cell)
           (st : Z) : Res (list cell * Z) :=
  M' <- for_each (range (len seg))
          (fun M0 i0 =>
             v <- getitem L (start seg + i0) ;;
             setitem M0 (st + i0) v)
          M ;;
  Ok (M', len seg).

(** A round's log: for every call of [mergeSegments] and [copySegment],
    in order, the [start] argument it was given and the size it
    returned. *)
Definition write_log : Type := list (Z * Z).

(** The [while] loop of [mergeRound], lines 155-158. *)
Fixpoint merge_pairs (fuel : nat) (L : list cell) (segs : list Segment)
         (mergedSegs : list Segment) (i0 : Z) (M : list cell)
         (log : write_log)
  : Res (list Segment * list cell * write_log) :=
  match fuel with
  | O => Raise OutOfFuel
  | S fuel' =>
      if i0 <? llen segs - 1 then
        s1 <- getitem segs i0 ;;
        s2 <- getitem segs (i0 + 1) ;;
        let st := llen mergedSegs in
        '(M', size) <- mergeSegments L s1 s2 M st ;;
        a <- getitem segs i0 ;;
        b <- getitem segs (i0 + 1) ;;
        merge_pairs fuel' L segs
                    (mergedSegs ++ [mkSegment (start a) (end_ b) Inc])
                    (i0 + 2) M' (log ++ [(st, size)])
      else Ok (mergedSegs, M, log)
  end.

Definition mergeRound_log (L : list cell) (segs : list Segment)
           (M : list cell) : Res (list Segment * list cell * write_log) :=
  '(mergedSegs, M1, log) <-
    merge_pairs (S (length segs)) L segs [] 0 M [] ;;
  if llen segs mod 2 =? 1 then
    last <- getitem segs (-1) ;;
    let mergedSegs' := mergedSegs ++ [last] in
    seg <- getitem segs (-1) ;;
    let st := llen mergedSegs' - 1 in
    '(M2, size) <- copySegment L seg M1 st ;;
    Ok (mergedSegs', M2, log ++ [(st, size)])
  else Ok (mergedSegs, M1, log).

Definition mergeRound (L : list cell) (segs : list Segment)
           (M : list cell) : Res (list Segment * list cell) :=
  '(mergedSegs, M', _) <- mergeRound_log L segs M ;;
  Ok (mergedSegs, M').

(** [L[:], M[:] = M[:], L[:]] exchanges the contents of the two lists. *)
Fixpoint mergeRounds_loop (fuel : nat) (L : list cell)
         (segs : list Segment) (M : list cell) : Res (list cell) :=
  match fuel with
  | O => Raise OutOfFuel
  | S fuel' =>
      if 1 <? llen segs then
        '(segs', M') <- mergeRound L segs M ;;
        mergeRounds_loop fuel' M' segs' L
      else Ok L
  end.

Definition mergeRounds (L : list cell) (segs : list Segment)
           (M : list cell) : Res (list cell) :=
  mergeRounds_loop (S (length segs)) L segs M.

End MergeEngine.

(** ** The driver

    [lebA] is the elements' own order, used by [segments(L)]; [leb] orders
    the keys. *)

Section Driver.
Context {A K : Type} (lebA : A -> A -> bool)
        (leb : K -> K -> bool) (key : A -> K).

Definition SimpleTimSort (L : list A) : Res (list (option A)) :=
  if llen L <=? 1 then Ok (map Some L)
  else
    segs <- segments lebA L ;;
    L1 <- processSegments leb key L segs ;;
    let M := repeat None (length L) in
    mergeRounds leb key (map Some L1) segs M.

End Driver.

(** The default call [SimpleTimSort(L)] on integers. *)
Definition SimpleTimSort_default (L : list Z) : Res (list (option Z)) :=
  SimpleTimSort Z.leb Z.leb (fun x => x) L.

(** ** Specification vocabulary *)

Section RunPredicates.
Context {A K : Type} (leb : K -> K -> bool) (key : A -> K) (L : list A).

(** The pair of positions [(p, p+1)] respects direction [d]. *)
Definition step_okb (d p : Z) : bool :=
  match getitem L p, getitem L (p + 1) with
  | Ok a, Ok b =>
      ((d =? Inc) && leb (key a) (key b))
      || ((d =? Dec) && geb leb (key a) (key b))
  | _, _ => false
  end.

(** The index range [[lo, hi)] is monotone in direction [d]. *)
Definition monotoneb (d lo hi : Z) : bool :=
  forallb (step_okb d) (range2 lo (hi - 1)).

(** A segment is a maximal run when it is monotone in its tagged
    direction and one more element at either end would break that. *)
Definition extends_right (s : Segment) : bool :=
  (end_ s <? llen L) && monotoneb (tag s) (start s) (end_ s + 1).

Definition extends_left (s : Segment) : bool :=
  (0 <? start s) && monotoneb (tag s) (start s - 1) (end_ s).

Definition maximal_run (s : Segment) : bool :=
  monotoneb (tag s) (start s) (end_ s)
  && negb (extends_right s) && negb (extends_left s).

(** What the scanner does emit: a monotone segment that, unless it is the
    last one, stops one element short of the run it scanned. The element
    at [end_ s] still continues the run, the pair after it turns. *)
Definition scanned_run (s : Segment) : bool :=
  monotoneb (tag s) (start s) (end_ s)
  && ((tag s =? Inc) || (tag s =? Dec))
  && (if end_ s <? llen L
      then monotoneb (tag s) (start s) (end_ s + 1)
           && negb (step_okb (tag s) (end_ s))
      else true).

(** The scanner's invariant between two calls of [next]. *)
Definition scanner_inv (st : IncDecRuns.t) : Prop :=
  IncDecRuns.m st = llen L - 1
  /\ 0 <= IncDecRuns.j st <= IncDecRuns.m st
  /\ (IncDecRuns.dir st = Inc \/ IncDecRuns.dir st = Dec)
  /\ (IncDecRuns.j st < IncDecRuns.m st ->
      step_okb (IncDecRuns.dir st) (IncDecRuns.j st) = true).

End RunPredicates.

(** Where the next emitted segment starts. *)
Definition scanner_pos (st : IncDecRuns.t) : Z :=
  if IncDecRuns.j st =? IncDecRuns.m st
  then IncDecRuns.m st + 1 else IncDecRuns.j st.

(** [chain a S b]: the segments of [S], in order, are non-empty and lead
    from [a] to [b] without gap or overlap. *)
Fixpoint chain (a : Z) (S : list Segment) (b : Z) : Prop :=
  match S with
  | [] => a = b
  | s :: S' => start s = a /\ a < end_ s /\ chain (end_ s) S' b
  end.

(** The tiling invariant of section 3 of the specification. *)
Definition tiles (n : Z) (S : list Segment) : Prop :=
  chain 0 S n
  /\ Forall (fun s => 0 <= start s /\ start s < end_ s /\ end_ s <= n) S.

Definition total {K : Type} (leb : K -> K -> bool) : Prop :=
  forall a b, leb a b = true \/ leb b a = true.

(** ** The fuser's invariant

    [fuser_inv fs p]: everything before position [p] has been emitted; the
    lookahead [next1], [next2] holds the next two runs of the scanner, if
    there are any, and the scanner stands right behind them. *)

Definition long_or_none (o : option Segment) : Prop :=
  match o with
  | None => True
  | Some b => runThreshold <= len b
  end.

Section FuserPredicates.
Context {A K : Type} (leb : K -> K -> bool) (key : A -> K) (L : list A).

Definition fuser_inv (fs : FuseSegments.t) (p : Z) : Prop :=
  let idr := FuseSegments.IDR fs in
  scanner_inv leb key L idr
  /\ match FuseSegments.next1 fs, FuseSegments.next2 fs with
     | Some a, Some b =>
         start a = p /\ p < end_ a /\ start b = end_ a /\ start b < end_ b
         /\ end_ b = scanner_pos idr
         /\ tag a <> Unsorted /\ tag b <> Unsorted
     | Some a, None =>
         start a = p /\ p < end_ a /\ end_ a = llen L
         /\ IncDecRuns.j idr = IncDecRuns.m idr /\ tag a <> Unsorted
     | None, None => p = llen L /\ IncDecRuns.j idr = IncDecRuns.m idr
     | None, Some _ => False
     end.

End FuserPredicates.

(** The variant of the loops that drive the fuser. *)
Definition fuser_left (fs : FuseSegments.t) : Z :=
  let idr := FuseSegments.IDR fs in
  (IncDecRuns.m idr - IncDecRuns.j idr)
  + match FuseSegments.next1 fs with Some _ => 1 | None => 0 end
  + match FuseSegments.next2 fs with Some _ => 1 | None => 0 end.

(** In the fuser's output a segment that follows an Unsorted one is never
    short. *)
Definition head_long (F : list Segment) : Prop :=
  match F with
  | [] => True
  | y :: _ => runThreshold <= len y
  end.

Fixpoint long_after_unsorted (F : list Segment) : Prop :=
  match F with
  | [] => True
  | x :: rest =>
      (tag x = Unsorted -> head_long rest) /\ long_after_unsorted rest
  end.

(** ** The block split and the invariant of [segments] *)

(** The cut points and the sub-blocks as the specification writes them:
    what the split of lines 99-101 is meant to produce. *)
Definition cut (curr : Segment) (i0 : Z) : Z :=
  start curr + (len curr * i0) / (len curr / blockMin).

Definition sub_blocks (curr : Segment) : list Segment :=
  map (fun i0 => mkSegment (cut curr i0) (cut curr (i0 + 1)) Unsorted)
      (range (len curr / blockMin)).

(** The segments that send the loop of [segments] to line 100: Unsorted
    and longer than [blockMax]. *)
Definition oversized (s : Segment) : bool :=
  (tag s =? Unsorted) && (blockMax <? len s).

Definition bounded_unsorted (s : Segment) : Prop :=
  tag s = Unsorted -> len s <= blockMax.

Fixpoint last_unsorted (S : list Segment) : Prop :=
  match S with
  | [] => False
  | x :: S' => match S' with
               | [] => tag x = Unsorted
               | _ :: _ => last_unsorted S'
               end
  end.

Section SegmentsPredicates.
Context {A : Type} (lebA : A -> A -> bool) (L : list A).

(** At the head of the [while curr:] loop. *)
Definition segments_inv (S : list Segment) (curr : option Segment)
           (FS : FuseSegments.t) : Prop :=
  Forall bounded_unsorted S
  /\ match curr with
     | None => chain 0 S (llen L)
     | Some c =>
         chain 0 S (start c) /\ start c < end_ c
         /\ fuser_inv lebA (fun x => x) L FS (end_ c)
         /\ (tag c = Unsorted -> long_or_none (FuseSegments.next1 FS))
         /\ (last_unsorted S -> runThreshold <= len c)
     end.

End SegmentsPredicates.

(** ** What a caller expects of the result *)

Section ResultPredicates.
Context {A K : Type} (leb : K -> K -> bool) (key : A -> K).

(** [key(res[i]) <= key(res[i+1])] for every valid [i]; a pair with an
    empty cell in it is not ordered. *)
Fixpoint sorted_cells (res : list (option A)) : bool :=
  match res with
  | [] => true
  | c :: rest =>
      match rest with
      | [] => true
      | d :: _ =>
          match c, d with
          | Some a, Some b => leb (key a) (key b)
          | _, _ => false
          end && sorted_cells rest
      end
  end.

(** Every claimed run is maximal: the scanner's contract in section 4.1 of
    the specification. *)
Definition partitions_into_maximal_runs (L : list A) : Prop :=
  exists R, IncDecRuns.runs leb key L = Ok R
            /\ tiles (llen L) R
            /\ forallb (maximal_run leb key L) R = true.

End ResultPredicates.

(** A merge round's writes tile a prefix of the buffer when every call
    starts where the output written before it ends. *)
Fixpoint tiled_from (pos : Z) (log : write_log) : bool :=
  match log with
  | [] => true
  | (st, size) :: rest => (st =? pos) && tiled_from (pos + size) rest
  end.

(** ** Inputs *)

(** The first test list at the bottom of the source file. *)
Definition l1 : list Z :=
  [1; 5; 7; 3; 9; 2; 4; 6; 8; 9; 345; 46; 57; 2; 34; 658; 7567].

(** Three runs: [0], then 33 down to 2 (32 elements, a long run), then
    [1, 2]. Python: [[0] + list(range(33, 0, -1)) + [2]]. *)
Definition l35 : list Z :=
  [0; 33; 32; 31; 30; 29; 28; 27; 26; 25; 24; 23; 22; 21; 20; 19; 18; 17;
   16; 15; 14; 13; 12; 11; 10; 9; 8; 7; 6; 5; 4; 3; 2; 1; 2].

(** [l35] after [processSegments]: the Decreasing run is reversed. *)
Definition p35 : list Z :=
  [0; 2; 3; 4; 5; 6; 7; 8; 9; 10; 11; 12; 13; 14; 15; 16; 17; 18; 19; 20;
   21; 22; 23; 24; 25; 26; 27; 28; 29; 30; 31; 32; 33; 1; 2].

Definition segs35 : list Segment :=
  [mkSegment 0 1 Inc; mkSegment 1 33 Dec; mkSegment 33 35 Inc].

(** Three runs again, the last one as long as the first two together.
    Python: [[0] + list(range(33, 0, -1)) + list(range(2, 34))]. *)
Definition l66 : list Z :=
  [0; 33; 32; 31; 30; 29; 28; 27; 26; 25; 24; 23; 22; 21; 20; 19; 18; 17;
   16; 15; 14; 13; 12; 11; 10; 9; 8; 7; 6; 5; 4; 3; 2; 1;
   2; 3; 4; 5; 6; 7; 8; 9; 10; 11; 12; 13; 14; 15; 16; 17; 18; 19; 20; 21;
   22; 23; 24; 25; 26; 27; 28; 29; 30; 31; 32; 33].

(** What [SimpleTimSort(l66)] returns: 34 elements and 32 empty cells. *)
Definition r66 : list (option Z) :=
  map Some (range 34) ++ repeat None 32.

(** Seventy elements without a long run: short runs that zigzag. *)
Definition zigzag70 : list Z :=
  map (fun k => if Z.even (k / 2) then k mod 7 else 9 - k mod 5) (range 70).

(** Thirty-three rising elements, then thirty-three falling ones: two long
    runs. *)
Definition updown66 : list Z :=
  map Z.of_nat (seq 0 33) ++ map Z.of_nat (rev (seq 0 33)).

(** ** Vocabulary of the normalizer and the merge engine *)

(** [l[a:b]] for bounds that are already in range. *)
Definition slice {X : Type} (l : list X) (a b : Z) : list X :=
  firstn (Z.to_nat (b - a)) (skipn (Z.to_nat a) l).

Section ListOrder.
Context {A K : Type} (leb : K -> K -> bool) (key : A -> K).

(** Every element is at most its right neighbour. *)
Fixpoint sortedb (l : list A) : bool :=
  match l with
  | [] => true
  | a :: t =>
      match t with
      | [] => true
      | b :: _ => leb (key a) (key b) && sortedb t
      end
  end.

(** The two-pointer merge of [mergeSegments] on plain lists: the left
    element goes first unless the right one is strictly smaller. *)
Fixpoint merge_lists (l1 : list A) : list A -> list A :=
  fix merge_right_list (l2 : list A) : list A :=
    match l1, l2 with
    | [], _ => l2
    | _, [] => l1
    | a :: t1, b :: t2 =>
        if leb (key a) (key b)
        then a :: merge_lists t1 l2
        else b :: merge_right_list t2
    end.

End ListOrder.

(** ** Tags that tell the truth *)

Section TagPredicates.
Context {A K : Type} (leb : K -> K -> bool) (key : A -> K) (L : list A).

(** An Increasing segment is non-decreasing, a Decreasing one
    non-increasing; an Unsorted one promises nothing. *)
Definition tag_holds (s : Segment) : bool :=
  (tag s =? Unsorted)
  || (((tag s =? Inc) || (tag s =? Dec))
      && monotoneb leb key L (tag s) (start s) (end_ s)).

Definition opt_run (o : option Segment) : Prop :=
  match o with
  | Some x => scanned_run leb key L x = true
  | None => True
  end.

(** The fuser's lookahead holds segments as the scanner made them. *)
Definition fuser_runs (fs : FuseSegments.t) : Prop :=
  opt_run (FuseSegments.next1 fs) /\ opt_run (FuseSegments.next2 fs).

End TagPredicates.

Section SegmentsRunsPredicates.
Context {A : Type} (lebA : A -> A -> bool) (L : list A).

(** The last segment of [S] is a run as the scanner made it. *)
Definition pristine_last (S : list Segment) : Prop :=
  exists S0 x, S = S0 ++ [x]
               /\ scanned_run lebA (fun a => a) L x = true.

(** At the head of the [while curr:] loop, about the elements. *)
Definition segments_runs_inv (S : list Segment) (curr : option Segment)
           (FS : FuseSegments.t) : Prop :=
  forallb (tag_holds lebA (fun a => a) L) S = true
  /\ fuser_runs lebA (fun a => a) L FS
  /\ match curr with
     | None => True
     | Some c =>
         (tag c = Unsorted \/ scanned_run lebA (fun a => a) L c = true)
         /\ (tag c = Unsorted -> 2 <= len c)
         /\ (len c < runThreshold ->
             long_or_none (FuseSegments.next1 FS))
         /\ (S = [] \/ pristine_last S \/ runThreshold <= len c)
     end.

End SegmentsRunsPredicates.

(** [reads L p C]: the cells of [L] from index [p] on are those of [C]. *)
Definition reads {X : Type} (L : list X) (p : Z) (C : list X) : Prop :=
  forall k c, nth_error C k = Some c -> getitem L (p + Z.of_nat k) = Ok c.

(** In the fuser's output a segment that follows a short one is never
    short. *)
Fixpoint long_after_short (F : list Segment) : Prop :=
  match F with
  | [] => True
  | x :: rest =>
      (len x < runThreshold -> head_long rest) /\ long_after_short rest
  end.

(** In the scanner's output the directions alternate. *)
Fixpoint alternating (d : Z) (R : list Segment) : Prop :=
  match R with
  | [] => True
  | x :: rest => tag x = d /\ alternating (- d) rest
  end.

(** ** Proof automation *)

(** Splits the conjunctions that are written in the goal, and no
    definition that unfolds to one. *)
Ltac conj_split :=
  repeat match goal with
         | |- _ /\ _ => split
         end.

(** Reads the fields of a fuser state that is written out. *)
Ltac fuser_fields :=
  cbn [FuseSegments.IDR FuseSegments.next1 FuseSegments.next2
       start end_ tag].

(** Two loop states are equal when their lists are and their counters
    agree as integers. *)
Ltac state_eq :=
  f_equal; repeat (apply f_equal2; [| lia]).

(** * Properties *)

(** ** Python lists: reading, ranges *)

Lemma norm_index_nonneg (n i : Z) :
  0 <= i < n -> norm_index n i = Some (Z.to_nat i).
Proof.
  intros H. unfold norm_index.
  destruct (Z.ltb_spec i 0) as [Hneg | _]; [lia |].
  destruct (Z.leb_spec 0 i) as [_ | Hneg]; [| lia].
  destruct (Z.ltb_spec i n) as [_ | Hbig]; [| lia].
  reflexivity.
Qed.

Lemma getitem_nonneg {X : Type} (l : list X) (i : Z) :
  0 <= i < llen l -> exists x, getitem l i = Ok x.
Proof.
  intros H. unfold getitem. rewrite norm_index_nonneg by exact H.
  destruct (nth_error l (Z.to_nat i)) as [x |] eqn:E.
  - now exists x.
  - apply nth_error_None in E. unfold llen in H. lia.
Qed.

Lemma range2_length (a b : Z) : length (range2 a b) = Z.to_nat (b - a).
Proof. unfold range2. now rewrite length_map, length_seq. Qed.

(** ** Tilings *)

Lemma chain_app (a b : Z) (S1 S2 : list Segment) :
  chain a (S1 ++ S2) b <-> exists c, chain a S1 c /\ chain c S2 b.
Proof.
  revert a. induction S1 as [| s S1 IH]; intros a; simpl.
  - split.
    + intros H. now exists a.
    + now intros (c & -> & H).
  - rewrite IH. split.
    + intros (H1 & H2 & c & H3 & H4). exists c. tauto.
    + intros (c & (H1 & H2 & H3) & H4). repeat split; trivial. now exists c.
Qed.

Lemma chain_le (a b : Z) (S : list Segment) : chain a S b -> a <= b.
Proof.
  revert a. induction S as [| s S IH]; intros a; simpl.
  - lia.
  - intros (_ & H1 & H2). apply IH in H2. lia.
Qed.

Lemma chain_bounds (a b : Z) (S : list Segment) :
  chain a S b ->
  Forall (fun s => a <= start s /\ start s < end_ s /\ end_ s <= b) S.
Proof.
  revert a. induction S as [| s S IH]; intros a; simpl; [constructor |].
  intros (H0 & H1 & H2). constructor.
  - pose proof (chain_le _ _ _ H2). lia.
  - eapply Forall_impl; [| apply (IH _ H2)]. simpl. intros x. lia.
Qed.

Lemma chain_tiles (n : Z) (S : list Segment) : chain 0 S n -> tiles n S.
Proof. intros H. split; [exact H | now apply chain_bounds]. Qed.

(** ** The scanner *)

Section ScannerFacts.
Context {A K : Type} (leb : K -> K -> bool) (key : A -> K) (L : list A).
Hypothesis leb_total : total leb.

Lemma extends_spec (d p : Z) :
  d = Inc \/ d = Dec -> 0 <= p -> p + 1 < llen L ->
  IncDecRuns.extends leb key L d p = Ok (step_okb leb key L d p).
Proof.
  intros Hd H0 H1.
  unfold IncDecRuns.extends, step_okb.
  destruct (@getitem_nonneg _ L p) as [a Ha]; [lia |].
  destruct (@getitem_nonneg _ L (p + 1)) as [b Hb]; [lia |].
  rewrite Ha, Hb.
  destruct Hd as [-> | ->]; simpl.
  - destruct (leb (key a) (key b)); reflexivity.
  - reflexivity.
Qed.

Lemma okb_flip (d p : Z) :
  d = Inc \/ d = Dec -> 0 <= p -> p + 1 < llen L ->
  step_okb leb key L d p = false -> step_okb leb key L (- d) p = true.
Proof.
  intros Hd H0 H1. unfold step_okb.
  destruct (@getitem_nonneg _ L p) as [a Ha]; [lia |].
  destruct (@getitem_nonneg _ L (p + 1)) as [b Hb]; [lia |].
  rewrite Ha, Hb. unfold geb.
  destruct (leb_total (key a) (key b)) as [T | T];
    destruct Hd as [-> | ->]; simpl; rewrite T; simpl;
    try discriminate; try reflexivity.
Qed.

Lemma scan_spec (d m0 : Z) :
  d = Inc \/ d = Dec -> m0 = llen L - 1 ->
  forall (fuel : nat) (j0 : Z),
    (Z.to_nat (m0 - j0) < fuel)%nat -> 0 <= j0 <= m0 ->
    exists j1, IncDecRuns.scan leb key L fuel d m0 j0 = Ok j1
               /\ j0 <= j1 <= m0
               /\ (forall p, j0 <= p < j1 -> step_okb leb key L d p = true)
               /\ (j1 < m0 -> step_okb leb key L d j1 = false).
Proof.
  intros Hd Hm. induction fuel as [| fuel IH]; intros j0 Hf Hj; [lia |].
  simpl.
  destruct (Z.ltb_spec j0 m0) as [Hlt | Hge].
  - rewrite extends_spec by (trivial; lia). simpl.
    destruct (step_okb leb key L d j0) eqn:E.
    + destruct (IH (j0 + 1)) as (j1 & R & B & P & Q); [lia | lia |].
      exists j1. split; [exact R |]. split; [lia |]. split; [| exact Q].
      intros p Hp. destruct (Z.eq_dec p j0) as [-> | N]; [exact E |].
      apply P. lia.
    + exists j0. split; [reflexivity |]. split; [lia |].
      split; [intros p Hp; lia | intros _; exact E].
  - exists j0. split; [reflexivity |]. split; [lia |].
    split; intros; lia.
Qed.

Lemma forallb_range2 (f : Z -> bool) (a b : Z) :
  forallb f (range2 a b) = true <-> (forall p, a <= p < b -> f p = true).
Proof.
  unfold range2. rewrite forallb_forall. split.
  - intros H p Hp. apply H. apply in_map_iff.
    exists (Z.to_nat (p - a)). split; [lia |]. apply in_seq. lia.
  - intros H x Hx. apply in_map_iff in Hx. destruct Hx as (k & <- & Hk).
    apply in_seq in Hk. apply H. lia.
Qed.

Lemma scanner_next_none (st : IncDecRuns.t) :
  IncDecRuns.j st = IncDecRuns.m st ->
  IncDecRuns.next leb key L st = Ok (None, st).
Proof.
  intros H. unfold IncDecRuns.next. rewrite H, Z.eqb_refl. reflexivity.
Qed.

Lemma scanner_next_some (st : IncDecRuns.t) :
  scanner_inv leb key L st ->
  IncDecRuns.j st < IncDecRuns.m st ->
  exists s st',
    IncDecRuns.next leb key L st = Ok (Some s, st')
    /\ scanner_inv leb key L st'
    /\ start s = IncDecRuns.j st
    /\ IncDecRuns.j st < IncDecRuns.j st'
    /\ end_ s = scanner_pos st'
    /\ tag s = IncDecRuns.dir st
    /\ scanned_run leb key L s = true.
Proof.
  intros (Hm & Hj & Hd & Hstep) Hlt.
  unfold IncDecRuns.next.
  destruct (Z.eqb_spec (IncDecRuns.j st) (IncDecRuns.m st)) as [E | _]; [lia |].
  destruct (scan_spec Hd Hm (fuel := S (Z.to_nat (IncDecRuns.m st - IncDecRuns.j st)))
              (j0 := IncDecRuns.j st)) as (j1 & R & B & P & Q); [lia | lia |].
  rewrite R. cbn [bind].
  assert (Hadv : IncDecRuns.j st < j1).
  { destruct (Z.eq_dec j1 (IncDecRuns.j st)) as [E | N]; [| lia].
    rewrite E in Q. rewrite Q in Hstep by lia. specialize (Hstep Hlt).
    discriminate. }
  assert (Htag : (IncDecRuns.dir st =? Inc) || (IncDecRuns.dir st =? Dec) = true).
  { destruct Hd as [-> | ->]; reflexivity. }
  destruct (Z.eqb_spec j1 (IncDecRuns.m st)) as [E | N].
  - eexists _, _. split; [reflexivity |]. cbn.
    split; [| repeat split; trivial].
    + repeat split; cbn; try lia; trivial.
    + unfold scanner_pos. cbn. rewrite E, Z.eqb_refl. reflexivity.
    + unfold scanned_run. cbn. rewrite Htag.
      destruct (Z.ltb_spec (IncDecRuns.m st + 1) (llen L)) as [C | _]; [lia |].
      rewrite !andb_true_r. apply forallb_range2. intros p Hp. apply P. lia.
  - eexists _, _. split; [reflexivity |]. cbn.
    split; [| repeat split; trivial].
    + repeat split; cbn; try lia.
      * destruct Hd as [-> | ->]; [now right | now left].
      * intros _. apply okb_flip; trivial; try lia. apply Q. lia.
    + unfold scanner_pos. cbn.
      destruct (Z.eqb_spec j1 (IncDecRuns.m st)); [contradiction | reflexivity].
    + lia.
    + unfold scanned_run. cbn. rewrite Z.opp_involutive, Htag.
      destruct (Z.ltb_spec j1 (llen L)) as [_ | C]; [| lia].
      rewrite Q by lia. rewrite !andb_true_r.
      apply andb_true_intro. split; apply forallb_range2; intros p Hp; apply P; lia.
Qed.

Lemma scanner_init_spec :
  2 <= llen L ->
  exists st, IncDecRuns.init leb key L = Ok st
             /\ scanner_inv leb key L st
             /\ IncDecRuns.j st = 0
             /\ IncDecRuns.m st = llen L - 1.
Proof.
  intros Hn. unfold IncDecRuns.init.
  destruct (@getitem_nonneg _ L 1) as [x1 H1]; [lia |].
  destruct (@getitem_nonneg _ L 0) as [x0 H0]; [lia |].
  rewrite H1, H0. cbn [bind]. eexists. split; [reflexivity |].
  split; [| split; reflexivity].
  repeat split; cbn; try lia.
  - destruct (geb leb (key x1) (key x0)); [now left | now right].
  - intros _. unfold step_okb. change (0 + 1) with 1. rewrite H0, H1.
    unfold geb. destruct (leb (key x0) (key x1)) eqn:E; cbn.
    + reflexivity.
    + destruct (leb_total (key x0) (key x1)) as [T | T]; [congruence |].
      now rewrite T.
Qed.

Lemma scanner_drain_spec (fuel : nat) :
  forall st,
    scanner_inv leb key L st ->
    (Z.to_nat (IncDecRuns.m st - IncDecRuns.j st) < fuel)%nat ->
    exists R, IncDecRuns.drain leb key L fuel st = Ok R
              /\ chain (scanner_pos st) R (llen L)
              /\ forallb (scanned_run leb key L) R = true.
Proof.
  induction fuel as [| fuel IH]; intros st Hinv Hf; [lia |].
  cbn [IncDecRuns.drain].
  destruct (Z.eq_dec (IncDecRuns.j st) (IncDecRuns.m st)) as [E | N].
  - rewrite scanner_next_none by exact E. cbn. exists [].
    split; [reflexivity |]. split; [| reflexivity].
    cbn. unfold scanner_pos. rewrite E, Z.eqb_refl.
    destruct Hinv as (Hm & _). lia.
  - pose proof Hinv as (Hm & Hj & _).
    destruct (scanner_next_some Hinv) as (s & st' & R & Hinv' & Hs & Hadv & He & _ & Hrun);
      [lia |].
    rewrite R. cbn [bind].
    pose proof Hinv' as (Hm' & Hj' & _).
    destruct (IH st' Hinv') as (rest & Rr & Hc & Hall); [lia |].
    rewrite Rr. cbn [bind]. exists (s :: rest).
    split; [reflexivity |]. split.
    + assert (Hp : scanner_pos st = IncDecRuns.j st).
      { unfold scanner_pos.
        destruct (Z.eqb_spec (IncDecRuns.j st) (IncDecRuns.m st));
          [contradiction | reflexivity]. }
      cbn [chain]. rewrite Hp, He. repeat split; trivial.
      unfold scanner_pos. destruct (Z.eqb_spec (IncDecRuns.j st') (IncDecRuns.m st')); lia.
    + cbn [forallb]. now rewrite Hrun, Hall.
Qed.

Lemma scanner_runs_spec :
  2 <= llen L ->
  exists R, IncDecRuns.runs leb key L = Ok R
            /\ chain 0 R (llen L)
            /\ forallb (scanned_run leb key L) R = true.
Proof.
  intros Hn. unfold IncDecRuns.runs.
  destruct (scanner_init_spec Hn) as (st & R & Hinv & Hj & Hm).
  rewrite R. cbn [bind].
  destruct (@scanner_drain_spec (S (length L)) st Hinv) as (Rs & Rd & Hc & Hall).
  { rewrite Hm, Hj. unfold llen. lia. }
  exists Rs. split; [exact Rd |]. split; [| exact Hall].
  unfold scanner_pos in Hc. rewrite Hj, Hm in Hc.
  destruct (Z.eqb_spec 0 (llen L - 1)); [lia | exact Hc].
Qed.

End ScannerFacts.

(** ** The fuser *)

Section FuserFacts.
Context {A K : Type} (leb : K -> K -> bool) (key : A -> K) (L : list A).
Hypothesis leb_total : total leb.

Lemma scanner_pos_at_end (st : IncDecRuns.t) :
  scanner_inv leb key L st ->
  IncDecRuns.j st = IncDecRuns.m st -> scanner_pos st = llen L.
Proof.
  intros (Hm & _) E. unfold scanner_pos. rewrite E, Z.eqb_refl. lia.
Qed.

Lemma scanner_pos_before_end (st : IncDecRuns.t) :
  IncDecRuns.j st <> IncDecRuns.m st -> scanner_pos st = IncDecRuns.j st.
Proof.
  intros N. unfold scanner_pos.
  destruct (Z.eqb_spec (IncDecRuns.j st) (IncDecRuns.m st));
    [contradiction | reflexivity].
Qed.

Lemma scanner_pos_gt (st : IncDecRuns.t) (x : Z) :
  scanner_inv leb key L st -> x < IncDecRuns.j st -> x < scanner_pos st.
Proof.
  intros (_ & Hj & _) H. unfold scanner_pos.
  destruct (Z.eqb_spec (IncDecRuns.j st) (IncDecRuns.m st)); lia.
Qed.

(** One call of the scanner, as the fuser sees it. *)
Lemma scanner_next_cases (st : IncDecRuns.t) :
  scanner_inv leb key L st ->
  (IncDecRuns.j st = IncDecRuns.m st
   /\ IncDecRuns.next leb key L st = Ok (None, st))
  \/ (IncDecRuns.j st < IncDecRuns.m st
      /\ exists s st',
          IncDecRuns.next leb key L st = Ok (Some s, st')
          /\ scanner_inv leb key L st'
          /\ start s = scanner_pos st
          /\ IncDecRuns.j st < IncDecRuns.j st'
          /\ IncDecRuns.m st' = IncDecRuns.m st
          /\ start s < end_ s
          /\ end_ s = scanner_pos st'
          /\ tag s <> Unsorted).
Proof.
  intros Hinv. pose proof Hinv as (Hm & Hj & Hd & _).
  destruct (Z.eq_dec (IncDecRuns.j st) (IncDecRuns.m st)) as [E | N].
  - left. split; [exact E | now apply scanner_next_none].
  - right. split; [lia |].
    destruct (scanner_next_some leb_total Hinv)
      as (s & st' & R & Hinv' & Hs & Hadv & He & Ht & _); [lia |].
    exists s, st'. split; [exact R |]. split; [exact Hinv' |].
    pose proof Hinv' as (Hm' & _).
    rewrite scanner_pos_before_end by exact N.
    conj_split; trivial; try lia.
    + rewrite He, Hs. now apply scanner_pos_gt.
    + rewrite Ht. destruct Hd as [-> | ->]; discriminate.
Qed.

Lemma absorb_spec (q : Z) (fuel : nat) :
  forall (idr : IncDecRuns.t) (b : Segment),
    scanner_inv leb key L idr ->
    (Z.to_nat (IncDecRuns.m idr - IncDecRuns.j idr) < fuel)%nat ->
    start b < end_ b -> end_ b = scanner_pos idr -> q <= start b ->
    tag b <> Unsorted ->
    exists b' idr',
      FuseSegments.absorb leb key L fuel idr (Some b) = Ok (Some b', idr')
      /\ scanner_inv leb key L idr'
      /\ start b' < end_ b' /\ end_ b' = scanner_pos idr' /\ q <= start b'
      /\ tag b' <> Unsorted
      /\ IncDecRuns.j idr <= IncDecRuns.j idr'
      /\ IncDecRuns.m idr' = IncDecRuns.m idr
      /\ (len b' < runThreshold -> IncDecRuns.j idr' = IncDecRuns.m idr').
Proof.
  induction fuel as [| fuel IH]; intros idr b Hinv Hf Hne He Hq Ht; [lia |].
  cbn [FuseSegments.absorb FuseSegments.olen bind].
  unfold IncDecRuns.finished.
  destruct (Z.ltb_spec (len b) runThreshold) as [Hshort | Hlong]; cbn [andb].
  - destruct (scanner_next_cases Hinv)
      as [(E & _) | (Hlt & s & idr' & R & Hinv' & Hs & Hadv & Hm' & Hne' & He' & Ht')].
    + destruct (Z.eqb_spec (IncDecRuns.j idr) (IncDecRuns.m idr)) as [_ | N];
        [| contradiction].
      cbn [negb]. exists b, idr.
      conj_split; trivial; lia.
    + destruct (Z.eqb_spec (IncDecRuns.j idr) (IncDecRuns.m idr)) as [E | _];
        [lia |].
      cbn [negb]. rewrite R. cbn [bind].
      destruct (IH idr' s Hinv') as (b' & idr'' & Ra & I & P1 & P2 & P3 & P4 & P5 & P6 & P7);
        trivial; try lia.
      exists b', idr''. conj_split; trivial; lia.
  - exists b, idr. conj_split; trivial; lia.
Qed.

Lemma fuser_next_none (fs : FuseSegments.t) (p : Z) :
  fuser_inv leb key L fs p -> FuseSegments.next1 fs = None ->
  FuseSegments.next leb key L fs = Ok (None, fs) /\ p = llen L.
Proof.
  unfold fuser_inv, FuseSegments.next. destruct fs as [idr n1 n2]. cbn.
  intros (Hinv & H) ->. destruct n2; [contradiction |]. tauto.
Qed.

Lemma fuser_next_some (fs : FuseSegments.t) (p : Z) (a : Segment) :
  fuser_inv leb key L fs p -> FuseSegments.next1 fs = Some a ->
  exists s fs',
    FuseSegments.next leb key L fs = Ok (Some s, fs')
    /\ start s = p /\ p < end_ s
    /\ fuser_inv leb key L fs' (end_ s)
    /\ fuser_left fs' < fuser_left fs
    /\ ((s = a /\ tag s <> Unsorted)
        \/ (tag s = Unsorted /\ len a < runThreshold
            /\ long_or_none (FuseSegments.next1 fs'))).
Proof.
  unfold fuser_inv at 1, FuseSegments.next. destruct fs as [idr n1 n2].
  cbn [FuseSegments.IDR FuseSegments.next1 FuseSegments.next2].
  intros (Hinv & H) ->. pose proof Hinv as (Hm & Hj & _).
  destruct n2 as [b |].
  - destruct H as (Ha & Hpa & Hb & Hne & He & Hta & Htb).
    cbn [FuseSegments.olen bind].
    destruct ((len a <? runThreshold) && (len b <? runThreshold)) eqn:Hboth.
    + apply andb_prop in Hboth. destruct Hboth as (Sa & Sb).
      apply Z.ltb_lt in Sa.
      destruct (@absorb_spec (end_ a)
                  (S (Z.to_nat (IncDecRuns.m idr - IncDecRuns.j idr))) idr b)
        as (b' & idr' & R & Hinv' & Hne' & He' & Hq' & Ht' & Hadv & Hm' & Hfin);
        trivial; try lia.
      rewrite R. cbn [bind FuseSegments.olen].
      destruct (Z.ltb_spec (len b') runThreshold) as [Hshort | Hlong].
      * cbn [bind]. eexists _, _. split; [reflexivity |].
        cbn [start end_ tag]. specialize (Hfin Hshort).
        split; [exact Ha |]. split; [lia |]. split; [| split].
        -- split; [exact Hinv' |]. fuser_fields. split; [| exact Hfin].
           rewrite He'. now apply scanner_pos_at_end.
        -- unfold fuser_left. fuser_fields. lia.
        -- right. fuser_fields. cbn [long_or_none]. auto.
      * destruct (scanner_next_cases Hinv')
          as [(E & R') | (Hlt & s & idr'' & R' & Hinv'' & Hs & Hadv' & Hm'' & Hne'' & He'' & Ht'')];
          rewrite R'; cbn [bind]; eexists _, _; (split; [reflexivity |]);
          cbn [start end_ tag]; (split; [exact Ha |]); (split; [lia |]).
        -- split; [| split].
           ++ split; [exact Hinv' |]. fuser_fields. conj_split; trivial.
              rewrite He'. now apply scanner_pos_at_end.
           ++ unfold fuser_left. fuser_fields. lia.
           ++ right. fuser_fields. cbn [long_or_none]. auto.
        -- split; [| split].
           ++ split; [exact Hinv'' |]. fuser_fields. conj_split; trivial.
              congruence.
           ++ unfold fuser_left. fuser_fields. lia.
           ++ right. fuser_fields. cbn [long_or_none]. auto.
    + destruct (scanner_next_cases Hinv)
        as [(E & R') | (Hlt & s & idr' & R' & Hinv' & Hs & Hadv' & Hm' & Hne' & He' & Ht')];
        rewrite R'; cbn [bind]; exists a; eexists; (split; [reflexivity |]);
        (split; [exact Ha |]); (split; [lia |]).
      * split; [| split].
        -- split; [exact Hinv |]. fuser_fields. conj_split; trivial; try lia.
           rewrite He. now apply scanner_pos_at_end.
        -- unfold fuser_left. fuser_fields. lia.
        -- left. auto.
      * split; [| split].
        -- split; [exact Hinv' |]. fuser_fields. conj_split; trivial; lia.
        -- unfold fuser_left. fuser_fields. lia.
        -- left. auto.
  - destruct H as (Ha & Hpa & He & Hfin & Hta).
    exists a; eexists. split; [reflexivity |].
    split; [exact Ha |]. split; [lia |]. split; [| split].
    + split; [exact Hinv |]. fuser_fields. auto.
    + unfold fuser_left. fuser_fields. lia.
    + left. auto.
Qed.

End FuserFacts.

Section FuserRuns.
Context {A K : Type} (leb : K -> K -> bool) (key : A -> K) (L : list A).
Hypothesis leb_total : total leb.

Lemma fuser_init_spec (idr : IncDecRuns.t) :
  scanner_inv leb key L idr ->
  IncDecRuns.j idr = 0 -> 2 <= llen L ->
  exists fs a,
    FuseSegments.init leb key L idr = Ok fs
    /\ fuser_inv leb key L fs 0
    /\ FuseSegments.next1 fs = Some a
    /\ fuser_left fs <= llen L.
Proof.
  intros Hinv Hj Hn. pose proof Hinv as (Hm & _).
  unfold FuseSegments.init.
  destruct (scanner_next_cases leb_total Hinv)
    as [(E & _) | (Hlt & s1 & idr1 & R1 & Hinv1 & Hs1 & Hadv1 & Hm1 & Hne1 & He1 & Ht1)];
    [lia |].
  rewrite R1. cbn [bind].
  rewrite scanner_pos_before_end in Hs1 by lia.
  destruct (scanner_next_cases leb_total Hinv1)
    as [(E & R2) | (Hlt2 & s2 & idr2 & R2 & Hinv2 & Hs2 & Hadv2 & Hm2 & Hne2 & He2 & Ht2)];
    rewrite R2; cbn [bind]; eexists _, s1; (split; [reflexivity |]).
  - split; [| split; [reflexivity |]].
    + split; [exact Hinv1 |]. fuser_fields. conj_split; trivial; try lia.
      rewrite He1. now apply (scanner_pos_at_end (leb := leb) (key := key)).
    + unfold fuser_left. fuser_fields. lia.
  - split; [| split; [reflexivity |]].
    + split; [exact Hinv2 |]. fuser_fields. conj_split; trivial; lia.
    + unfold fuser_left. fuser_fields. lia.
Qed.

Lemma fuser_drain_spec (fuel : nat) :
  forall (fs : FuseSegments.t) (p : Z),
    fuser_inv leb key L fs p ->
    fuser_left fs < Z.of_nat fuel ->
    exists F, FuseSegments.drain leb key L fuel fs = Ok F
              /\ chain p F (llen L)
              /\ long_after_unsorted F
              /\ (long_or_none (FuseSegments.next1 fs) -> head_long F).
Proof.
  induction fuel as [| fuel IH]; intros fs p Hinv Hf.
  - exfalso. destruct Hinv as ((_ & Hj & _) & _). unfold fuser_left in Hf.
    destruct (FuseSegments.next1 fs), (FuseSegments.next2 fs); lia.
  - cbn [FuseSegments.drain].
    destruct (FuseSegments.next1 fs) as [a |] eqn:E1.
    + destruct (fuser_next_some leb_total Hinv E1)
        as (s & fs' & R & Hs & Hne & Hinv' & Hdec & Hkind).
      rewrite R. cbn [bind].
      destruct (IH fs' (end_ s) Hinv') as (F & Rd & Hc & Hadj & Hhead); [lia |].
      rewrite Rd. cbn [bind]. exists (s :: F).
      split; [reflexivity |]. split; [| split].
      * cbn [chain]. auto.
      * cbn [long_after_unsorted]. split; [| exact Hadj].
        intros Ht. destruct Hkind as [(_ & N) | (_ & _ & Hl)];
          [contradiction | auto].
      * cbn [long_or_none head_long]. intros Hl.
        destruct Hkind as [(-> & _) | (_ & Hshort & _)]; [exact Hl | lia].
    + destruct (fuser_next_none Hinv E1) as (R & Hp).
      rewrite R. cbn [bind]. exists [].
      split; [reflexivity |]. cbn. auto.
Qed.

Lemma fuser_fused_spec :
  2 <= llen L ->
  exists F, FuseSegments.fused leb key L = Ok F
            /\ chain 0 F (llen L)
            /\ long_after_unsorted F.
Proof.
  intros Hn. unfold FuseSegments.fused.
  destruct (@scanner_init_spec _ _ leb key L leb_total Hn)
    as (idr & R & Hinv & Hj & Hm).
  rewrite R. cbn [bind].
  destruct (fuser_init_spec Hinv Hj Hn) as (fs & a & Rf & Hfinv & _ & Hleft).
  rewrite Rf. cbn [bind].
  destruct (@fuser_drain_spec (S (S (length L))) fs 0 Hfinv)
    as (F & Rd & Hc & Hadj & _).
  { unfold llen in Hleft. lia. }
  exists F. auto.
Qed.

End FuserRuns.

(** ** The block split *)

(** The split never gets its cut points: [k] is still unbound. *)
Lemma split_block_unbound (c : Segment) :
  split_block None c = Raise UnboundLocalError.
Proof. reflexivity. Qed.

Lemma segments_body_raises (S : list Segment) (c : Segment) (fin : bool) :
  oversized c = true ->
  segments_body None S c fin = Raise UnboundLocalError.
Proof.
  unfold oversized, segments_body. intros H. apply andb_prop in H.
  destruct H as (Ht & Hbig). apply Z.ltb_lt in Hbig.
  destruct (Z.eqb_spec (len c) 1) as [E | _];
    [unfold blockMax in Hbig; lia |].
  cbn [andb]. rewrite Ht. cbn [negb orb].
  destruct (Z.leb_spec (len c) blockMax) as [C | _]; [lia |].
  now rewrite split_block_unbound.
Qed.

(** ** The loop of [segments] *)

Lemma getitem_last {X : Type} (l : list X) (x : X) :
  getitem (l ++ [x]) (-1) = Ok x.
Proof.
  unfold getitem, llen, norm_index. rewrite length_app. cbn [length].
  change (-1 <? 0) with true. cbn match.
  destruct (Z.leb_spec 0 (-1 + Z.of_nat (length l + 1))) as [_ | C]; [| lia].
  destruct (Z.ltb_spec (-1 + Z.of_nat (length l + 1))
                       (Z.of_nat (length l + 1))) as [_ | C]; [| lia].
  cbn [andb].
  replace (Z.to_nat (-1 + Z.of_nat (length l + 1))) with (length l) by lia.
  rewrite nth_error_app2 by lia. rewrite Nat.sub_diag. reflexivity.
Qed.

Lemma list_set_last {X : Type} (l : list X) (x y : X) :
  list_set (l ++ [x]) (length l) y = l ++ [y].
Proof.
  induction l as [| h l IH]; cbn; [reflexivity | now rewrite IH].
Qed.

Lemma setitem_last {X : Type} (l : list X) (x y : X) :
  setitem (l ++ [x]) (-1) y = Ok (l ++ [y]).
Proof.
  unfold setitem, llen, norm_index. rewrite length_app. cbn [length].
  change (-1 <? 0) with true. cbn match.
  destruct (Z.leb_spec 0 (-1 + Z.of_nat (length l + 1))) as [_ | C]; [| lia].
  destruct (Z.ltb_spec (-1 + Z.of_nat (length l + 1))
                       (Z.of_nat (length l + 1))) as [_ | C]; [| lia].
  cbn [andb].
  replace (Z.to_nat (-1 + Z.of_nat (length l + 1))) with (length l) by lia.
  now rewrite list_set_last.
Qed.

Lemma last_unsorted_snoc (S : list Segment) (x : Segment) :
  last_unsorted (S ++ [x]) <-> tag x = Unsorted.
Proof.
  induction S as [| h S IH]; cbn [app last_unsorted]; [tauto |].
  destruct (S ++ [x]) eqn:E; [| exact IH].
  destruct S; discriminate.
Qed.

Section SegmentsFacts.
Context {A : Type} (lebA : A -> A -> bool) (L : list A).
Hypothesis lebA_total : total lebA.

(** One pass through the loop body keeps the tiling and the bound on the
    Unsorted blocks. *)
Lemma segments_body_spec (S : list Segment) (c : Segment)
      (FS : FuseSegments.t) :
  segments_inv lebA L S (Some c) FS ->
  oversized c = false ->
  exists S',
    segments_body None S c (FuseSegments.finished FS) = Ok (S', None)
    /\ chain 0 S' (end_ c)
    /\ Forall bounded_unsorted S'
    /\ (last_unsorted S' -> tag c = Unsorted).
Proof.
  intros (Hb & Hc & Hne & _ & _ & Hk) Hfits. unfold segments_body.
  destruct ((len c =? 1) && negb (length S =? 0)%nat
            && negb (FuseSegments.finished FS)) eqn:Hfold.
  - apply andb_prop in Hfold. destruct Hfold as (Hfold & _).
    apply andb_prop in Hfold. destruct Hfold as (H1 & HS).
    apply Z.eqb_eq in H1.
    destruct (exists_last (l := S)) as (S0 & x & ->).
    { intros ->. discriminate. }
    assert (Hx : tag x <> Unsorted).
    { intros Hx. apply (proj2 (last_unsorted_snoc S0 x)) in Hx. apply Hk in Hx.
      unfold runThreshold in Hx. lia. }
    unfold bump_last. rewrite getitem_last. cbn [bind].
    rewrite setitem_last. cbn [bind]. eexists. split; [reflexivity |].
    apply chain_app in Hc. destruct Hc as (mid & Hc0 & Hx1).
    cbn [chain] in Hx1. destruct Hx1 as (Hx1 & Hx2 & Hx3).
    split; [| split].
    + apply chain_app. exists mid. split; [exact Hc0 |].
      cbn [chain start end_]. unfold len in H1. conj_split; lia.
    + apply Forall_app in Hb. destruct Hb as (Hb0 & _).
      apply Forall_app. split; [exact Hb0 |]. constructor; [| constructor].
      intros Ht. cbn [tag] in Ht. contradiction.
    + intros Hl. apply last_unsorted_snoc in Hl. cbn [tag] in Hl.
      contradiction.
  - destruct (negb (tag c =? Unsorted) || (len c <=? blockMax)) eqn:Hkeep.
    + eexists. split; [reflexivity |]. split; [| split].
      * apply chain_app. exists (start c). cbn [chain]. auto.
      * apply Forall_app. split; [exact Hb |]. constructor; [| constructor].
        intros Ht. rewrite Ht in Hkeep. cbn in Hkeep.
        now apply Z.leb_le in Hkeep.
      * intros Hl. now apply last_unsorted_snoc in Hl.
    + exfalso. apply orb_false_elim in Hkeep. destruct Hkeep as (Ht & Hbig).
      apply negb_false_iff in Ht. apply Z.leb_gt in Hbig.
      unfold oversized in Hfits. rewrite Ht in Hfits. cbn [andb] in Hfits.
      apply Z.ltb_ge in Hfits. lia.
Qed.

(** The loop against what the fuser still has to emit: it stops with
    UnboundLocalError at the first Unsorted block longer than [blockMax],
    and runs to the end when there is none. *)
Lemma segments_loop_spec (fuel : nat) :
  forall (S : list Segment) (curr : option Segment) (FS : FuseSegments.t)
         (fuelF : nat) (F : list Segment),
    segments_inv lebA L S curr FS ->
    match curr with
    | Some _ => fuser_left FS + 1
    | None => 0
    end < Z.of_nat fuel ->
    FuseSegments.drain lebA (fun x => x) L fuelF FS = Ok F ->
    if existsb oversized match curr with
                         | Some c => c :: F
                         | None => []
                         end
    then segments_loop lebA L fuel None S curr FS = Raise UnboundLocalError
    else exists S', segments_loop lebA L fuel None S curr FS = Ok S'
                    /\ chain 0 S' (llen L)
                    /\ Forall bounded_unsorted S'.
Proof.
  induction fuel as [| fuel IH]; intros S curr FS fuelF F Hinv Hf Hd.
  - exfalso. destruct curr as [c |].
    + destruct Hinv as (_ & _ & _ & ((_ & Hj & _) & _) & _).
      unfold fuser_left in Hf.
      destruct (FuseSegments.next1 FS), (FuseSegments.next2 FS); lia.
    + lia.
  - cbn [segments_loop]. destruct curr as [c |].
    + cbn [existsb]. destruct (oversized c) eqn:Ho; cbn [orb].
      { now rewrite segments_body_raises. }
      destruct (segments_body_spec Hinv Ho) as (S' & R & Hc' & Hb' & Hl').
      rewrite R. cbn [bind].
      destruct Hinv as (_ & _ & _ & Hfinv & Hg & _).
      assert (Hpos : 0 <= fuser_left FS).
      { destruct Hfinv as ((_ & Hj & _) & _). unfold fuser_left.
        destruct (FuseSegments.next1 FS), (FuseSegments.next2 FS); lia. }
      pose proof Hd as Hd0.
      destruct fuelF as [| fuelF]; [discriminate |].
      cbn [FuseSegments.drain] in Hd.
      destruct (FuseSegments.next1 FS) as [a |] eqn:E1.
      * destruct (fuser_next_some lebA_total Hfinv E1)
          as (s & FS' & Rn & Hs & Hne & Hinv' & Hdec & Hkind).
        rewrite Rn in Hd |- *. cbn [bind] in Hd |- *.
        destruct (FuseSegments.drain lebA (fun x => x) L fuelF FS')
          as [F' | e] eqn:Hd'; cbn [bind] in Hd; [| discriminate].
        injection Hd as <-.
        apply (IH S' (Some s) FS' fuelF F'); [| lia | exact Hd'].
        split; [exact Hb' |]. conj_split; trivial.
        -- now rewrite Hs.
        -- lia.
        -- intros Ht. destruct Hkind as [(_ & N) | (_ & _ & Hlong)];
             [contradiction | exact Hlong].
        -- intros Hl. specialize (Hg (Hl' Hl)). cbn [long_or_none] in Hg.
           destruct Hkind as [(-> & _) | (_ & Hshort & _)]; [exact Hg | lia].
      * destruct (fuser_next_none Hfinv E1) as (Rn & Hp).
        rewrite Rn in Hd |- *. cbn [bind] in Hd |- *. injection Hd as <-.
        assert (Hinv0 : segments_inv lebA L S' None FS).
        { split; [exact Hb' |]. now rewrite <- Hp. }
        exact (IH S' None FS _ _ Hinv0 ltac:(lia) Hd0).
    + exists S. destruct Hinv as (Hb & Hc). auto.
Qed.

(** [segments(L)] raises UnboundLocalError exactly when the fuser emits an
    Unsorted block longer than [blockMax]; otherwise it returns, and what
    it returns tiles the list. *)
Lemma segments_outcome :
  2 <= llen L ->
  exists F,
    FuseSegments.fused lebA (fun x => x) L = Ok F
    /\ chain 0 F (llen L)
    /\ long_after_unsorted F
    /\ if existsb oversized F
       then segments lebA L = Raise UnboundLocalError
       else exists S, segments lebA L = Ok S
                      /\ chain 0 S (llen L)
                      /\ Forall bounded_unsorted S.
Proof.
  intros Hn.
  destruct (@fuser_fused_spec _ _ lebA (fun x => x) L lebA_total Hn)
    as (F & RF & HcF & Hadj).
  exists F. split; [exact RF |]. split; [exact HcF |]. split; [exact Hadj |].
  unfold FuseSegments.fused in RF. unfold segments.
  destruct (@scanner_init_spec _ _ lebA (fun x => x) L lebA_total Hn)
    as (idr & R & Hinv & Hj & Hm).
  rewrite R in RF |- *. cbn [bind] in RF |- *.
  destruct (fuser_init_spec lebA_total Hinv Hj Hn)
    as (fs & a & Rf & Hfinv & E1 & Hleft).
  rewrite Rf in RF |- *. cbn [bind] in RF |- *.
  destruct (fuser_next_some lebA_total Hfinv E1)
    as (s & FS' & Rn & Hs & Hne & Hinv' & Hdec & Hkind).
  remember (S (length L)) as fuelF eqn:EF.
  cbn [FuseSegments.drain] in RF.
  rewrite Rn in RF |- *. cbn [bind] in RF |- *.
  destruct (FuseSegments.drain lebA (fun x => x) L fuelF FS')
    as [F' | e] eqn:Hd; cbn [bind] in RF; [| discriminate].
  injection RF as <-.
  apply (@segments_loop_spec (S fuelF) [] (Some s) FS' fuelF F');
    [| | exact Hd].
  - split; [constructor |]. conj_split; trivial.
    + cbn [chain]. now rewrite Hs.
    + lia.
    + intros Ht. destruct Hkind as [(_ & N) | (_ & _ & Hlong)];
        [contradiction | exact Hlong].
    + intros [].
  - unfold llen in Hleft. lia.
Qed.

End SegmentsFacts.

(** ** A sorted list under the default key

    With the identity key the scanner, the normalizer and the merge engine
    agree on the order: a list that is already sorted is one Increasing
    run, nothing is moved and no merge round runs. *)

Section SortedInput.
Context {A : Type} (lebA : A -> A -> bool) (L : list A).
Hypothesis long : 2 <= llen L.
Hypothesis sorted :
  monotoneb lebA (fun x => x) L Inc 0 (llen L) = true.

Lemma sorted_steps (p : Z) :
  0 <= p < llen L - 1 -> step_okb lebA (fun x => x) L Inc p = true.
Proof.
  intros Hp. unfold monotoneb in sorted.
  rewrite forallb_range2 in sorted. apply sorted. lia.
Qed.

Lemma sorted_scanner_init :
  IncDecRuns.init lebA (fun x => x) L
  = Ok (IncDecRuns.mk (llen L - 1) Inc 0 0).
Proof.
  pose proof (@sorted_steps 0 ltac:(lia)) as H0.
  unfold step_okb in H0. unfold IncDecRuns.init.
  change (0 + 1) with 1 in H0.
  destruct (getitem L 0) as [x0 | e0]; [| discriminate].
  destruct (getitem L 1) as [x1 | e1]; [| discriminate].
  cbn [bind]. unfold geb. cbn in H0. rewrite orb_false_r in H0.
  now rewrite H0.
Qed.

Lemma sorted_scanner_next :
  IncDecRuns.next lebA (fun x => x) L (IncDecRuns.mk (llen L - 1) Inc 0 0)
  = Ok (Some (mkSegment 0 (llen L - 1 + 1) Inc),
        IncDecRuns.mk (llen L - 1) Inc 0 (llen L - 1)).
Proof.
  unfold IncDecRuns.next. cbn [IncDecRuns.j IncDecRuns.m IncDecRuns.dir].
  destruct (Z.eqb_spec 0 (llen L - 1)) as [E | _]; [lia |].
  destruct (@scan_spec _ _ lebA (fun x => x) L Inc (llen L - 1)
              (or_introl eq_refl) eq_refl
              (S (Z.to_nat (llen L - 1 - 0))) 0)
    as (j1 & R & B & _ & Q); [lia | lia |].
  rewrite R. cbn [bind].
  assert (E : j1 = llen L - 1).
  { destruct (Z.eq_dec j1 (llen L - 1)) as [E | N]; [exact E |].
    rewrite sorted_steps in Q by lia. specialize (Q ltac:(lia)).
    discriminate. }
  subst j1. rewrite Z.eqb_refl. reflexivity.
Qed.

Lemma sorted_segments :
  segments lebA L = Ok [mkSegment 0 (llen L - 1 + 1) Inc].
Proof.
  unfold segments. rewrite sorted_scanner_init. cbn [bind].
  unfold FuseSegments.init. rewrite sorted_scanner_next. cbn [bind].
  rewrite scanner_next_none by reflexivity. cbn [bind].
  cbn [FuseSegments.next FuseSegments.next1 FuseSegments.next2
       FuseSegments.IDR bind segments_loop].
  unfold segments_body, len. cbn [start end_ tag length].
  destruct (Z.eqb_spec (llen L - 1 + 1 - 0) 1) as [E | _]; [lia |].
  reflexivity.
Qed.

End SortedInput.

(** C9 restricted to the default key: a sorted list, of any length, comes
    back as it was. *)
Lemma sorted_default_unchanged {A : Type} (lebA : A -> A -> bool)
      (L : list A) :
  monotoneb lebA (fun x => x) L Inc 0 (llen L) = true ->
  SimpleTimSort lebA lebA (fun x => x) L = Ok (map Some L).
Proof.
  intros Hs. unfold SimpleTimSort.
  destruct (Z.leb_spec (llen L) 1) as [_ | Hn]; [reflexivity |].
  rewrite sorted_segments by (trivial; lia). reflexivity.
Qed.

(** * The stages and the driver, property by property *)

Lemma Zleb_total : total Z.leb.
Proof.
  intros a b. destruct (Z.leb_spec a b) as [H | H]; [now left |].
  right. apply Z.leb_le. lia.
Qed.

(** ** Segmentation *)



(** C7, as stated, fails on [1, 2, 1]: the scanner emits [0, 1) tagged
    Increasing and [1, 3) tagged Decreasing, and the first segment can take
    the element at index 1 and still be non-decreasing. On [1, 1, 0] the
    segments are the same, and here the second one can also take the
    element at index 0, on its left, and still be non-increasing. *)
Lemma runs_not_maximal :
  ~ partitions_into_maximal_runs Z.leb (fun x => x) [1; 2; 1]
  /\ IncDecRuns.runs Z.leb (fun x => x) [1; 2; 1]
     = Ok [mkSegment 0 1 Inc; mkSegment 1 3 Dec]
  /\ extends_right Z.leb (fun x => x) [1; 2; 1] (mkSegment 0 1 Inc) = true
  /\ IncDecRuns.runs Z.leb (fun x => x) [1; 1; 0]
     = Ok [mkSegment 0 1 Inc; mkSegment 1 3 Dec]
  /\ extends_left Z.leb (fun x => x) [1; 1; 0] (mkSegment 1 3 Dec) = true.
Proof.
  split; [| repeat split; vm_compute; reflexivity].
  intros (R & E & _ & H). vm_compute in E. injection E as <-.
  vm_compute in H. discriminate.
Qed.

(** C7, amended. For every list of length n >= 2 the segments emitted by
    [IncDecRuns] until [None] partition [0, n); each is tagged Increasing or
    Decreasing and is monotone in that direction over its index range; and
    each segment [s, e) but the last stops one element short of its run:
    [s, e + 1) is still monotone in the tagged direction, while the pair
    (e, e + 1) is not. *)
Theorem runs_partition_monotone {A K : Type} (leb : K -> K -> bool)
        (key : A -> K) (L : list A) :
  total leb -> 2 <= llen L ->
  exists R, IncDecRuns.runs leb key L = Ok R
            /\ tiles (llen L) R
            /\ forallb (scanned_run leb key L) R = true.
Proof.
  intros HK Hn.
  destruct (@scanner_runs_spec _ _ leb key L HK Hn) as (R & E & Hc & Hall).
  exists R. split; [exact E |]. split; [now apply chain_tiles | exact Hall].
Qed.

Lemma runs_partition_monotone_121 :
  exists R, IncDecRuns.runs Z.leb (fun x => x) [1; 2; 1] = Ok R
            /\ tiles (llen [1; 2; 1]) R
            /\ forallb (scanned_run Z.leb (fun x => x) [1; 2; 1]) R = true.
Proof.
  apply (@runs_partition_monotone Z Z Z.leb (fun x => x) [1; 2; 1]
           Zleb_total).
  unfold llen. simpl. lia.
Defined.

(** C8, on seventy zigzagging elements. The fuser hands [segments] one
    Unsorted block [0, 70), which the specification has split into
    [0, 35) and [35, 70). Line 100 reads [k] on its right-hand side before
    anything has bound it: [segments] raises UnboundLocalError, and so
    does the sort. *)
Theorem oversized_block_not_split :
  FuseSegments.fused Z.leb (fun x => x) zigzag70
  = Ok [mkSegment 0 70 Unsorted]
  /\ sub_blocks (mkSegment 0 70 Unsorted)
     = [mkSegment 0 35 Unsorted; mkSegment 35 70 Unsorted]
  /\ segments Z.leb zigzag70 = Raise UnboundLocalError
  /\ SimpleTimSort_default zigzag70 = Raise UnboundLocalError.
Proof. repeat split; vm_compute; reflexivity. Qed.

(** C10. For every list of length n >= 2, every Unsorted segment in the
    list that [segments] returns has length at most blockMax: in the
    fuser's output a segment that follows an Unsorted block has length at
    least runThreshold, so it is never the length-1 segment that the
    fold-up adds to its predecessor, and an Unsorted block that the fuser
    emits longer than blockMax never reaches the list, because [segments]
    then raises UnboundLocalError instead of returning. *)
Theorem unsorted_blocks_bounded {A : Type} (lebA : A -> A -> bool)
        (L : list A) :
  total lebA -> 2 <= llen L ->
  exists F,
    FuseSegments.fused lebA (fun x => x) L = Ok F
    /\ long_after_unsorted F
    /\ if existsb oversized F
       then segments lebA L = Raise UnboundLocalError
       else exists S,
           segments lebA L = Ok S
           /\ Forall (fun s => tag s = Unsorted -> len s <= blockMax) S.
Proof.
  intros HA Hn.
  destruct (@segments_outcome _ lebA L HA Hn) as (F & E & _ & Hadj & H).
  exists F. split; [exact E |]. split; [exact Hadj |].
  destruct (existsb oversized F); [exact H |].
  destruct H as (S & R & _ & Hb). exists S. split; [exact R | exact Hb].
Qed.

Lemma unsorted_blocks_bounded_l1 :
  exists F,
    FuseSegments.fused Z.leb (fun x => x) l1 = Ok F
    /\ long_after_unsorted F
    /\ if existsb oversized F
       then segments Z.leb l1 = Raise UnboundLocalError
       else exists S,
           segments Z.leb l1 = Ok S
           /\ Forall (fun s => tag s = Unsorted -> len s <= blockMax) S.
Proof.
  apply (@unsorted_blocks_bounded Z Z.leb l1 Zleb_total).
  vm_compute. discriminate.
Defined.

(** ** The driver on concrete inputs *)

(** C1. [SimpleTimSort([1, 2], key=lambda x: -x)] returns [1, 2], whose
    keys -1, -2 are not ascending: [segments] scans with the identity key
    and tags the list Increasing, so nothing is moved. Under the default
    key, [l66] comes back with empty cells in it, and is not sorted
    either. *)
Theorem sort_result_not_sorted :
  SimpleTimSort Z.leb Z.leb Z.opp [1; 2] = Ok [Some 1; Some 2]
  /\ sorted_cells Z.leb Z.opp [Some 1; Some 2] = false
  /\ SimpleTimSort_default l66 = Ok r66
  /\ sorted_cells Z.leb (fun x => x) r66 = false.
Proof. repeat split; vm_compute; reflexivity. Qed.

(** C2. [SimpleTimSort(l66)] returns a list of the input's length that
    holds empty cells: it is no permutation of the input. *)
Theorem sort_result_not_permutation :
  SimpleTimSort_default l66 = Ok r66
  /\ length r66 = length l66
  /\ In None r66
  /\ ~ Permutation (map Some l66) r66.
Proof.
  split; [vm_compute; reflexivity |]. split; [reflexivity |].
  assert (Hin : In None r66).
  { unfold r66. apply in_or_app. right. cbn. now left. }
  split; [exact Hin |].
  intros HP. apply Permutation_sym in HP.
  apply (Permutation_in _ HP) in Hin.
  apply in_map_iff in Hin. destruct Hin as (x & Hx & _). discriminate.
Qed.

(** C3. The first merge round of [SimpleTimSort(l35)]: the pair is merged
    into the buffer from position 0 and fills 33 cells; the unpaired third
    segment is then copied from position 1, the number of segments merged
    so far, and not from position 33. The copy overwrites two cells of the
    merge and the last two cells of the buffer stay empty. *)
Theorem merge_round_writes_overlap :
  segments Z.leb l35 = Ok segs35
  /\ processSegments Z.leb (fun x => x) l35 segs35 = Ok p35
  /\ exists mergedSegs M',
      mergeRound_log Z.leb (fun x => x) (map Some p35) segs35
                     (repeat None 35)
      = Ok (mergedSegs, M', [(0, 33); (1, 2)])
      /\ tiled_from 0 [(0, 33); (1, 2)] = false
      /\ getitem M' 1 = Ok (Some 1)
      /\ getitem M' 33 = Ok None
      /\ getitem M' 34 = Ok None.
Proof.
  split; [vm_compute; reflexivity |]. split; [vm_compute; reflexivity |].
  eexists _, _. split; [vm_compute; reflexivity |].
  repeat split; vm_compute; reflexivity.
Qed.

(** C4. [SimpleTimSort(l35)] raises TypeError: the second merge round
    compares the element at index 0 with the cell at index 33, which the
    first round left empty. *)
Theorem sort_raises_on_empty_cell :
  SimpleTimSort_default l35 = Raise TypeError.
Proof. vm_compute. reflexivity. Qed.

(** C6. After [processSegments([1, 2], segments([1, 2]), key)] with
    [key = lambda x: -x] the only segment, [0, 2), is not ascending under
    the key: it was scanned with the identity key, tagged Increasing and
    left as it was. *)
Theorem processed_segment_not_sorted :
  segments Z.leb [1; 2] = Ok [mkSegment 0 2 Inc]
  /\ processSegments Z.leb Z.opp [1; 2] [mkSegment 0 2 Inc] = Ok [1; 2]
  /\ monotoneb Z.leb Z.opp [1; 2] Inc 0 2 = false.
Proof. repeat split; vm_compute; reflexivity. Qed.

(** C9. [[2, 1]] is sorted under [key = lambda x: -x], and
    [SimpleTimSort([2, 1], key)] returns [1, 2]: the scanner, run with the
    identity key, tags the list Decreasing and the normalizer reverses
    it. *)
Theorem sorted_input_changed :
  sorted_cells Z.leb Z.opp (map Some [2; 1]) = true
  /\ SimpleTimSort Z.leb Z.leb Z.opp [2; 1] = Ok [Some 1; Some 2]
  /\ [Some 1; Some 2] <> map Some [2; 1].
Proof.
  split; [vm_compute; reflexivity |]. split; [vm_compute; reflexivity |].
  intros H. discriminate H.
Qed.

(** * Further properties of the normalizer, the merge engine and the driver *)

(** ** Reading and writing in the middle of a list *)

Lemma llen_app {X : Type} (l1 l2 : list X) : llen (l1 ++ l2) = llen l1 + llen l2.
Proof. unfold llen. rewrite length_app. lia. Qed.

Lemma llen_nonneg {X : Type} (l : list X) : 0 <= llen l.
Proof. unfold llen. lia. Qed.

Lemma getitem_nth_error {X : Type} (l : list X) (i : Z) :
  0 <= i < llen l ->
  forall x, getitem l i = Ok x <-> nth_error l (Z.to_nat i) = Some x.
Proof.
  intros H x. unfold getitem. rewrite norm_index_nonneg by exact H.
  destruct (nth_error l (Z.to_nat i)) as [y |] eqn:E.
  - split; intros [= ->]; reflexivity.
  - apply nth_error_None in E. unfold llen in H. lia.
Qed.

Lemma getitem_app_mid {X : Type} (l1 l2 : list X) (x : X) (i : Z) :
  i = llen l1 -> getitem (l1 ++ x :: l2) i = Ok x.
Proof.
  intros ->. apply getitem_nth_error.
  - rewrite llen_app. unfold llen. cbn [length]. lia.
  - unfold llen. rewrite Nat2Z.id. rewrite nth_error_app2 by lia.
    now rewrite Nat.sub_diag.
Qed.

Lemma list_set_app_mid {X : Type} (l1 l2 : list X) (x y : X) :
  list_set (l1 ++ x :: l2) (length l1) y = l1 ++ y :: l2.
Proof.
  induction l1 as [| h l1 IH]; cbn; [reflexivity | now rewrite IH].
Qed.

Lemma setitem_app_mid {X : Type} (l1 l2 : list X) (x y : X) (i : Z) :
  i = llen l1 -> setitem (l1 ++ x :: l2) i y = Ok (l1 ++ y :: l2).
Proof.
  intros ->. unfold setitem. rewrite norm_index_nonneg.
  - unfold llen. rewrite Nat2Z.id. now rewrite list_set_app_mid.
  - rewrite llen_app. unfold llen. cbn [length]. lia.
Qed.

Lemma getitem_out_of_range {X : Type} (l : list X) (i : Z) :
  llen l <= i -> getitem l i = Raise IndexError.
Proof.
  intros H. unfold getitem, norm_index.
  pose proof (llen_nonneg l).
  destruct (Z.ltb_spec i 0) as [C | _]; [lia |].
  destruct (Z.leb_spec 0 i) as [_ | C]; [| lia].
  destruct (Z.ltb_spec i (llen l)) as [C | _]; [lia |]. reflexivity.
Qed.

Lemma exists_last_or_nil {X : Type} (l : list X) :
  l = [] \/ exists l' x, l = l' ++ [x].
Proof.
  destruct l as [| h t]; [now left |]. right.
  destruct (@exists_last _ (h :: t)) as (l' & x & E); [discriminate |].
  now exists l', x.
Qed.

(** ** Slices *)

Lemma slice_length {X : Type} (l : list X) (a b : Z) :
  0 <= a <= b -> b <= llen l -> llen (slice l a b) = b - a.
Proof.
  intros H1 H2. unfold slice, llen in *.
  rewrite length_firstn, length_skipn. lia.
Qed.

Lemma slice_split {X : Type} (l : list X) (a b : Z) :
  0 <= a <= b -> b <= llen l ->
  l = firstn (Z.to_nat a) l ++ slice l a b ++ skipn (Z.to_nat b) l.
Proof.
  intros H1 H2. unfold slice.
  rewrite <- (firstn_skipn (Z.to_nat a) l) at 1. f_equal.
  rewrite <- (firstn_skipn (Z.to_nat (b - a)) (skipn (Z.to_nat a) l)) at 1.
  f_equal. rewrite skipn_skipn. f_equal. lia.
Qed.

Lemma slice_nth_error {X : Type} (l : list X) (a b : Z) (k : nat) :
  0 <= a <= b -> (k < Z.to_nat (b - a))%nat ->
  nth_error (slice l a b) k = nth_error l (Z.to_nat a + k).
Proof.
  intros H1 Hk. unfold slice.
  rewrite nth_error_firstn.
  destruct (Nat.ltb_spec k (Z.to_nat (b - a))) as [_ | C]; [| lia].
  now rewrite nth_error_skipn.
Qed.

Lemma firstn_llen_app {X : Type} (l1 l2 : list X) (a : Z) :
  a = llen l1 -> firstn (Z.to_nat a) (l1 ++ l2) = l1.
Proof.
  intros ->. unfold llen. rewrite Nat2Z.id.
  rewrite firstn_app, Nat.sub_diag, firstn_all. cbn. apply app_nil_r.
Qed.

Lemma skipn_llen_app {X : Type} (l1 l2 : list X) (a : Z) :
  a = llen l1 -> skipn (Z.to_nat a) (l1 ++ l2) = l2.
Proof.
  intros ->. unfold llen. rewrite Nat2Z.id.
  rewrite skipn_app, Nat.sub_diag, skipn_all. reflexivity.
Qed.

Lemma slice_app_mid {X : Type} (l1 l2 l3 : list X) (a b : Z) :
  a = llen l1 -> b = llen l1 + llen l2 ->
  slice (l1 ++ l2 ++ l3) a b = l2.
Proof.
  intros -> ->. unfold slice. rewrite skipn_llen_app by reflexivity.
  replace (llen l1 + llen l2 - llen l1) with (llen l2) by lia.
  now apply firstn_llen_app.
Qed.

(** ** Sorted lists *)

Section SortedFacts.
Context {A K : Type} (leb : K -> K -> bool) (key : A -> K).

Lemma sortedb_cons (a : A) (l : list A) :
  sortedb leb key (a :: l) = true -> sortedb leb key l = true.
Proof.
  cbn [sortedb]. destruct l as [| b l]; [reflexivity |].
  now intros H%andb_prop.
Qed.

Lemma sortedb_app_r (l1 l2 : list A) :
  sortedb leb key (l1 ++ l2) = true -> sortedb leb key l2 = true.
Proof.
  induction l1 as [| a l1 IH]; [trivial |].
  intros H. apply IH. now apply sortedb_cons in H.
Qed.

Lemma sortedb_app_l (l1 l2 : list A) :
  sortedb leb key (l1 ++ l2) = true -> sortedb leb key l1 = true.
Proof.
  induction l1 as [| a l1 IH]; [reflexivity |].
  cbn [app sortedb]. destruct l1 as [| b l1]; [reflexivity |].
  cbn [app]. intros H%andb_prop. destruct H as (H1 & H2).
  rewrite H1. cbn [andb]. apply IH. exact H2.
Qed.

(** Joining two sorted lists whose ends are in order. *)
Lemma sortedb_join (l1 l2 : list A) (x y : A) :
  sortedb leb key (l1 ++ [x]) = true ->
  leb (key x) (key y) = true ->
  sortedb leb key (y :: l2) = true ->
  sortedb leb key (l1 ++ x :: y :: l2) = true.
Proof.
  intros H1 Hxy H2. induction l1 as [| a l1 IH].
  - cbn [app]. change (sortedb leb key (x :: y :: l2))
      with (leb (key x) (key y) && sortedb leb key (y :: l2)).
    now rewrite Hxy, H2.
  - cbn [app] in *. destruct l1 as [| b l1].
    + cbn [app] in *. cbn [sortedb] in H1. apply andb_prop in H1.
      destruct H1 as (Hab & _).
      change (sortedb leb key (a :: x :: y :: l2))
        with (leb (key a) (key x) && sortedb leb key (x :: y :: l2)).
      rewrite Hab. cbn [andb]. apply IH. reflexivity.
    + cbn [app] in *.
      change (sortedb leb key (a :: b :: (l1 ++ [x])))
        with (leb (key a) (key b) && sortedb leb key (b :: (l1 ++ [x]))) in H1.
      apply andb_prop in H1. destruct H1 as (Hab & Hrest).
      change (sortedb leb key (a :: b :: (l1 ++ x :: y :: l2)))
        with (leb (key a) (key b)
              && sortedb leb key (b :: (l1 ++ x :: y :: l2))).
      rewrite Hab. cbn [andb]. apply IH. exact Hrest.
Qed.

Lemma sortedb_nth (l : list A) :
  sortedb leb key l = true <->
  (forall k a b, nth_error l k = Some a -> nth_error l (S k) = Some b ->
                 leb (key a) (key b) = true).
Proof.
  induction l as [| x l IH].
  - split; [| reflexivity]. intros _ k a b H. destruct k; discriminate.
  - destruct l as [| y l].
    + split; [| reflexivity]. intros _ k a b _ H. destruct k; discriminate.
    + change (sortedb leb key (x :: y :: l))
        with (leb (key x) (key y) && sortedb leb key (y :: l)).
      rewrite andb_true_iff, IH. split.
      * intros (Hxy & Hrest) [| k] a b Ha Hb.
        -- cbn in Ha, Hb. now injection Ha as <-; injection Hb as <-.
        -- apply (Hrest k); assumption.
      * intros H. split.
        -- apply (H 0%nat); reflexivity.
        -- intros k a b Ha Hb. apply (H (S k)); assumption.
Qed.

End SortedFacts.

Lemma sortedb_rev {A K : Type} (leb : K -> K -> bool) (key : A -> K)
      (l : list A) :
  sortedb (fun a b => leb b a) key l = true ->
  sortedb leb key (rev l) = true.
Proof.
  induction l as [| x l IH]; [reflexivity |].
  intros H. cbn [rev]. pose proof (sortedb_cons _ _ _ _ H) as Hl.
  specialize (IH Hl). destruct l as [| y l]; [reflexivity |].
  change (sortedb (fun a b => leb b a) key (x :: y :: l))
    with (leb (key y) (key x)
          && sortedb (fun a b => leb b a) key (y :: l)) in H.
  apply andb_prop in H. destruct H as (Hyx & _).
  cbn [rev] in *. rewrite <- app_assoc. cbn [app].
  apply sortedb_join; trivial.
Qed.

(** ** Monotone index ranges and sorted slices *)

Section MonotoneSlices.
Context {A K : Type} (leb : K -> K -> bool) (key : A -> K) (L : list A).

Lemma step_okb_nth (d p : Z) (a b : A) :
  0 <= p -> p + 1 < llen L ->
  nth_error L (Z.to_nat p) = Some a ->
  nth_error L (S (Z.to_nat p)) = Some b ->
  step_okb leb key L d p
  = ((d =? Inc) && leb (key a) (key b)) || ((d =? Dec) && leb (key b) (key a)).
Proof.
  intros H0 H1 Ha Hb. unfold step_okb.
  rewrite (proj2 (@getitem_nth_error _ L p ltac:(lia) a) Ha).
  replace (S (Z.to_nat p)) with (Z.to_nat (p + 1)) in Hb by lia.
  rewrite (proj2 (@getitem_nth_error _ L (p + 1) ltac:(lia) b) Hb).
  reflexivity.
Qed.

Lemma nth_error_in_range (k : nat) :
  (k < length L)%nat -> exists a, nth_error L k = Some a.
Proof.
  intros H. destruct (nth_error L k) as [a |] eqn:E; [now exists a |].
  apply nth_error_None in E. lia.
Qed.

Lemma monotoneb_slice (d lo hi : Z) :
  d = Inc \/ d = Dec -> 0 <= lo <= hi -> hi <= llen L ->
  monotoneb leb key L d lo hi = true <->
  sortedb (if d =? Inc then leb else fun a b => leb b a) key (slice L lo hi)
  = true.
Proof.
  intros Hd Hlo Hhi. unfold monotoneb. rewrite forallb_range2, sortedb_nth.
  assert (Hlen : length (slice L lo hi) = Z.to_nat (hi - lo)).
  { pose proof (slice_length L Hlo Hhi) as E. unfold llen in E. lia. }
  split.
  - intros H k a b Ha Hb.
    assert (Hk : (S k < Z.to_nat (hi - lo))%nat).
    { rewrite <- Hlen. apply nth_error_Some. congruence. }
    rewrite slice_nth_error in Ha, Hb by lia.
    specialize (H (lo + Z.of_nat k) ltac:(lia)).
    rewrite (@step_okb_nth d (lo + Z.of_nat k) a b) in H; try lia.
    + destruct Hd as [-> | ->]; cbn in H |- *.
      * now rewrite orb_false_r in H.
      * exact H.
    + rewrite <- Ha. f_equal. lia.
    + rewrite <- Hb. f_equal. lia.
  - intros H p Hp. unfold llen in Hhi.
    destruct (@nth_error_in_range (Z.to_nat p) ltac:(lia)) as (a & Ha).
    destruct (@nth_error_in_range (S (Z.to_nat p)) ltac:(lia)) as (b & Hb).
    rewrite (@step_okb_nth d p a b); trivial; try (unfold llen; lia).
    specialize (H (Z.to_nat (p - lo)) a b).
    rewrite !slice_nth_error in H by lia.
    replace (Z.to_nat lo + Z.to_nat (p - lo))%nat with (Z.to_nat p) in H by lia.
    replace (Z.to_nat lo + S (Z.to_nat (p - lo)))%nat
      with (S (Z.to_nat p)) in H by lia.
    specialize (H Ha Hb).
    destruct Hd as [-> | ->]; cbn in H |- *.
    + now rewrite orb_false_r.
    + exact H.
Qed.

End MonotoneSlices.

(** ** reverse *)

Section ReverseFacts.
Context {A : Type}.

Lemma norm_bound_le (n b : Z) : 0 <= n -> (norm_bound n b <= Z.to_nat n)%nat.
Proof.
  intros Hn. unfold norm_bound. destruct (Z.ltb_spec b 0); lia.
Qed.

(** The three parts [reverse] works on. *)
Lemma reverse_parts (L : list A) (st e : Z) :
  exists P Mid R,
    L = P ++ Mid ++ R
    /\ reverse L st e = P ++ rev Mid ++ R
    /\ length P = norm_bound (llen L) st
    /\ length (P ++ Mid)
       = Nat.max (norm_bound (llen L) st) (norm_bound (llen L) e).
Proof.
  unfold reverse.
  set (a := norm_bound (llen L) st).
  set (b := Nat.max a (norm_bound (llen L) e)).
  assert (Ha : (a <= length L)%nat).
  { pose proof (@norm_bound_le (llen L) st (llen_nonneg L)).
    unfold llen in *. subst a. lia. }
  assert (Hb : (b <= length L)%nat).
  { pose proof (@norm_bound_le (llen L) e (llen_nonneg L)).
    unfold llen in *. subst b. lia. }
  exists (firstn a L), (skipn a (firstn b L)), (skipn b L).
  split; [| split; [reflexivity | split]].
  - rewrite app_assoc.
    rewrite <- (firstn_skipn b L) at 1. f_equal.
    rewrite <- (firstn_skipn a (firstn b L)) at 1. f_equal.
    rewrite firstn_firstn. f_equal. subst b. lia.
  - rewrite length_firstn. lia.
  - rewrite length_app, length_firstn, length_skipn, length_firstn.
    subst b. lia.
Qed.

Lemma reverse_of_parts (P Mid R : list A) (st e : Z) :
  length P = norm_bound (llen (P ++ Mid ++ R)) st ->
  length (P ++ Mid)
  = Nat.max (norm_bound (llen (P ++ Mid ++ R)) st)
            (norm_bound (llen (P ++ Mid ++ R)) e) ->
  reverse (P ++ Mid ++ R) st e = P ++ rev Mid ++ R.
Proof.
  intros HP HM. unfold reverse. rewrite <- HM, <- HP.
  rewrite firstn_app, Nat.sub_diag, firstn_all. cbn [firstn].
  rewrite app_nil_r. f_equal.
  rewrite app_assoc.
  rewrite (firstn_app (length (P ++ Mid))), Nat.sub_diag, firstn_all.
  cbn [firstn]. rewrite app_nil_r.
  rewrite skipn_app, Nat.sub_diag, skipn_all. cbn [skipn app].
  f_equal. rewrite (skipn_app (length (P ++ Mid))), Nat.sub_diag, skipn_all.
  reflexivity.
Qed.

Lemma reverse_in_range (L : list A) (st e : Z) :
  0 <= st <= e -> e <= llen L ->
  reverse L st e
  = firstn (Z.to_nat st) L ++ rev (slice L st e) ++ skipn (Z.to_nat e) L.
Proof.
  intros H1 H2. unfold reverse, norm_bound, slice.
  destruct (Z.ltb_spec st 0) as [C | _]; [lia |].
  destruct (Z.ltb_spec e 0) as [C | _]; [lia |].
  rewrite !Z.min_l by lia.
  replace (Nat.max (Z.to_nat st) (Z.to_nat e)) with (Z.to_nat e) by lia.
  do 3 f_equal. rewrite firstn_skipn_comm. do 2 f_equal. lia.
Qed.

Lemma reverse_permutation (L : list A) (st e : Z) :
  Permutation L (reverse L st e).
Proof.
  destruct (reverse_parts L st e) as (P & Mid & R & HL & HR & _).
  rewrite HR. rewrite HL at 1.
  apply Permutation_app_head, Permutation_app_tail, Permutation_rev.
Qed.

End ReverseFacts.

Lemma reverse_decreasing_range {A K : Type} (leb : K -> K -> bool)
        (key : A -> K) (L : list A) (st e : Z) :
  0 <= st <= e -> e <= llen L ->
  monotoneb leb key L Dec st e = true ->
  monotoneb leb key (reverse L st e) Inc st e = true
  /\ firstn (Z.to_nat st) (reverse L st e) = firstn (Z.to_nat st) L
  /\ skipn (Z.to_nat e) (reverse L st e) = skipn (Z.to_nat e) L.
Proof.
  intros H1 H2 Hm.
  apply monotoneb_slice in Hm; [| now right | exact H1 | exact H2].
  change (Dec =? Inc) with false in Hm. cbn match in Hm.
  pose proof (slice_length L H1 H2) as Hsl.
  assert (HP : llen (firstn (Z.to_nat st) L) = st).
  { unfold llen in *. rewrite length_firstn. lia. }
  rewrite reverse_in_range by assumption.
  split; [| split].
  - apply monotoneb_slice; [now left | exact H1 | |].
    + rewrite !llen_app. unfold llen at 2. rewrite length_rev.
      fold (llen (slice L st e)). unfold llen at 3. rewrite length_skipn.
      unfold llen in *. lia.
    + change (Inc =? Inc) with true. cbn match.
      rewrite slice_app_mid.
      * now apply sortedb_rev.
      * now rewrite HP.
      * rewrite HP. unfold llen at 1. rewrite length_rev.
        fold (llen (slice L st e)). lia.
  - now apply firstn_llen_app.
  - rewrite app_assoc. apply skipn_llen_app.
    rewrite llen_app, HP. unfold llen at 1. rewrite length_rev.
    fold (llen (slice L st e)). lia.
Qed.

(** ** insertSort *)

Section InsertSortFacts.
Context {A K : Type} (leb : K -> K -> bool) (key : A -> K).
Hypothesis leb_total : total leb.

(** The inner loop moves the elements greater than [item] one place to
    the right. [Al] is the part of the sorted prefix still to look at, [h]
    the cell about to be overwritten, [B] the elements already moved. *)
Lemma shift_spec (P T : list A) (item : A) (st : Z) :
  st = llen P ->
  forall (fuel : nat) (Al B : list A) (h : A),
    (length Al < fuel)%nat ->
    (B = [] \/ exists b B', B = b :: B'
                            /\ gtb leb (key b) (key item) = true) ->
    exists A1 B1 h',
      shift leb key fuel (P ++ Al ++ h :: B ++ T) st (st + llen Al - 1) item
      = Ok (P ++ A1 ++ h' :: B1 ++ T, st + llen A1 - 1)
      /\ Al ++ B = A1 ++ B1
      /\ (A1 = [] \/ exists A2 x, A1 = A2 ++ [x]
                                  /\ leb (key x) (key item) = true)
      /\ (B1 = [] \/ exists b B', B1 = b :: B'
                                  /\ gtb leb (key b) (key item) = true).
Proof.
  intros Hst. induction fuel as [| fuel IH]; intros Al B h Hf HB; [lia |].
  cbn [shift].
  destruct (exists_last_or_nil Al) as [-> | (A' & x & ->)].
  - cbn [app]. change (llen []) with 0.
    destruct (Z.leb_spec st (st + 0 - 1)) as [C | _]; [lia |].
    exists [], B, h. cbn [app]. change (llen []) with 0. auto.
  - rewrite llen_app. change (llen [x]) with 1.
    pose proof (llen_nonneg A').
    destruct (Z.leb_spec st (st + (llen A' + 1) - 1)) as [_ | C]; [| lia].
    assert (Hread : getitem (P ++ (A' ++ [x]) ++ h :: B ++ T)
                            (st + (llen A' + 1) - 1) = Ok x).
    { rewrite <- app_assoc, app_assoc. cbn [app].
      apply getitem_app_mid. rewrite llen_app. lia. }
    rewrite Hread. cbn [bind].
    destruct (gtb leb (key x) (key item)) eqn:G.
    + cbn [bind].
      assert (Hwrite : setitem (P ++ (A' ++ [x]) ++ h :: B ++ T)
                               (st + (llen A' + 1) - 1 + 1) x
                       = Ok (P ++ A' ++ x :: (x :: B) ++ T)).
      { rewrite (app_assoc P). rewrite setitem_app_mid.
        - now rewrite <- !app_assoc.
        - rewrite !llen_app. change (llen [x]) with 1. lia. }
      rewrite Hwrite. cbn [bind].
      replace (st + (llen A' + 1) - 1 - 1) with (st + llen A' - 1) by lia.
      destruct (IH A' (x :: B) x) as (A1 & B1 & h' & R & E & HA1 & HB1).
      { rewrite length_app in Hf. cbn [length] in Hf. lia. }
      { right. now exists x, B. }
      exists A1, B1, h'. split; [exact R |]. split; [| auto].
      rewrite <- E, <- app_assoc. reflexivity.
    + exists (A' ++ [x]), B, h. rewrite llen_app. change (llen [x]) with 1.
      split; [reflexivity |]. split; [reflexivity |]. split; [| exact HB].
      right. exists A', x. split; [reflexivity |].
      unfold gtb in G. now apply negb_false_iff in G.
Qed.

Lemma sortedb_insert (A1 B1 : list A) (item : A) :
  sortedb leb key (A1 ++ B1) = true ->
  (A1 = [] \/ exists A2 x, A1 = A2 ++ [x]
                           /\ leb (key x) (key item) = true) ->
  (B1 = [] \/ exists b B', B1 = b :: B'
                           /\ gtb leb (key b) (key item) = true) ->
  sortedb leb key (A1 ++ item :: B1) = true.
Proof.
  intros Hs HA HB.
  assert (HiB : sortedb leb key (item :: B1) = true).
  { destruct HB as [-> | (b & B' & -> & G)]; [reflexivity |].
    change (sortedb leb key (item :: b :: B'))
      with (leb (key item) (key b) && sortedb leb key (b :: B')).
    rewrite (sortedb_app_r _ _ _ _ Hs). rewrite andb_true_r.
    unfold gtb in G. apply negb_true_iff in G.
    destruct (leb_total (key item) (key b)) as [T | T]; congruence. }
  destruct HA as [-> | (A2 & x & -> & Hx)]; [exact HiB |].
  rewrite <- app_assoc. cbn [app].
  apply sortedb_join; trivial.
  apply (sortedb_app_l _ _ _ _ Hs).
Qed.

Lemma insert_loop (P R : list A) (st : Z) :
  st = llen P ->
  forall (X Srt : list A),
    sortedb leb key Srt = true ->
    exists Srt',
      for_each (map (fun k => st + Z.of_nat k) (seq (length Srt) (length X)))
        (fun L0 i0 =>
           item <- getitem L0 i0 ;;
           let j0 := i0 - 1 in
           '(L1, j1) <- shift leb key (S (Z.to_nat (j0 - st + 1)))
                              L0 st j0 item ;;
           setitem L1 (j1 + 1) item)
        (P ++ Srt ++ X ++ R)
      = Ok (P ++ Srt' ++ R)
      /\ Permutation (Srt ++ X) Srt'
      /\ sortedb leb key Srt' = true.
Proof.
  intros Hst. induction X as [| item X IH]; intros Srt Hs.
  - exists Srt. cbn. rewrite app_nil_r. auto.
  - cbn [length seq map for_each].
    assert (Hread : getitem (P ++ Srt ++ (item :: X) ++ R)
                            (st + Z.of_nat (length Srt)) = Ok item).
    { rewrite app_assoc. cbn [app]. apply getitem_app_mid.
      rewrite llen_app. unfold llen at 2. lia. }
    rewrite Hread. cbn [bind]. cbn zeta.
    destruct (@shift_spec P (X ++ R) item st Hst
                (S (Z.to_nat (st + Z.of_nat (length Srt) - 1 - st + 1)))
                Srt [] item)
      as (A1 & B1 & h' & Rs & E & HA1 & HB1); [lia | now left |].
    cbn [app] in Rs |- *. unfold llen at 1 in Rs. rewrite Rs. cbn [bind].
    assert (Hwrite : setitem (P ++ A1 ++ h' :: B1 ++ X ++ R)
                             (st + llen A1 - 1 + 1) item
                     = Ok (P ++ (A1 ++ item :: B1) ++ X ++ R)).
    { rewrite (app_assoc P). rewrite setitem_app_mid.
      - rewrite <- !app_assoc. reflexivity.
      - rewrite llen_app. lia. }
    rewrite Hwrite. rewrite app_nil_r in E.
    assert (Hlen : length (A1 ++ item :: B1) = S (length Srt)).
    { rewrite E, !length_app. cbn [length]. lia. }
    destruct (IH (A1 ++ item :: B1)) as (Srt' & Rl & HP & Hs').
    { apply sortedb_insert; trivial. now rewrite <- E. }
    rewrite Hlen in Rl. exists Srt'. split; [exact Rl |]. split; [| exact Hs'].
    rewrite <- HP, E, <- !app_assoc. apply Permutation_app_head.
    cbn [app]. apply Permutation_sym, Permutation_middle.
Qed.

Lemma insertSort_spec (L : list A) (st e : Z) :
  0 <= st <= e -> e <= llen L ->
  exists srt,
    insertSort leb key L st e
    = Ok (firstn (Z.to_nat st) L ++ srt ++ skipn (Z.to_nat e) L)
    /\ Permutation (slice L st e) srt
    /\ sortedb leb key srt = true.
Proof.
  intros H1 H2. unfold insertSort, range2.
  pose proof (slice_length L H1 H2) as Hsl.
  destruct (@insert_loop (firstn (Z.to_nat st) L) (skipn (Z.to_nat e) L) st)
    with (X := slice L st e) (Srt := @nil A) as (srt & R & HP & Hs).
  { unfold llen in *. rewrite length_firstn. lia. }
  { reflexivity. }
  cbn [length app] in R.
  rewrite <- slice_split in R by assumption.
  replace (length (slice L st e)) with (Z.to_nat (e - st)) in R
    by (unfold llen in Hsl; lia).
  exists srt. auto.
Qed.

End InsertSortFacts.

Lemma insertSort_range {A K : Type} (leb : K -> K -> bool)
        (key : A -> K) (L : list A) (st e : Z) :
  total leb -> 0 <= st <= e -> e <= llen L ->
  exists L',
    insertSort leb key L st e = Ok L'
    /\ monotoneb leb key L' Inc st e = true
    /\ Permutation L L'
    /\ firstn (Z.to_nat st) L' = firstn (Z.to_nat st) L
    /\ skipn (Z.to_nat e) L' = skipn (Z.to_nat e) L.
Proof.
  intros HT H1 H2.
  destruct (insertSort_spec key HT L H1 H2) as (srt & R & HP & Hs).
  eexists. split; [exact R |].
  pose proof (slice_length L H1 H2) as Hsl.
  assert (HPl : llen (firstn (Z.to_nat st) L) = st).
  { unfold llen in *. rewrite length_firstn. lia. }
  assert (Hsrt : llen srt = e - st).
  { rewrite <- Hsl. unfold llen. now rewrite (Permutation_length HP). }
  assert (Hslice : slice (firstn (Z.to_nat st) L ++ srt ++ skipn (Z.to_nat e) L)
                         st e = srt).
  { apply slice_app_mid; lia. }
  conj_split.
  - apply monotoneb_slice; [now left | exact H1 | |].
    + rewrite !llen_app. unfold llen at 3. rewrite length_skipn.
      unfold llen in *. lia.
    + change (Inc =? Inc) with true. cbn match. now rewrite Hslice.
  - rewrite (slice_split L H1 H2) at 1.
    apply Permutation_app_head, Permutation_app_tail. exact HP.
  - now apply firstn_llen_app.
  - rewrite app_assoc. apply skipn_llen_app. rewrite llen_app. lia.
Qed.

(** ** The fuser hands the scanner's runs on *)

Section FuserRunsFacts.
Context {A K : Type} (leb : K -> K -> bool) (key : A -> K) (L : list A).
Hypothesis leb_total : total leb.

Lemma scanner_next_run (st st' : IncDecRuns.t) (s : Segment) :
  scanner_inv leb key L st ->
  IncDecRuns.next leb key L st = Ok (Some s, st') ->
  scanned_run leb key L s = true.
Proof.
  intros Hinv R. pose proof Hinv as (_ & Hj & _).
  destruct (Z.eq_dec (IncDecRuns.j st) (IncDecRuns.m st)) as [E | N].
  - rewrite scanner_next_none in R by exact E. discriminate.
  - destruct (scanner_next_some leb_total Hinv)
      as (s0 & st0 & R0 & _ & _ & _ & _ & _ & Hrun); [lia |].
    rewrite R0 in R. now injection R as <- <-.
Qed.

Lemma absorb_runs (fuel : nat) :
  forall (idr idr' : IncDecRuns.t) (b b' : Segment),
    scanner_inv leb key L idr ->
    scanned_run leb key L b = true ->
    FuseSegments.absorb leb key L fuel idr (Some b) = Ok (Some b', idr') ->
    scanned_run leb key L b' = true.
Proof.
  induction fuel as [| fuel IH]; intros idr idr' b b' Hinv Hb R;
    [discriminate |].
  cbn [FuseSegments.absorb FuseSegments.olen bind] in R.
  destruct ((len b <? runThreshold) && negb (IncDecRuns.finished idr)).
  - destruct (scanner_next_cases leb_total Hinv)
      as [(_ & Rn) | (_ & s & idr1 & Rn & Hinv1 & _)];
      rewrite Rn in R; cbn [bind] in R.
    + destruct fuel; discriminate.
    + apply (IH idr1 idr' s b' Hinv1); [| exact R].
      now apply (scanner_next_run Hinv Rn).
  - now injection R as <- <-.
Qed.

Lemma absorb_moves (fuel : nat) :
  forall (idr idr' : IncDecRuns.t) (b b' : Segment),
    scanner_inv leb key L idr ->
    end_ b = scanner_pos idr ->
    FuseSegments.absorb leb key L fuel idr (Some b) = Ok (Some b', idr') ->
    b' = b \/ end_ b <= start b'.
Proof.
  induction fuel as [| fuel IH]; intros idr idr' b b' Hinv He R;
    [discriminate |].
  cbn [FuseSegments.absorb FuseSegments.olen bind] in R.
  destruct ((len b <? runThreshold) && negb (IncDecRuns.finished idr)).
  - destruct (scanner_next_cases leb_total Hinv)
      as [(_ & Rn) | (_ & s & idr1 & Rn & Hinv1 & Hs & _ & _ & Hne & He1 & _)];
      rewrite Rn in R; cbn [bind] in R.
    + destruct fuel; discriminate.
    + right. destruct (IH idr1 idr' s b' Hinv1 He1 R) as [-> | Hlater]; lia.
  - left. now injection R as <- <-.
Qed.

Lemma scanner_next_opt_run (st st' : IncDecRuns.t) (r : option Segment) :
  scanner_inv leb key L st ->
  IncDecRuns.next leb key L st = Ok (r, st') ->
  opt_run leb key L r.
Proof.
  intros Hinv R. destruct r as [s |]; [| exact I].
  exact (scanner_next_run Hinv R).
Qed.

(** One call of the fuser: what it returns is Unsorted or a run of the
    scanner; a short segment is always followed by a long one, or by
    nothing. *)
Lemma fuser_next_runs (fs fs' : FuseSegments.t) (p : Z) (a s : Segment) :
  fuser_inv leb key L fs p -> fuser_runs leb key L fs ->
  FuseSegments.next1 fs = Some a ->
  FuseSegments.next leb key L fs = Ok (Some s, fs') ->
  fuser_runs leb key L fs'
  /\ (len s < runThreshold -> long_or_none (FuseSegments.next1 fs'))
  /\ (tag s = Unsorted \/ scanned_run leb key L s = true)
  /\ (tag s = Unsorted -> 2 <= len s).
Proof.
  unfold fuser_inv, fuser_runs, FuseSegments.next.
  destruct fs as [idr n1 n2].
  cbn [FuseSegments.IDR FuseSegments.next1 FuseSegments.next2].
  intros (Hinv & H) (Ha & Hb) -> R. cbn [opt_run] in Ha.
  destruct n2 as [b |].
  - destruct H as (Hsa & Hpa & Hsb & Hne & He & Hta & Htb).
    cbn [opt_run] in Hb. cbn [FuseSegments.olen bind] in R.
    destruct ((len a <? runThreshold) && (len b <? runThreshold)) eqn:Hboth.
    + destruct (@absorb_spec _ _ leb key L leb_total (end_ a)
                  (S (Z.to_nat (IncDecRuns.m idr - IncDecRuns.j idr))) idr b)
        as (b' & idr' & Ra & Hinv' & Hne' & He' & Hq' & Ht' & _ & _ & _);
        trivial; try lia.
      assert (Hb' : scanned_run leb key L b' = true)
        by (eapply absorb_runs; [exact Hinv | exact Hb | exact Ra]).
      assert (Hmove : b' = b \/ end_ b <= start b')
        by (eapply absorb_moves; [exact Hinv | exact He | exact Ra]).
      apply andb_prop in Hboth. destruct Hboth as (_ & Sb).
      apply Z.ltb_lt in Sb.
      rewrite Ra in R. cbn [bind FuseSegments.olen] in R.
      destruct (Z.ltb_spec (len b') runThreshold) as [Hshort | Hlong].
      * cbn [bind] in R. injection R as <- <-. fuser_fields.
        cbn [opt_run long_or_none]. unfold len. cbn [start end_].
        conj_split; auto; intros; lia.
      * destruct (IncDecRuns.next leb key L idr') as [[n2' idr''] | e] eqn:Rn;
          cbn [bind] in R; [| discriminate].
        injection R as <- <-. fuser_fields. cbn [opt_run long_or_none].
        unfold len. cbn [start end_].
        conj_split; auto; try (intros; lia).
        -- exact (scanner_next_opt_run Hinv' Rn).
        -- intros _. destruct Hmove as [-> | Hmove]; lia.
    + destruct (IncDecRuns.next leb key L idr) as [[n2' idr'] | e] eqn:Rn;
        cbn [bind] in R; [| discriminate].
      injection R as <- <-. fuser_fields. cbn [opt_run long_or_none].
      conj_split; auto.
      * exact (scanner_next_opt_run Hinv Rn).
      * intros Hshort. apply andb_false_iff in Hboth.
        destruct Hboth as [C | C]; apply Z.ltb_ge in C; [lia | exact C].
      * intros C. contradiction.
  - injection R as <- <-. fuser_fields. cbn [opt_run long_or_none].
    destruct H as (_ & _ & _ & _ & Hta).
    conj_split; auto. intros C. contradiction.
Qed.

Lemma fuser_init_runs (idr : IncDecRuns.t) (fs : FuseSegments.t) :
  scanner_inv leb key L idr ->
  FuseSegments.init leb key L idr = Ok fs ->
  fuser_runs leb key L fs.
Proof.
  intros Hinv R. unfold FuseSegments.init in R.
  destruct (IncDecRuns.next leb key L idr) as [[n1 idr1] | e] eqn:R1;
    cbn [bind] in R; [| discriminate].
  assert (Hinv1 : scanner_inv leb key L idr1).
  { destruct (scanner_next_cases leb_total Hinv)
      as [(_ & Rn) | (_ & s & idr' & Rn & Hinv' & _)];
      rewrite Rn in R1; injection R1 as <- <-; assumption. }
  destruct (IncDecRuns.next leb key L idr1) as [[n2 idr2] | e] eqn:R2;
    cbn [bind] in R; [| discriminate].
  injection R as <-. split; fuser_fields.
  - exact (scanner_next_opt_run Hinv R1).
  - exact (scanner_next_opt_run Hinv1 R2).
Qed.

End FuserRunsFacts.

(** ** The tags of [segments] tell the truth *)

Section SegmentsRunsFacts.
Context {A : Type} (lebA : A -> A -> bool) (L : list A).
Hypothesis lebA_total : total lebA.

Lemma scanned_run_tag_holds (s : Segment) :
  scanned_run lebA (fun a => a) L s = true ->
  tag_holds lebA (fun a => a) L s = true.
Proof.
  unfold scanned_run, tag_holds. intros H.
  apply andb_prop in H. destruct H as (H & _).
  apply andb_prop in H. destruct H as (Hm & Ht).
  rewrite Hm, Ht. apply orb_true_r.
Qed.

Lemma scanned_run_extended (x : Segment) :
  scanned_run lebA (fun a => a) L x = true -> end_ x < llen L ->
  tag_holds lebA (fun a => a) L (mkSegment (start x) (end_ x + 1) (tag x))
  = true.
Proof.
  unfold scanned_run, tag_holds. intros H Hlt. cbn [start end_ tag].
  apply andb_prop in H. destruct H as (H & Hext).
  apply andb_prop in H. destruct H as (_ & Ht).
  destruct (Z.ltb_spec (end_ x) (llen L)) as [_ | C]; [| lia].
  apply andb_prop in Hext. destruct Hext as (Hext & _).
  rewrite Hext, Ht. apply orb_true_r.
Qed.

Lemma fuser_inv_bound (FS : FuseSegments.t) (p : Z) :
  fuser_inv lebA (fun a => a) L FS p -> p <= llen L.
Proof.
  intros (Hinv & H). pose proof Hinv as (Hm & Hj & _).
  assert (Hpos : scanner_pos (FuseSegments.IDR FS) <= llen L).
  { unfold scanner_pos.
    destruct (Z.eqb_spec (IncDecRuns.j (FuseSegments.IDR FS))
                         (IncDecRuns.m (FuseSegments.IDR FS))); lia. }
  destruct (FuseSegments.next1 FS), (FuseSegments.next2 FS);
    try contradiction; lia.
Qed.

(** One pass through the loop keeps both invariants. *)
Lemma segments_step (S : list Segment) (c : Segment) (FS : FuseSegments.t) :
  segments_inv lebA L S (Some c) FS ->
  segments_runs_inv lebA L S (Some c) FS ->
  oversized c = false ->
  exists S1 curr' FS',
    segments_body None S c (FuseSegments.finished FS) = Ok (S1, None)
    /\ FuseSegments.next lebA (fun x => x) L FS = Ok (curr', FS')
    /\ segments_inv lebA L S1 curr' FS'
    /\ segments_runs_inv lebA L S1 curr' FS'.
Proof.
  intros Hinv Hruns Hfits.
  destruct (segments_body_spec Hinv Hfits) as (S1 & Rb & Hc1 & Hb1 & Hl1).
  destruct Hinv as (Hb & Hc & Hne & Hfinv & Hg & Hk).
  destruct Hruns as (Hall & Hfr & Hcr & Hc2 & Hshort & Hlast).
  (* what the body did *)
  assert (Hbody : forallb (tag_holds lebA (fun a => a) L) S1 = true
                  /\ (pristine_last lebA L S1
                      \/ long_or_none (FuseSegments.next1 FS))).
  { unfold segments_body in Rb.
    destruct ((len c =? 1) && negb (length S =? 0)%nat
              && negb (FuseSegments.finished FS)) eqn:Hfold.
    - apply andb_prop in Hfold. destruct Hfold as (Hfold & Hfin).
      apply andb_prop in Hfold. destruct Hfold as (H1 & HS).
      apply Z.eqb_eq in H1.
      assert (HSne : S <> []) by (intros ->; discriminate).
      destruct Hlast as [-> | [(S0 & x & -> & Hx) | Hlong]];
        [contradiction | | unfold runThreshold in Hlong; lia].
      unfold bump_last in Rb. rewrite getitem_last in Rb. cbn [bind] in Rb.
      rewrite setitem_last in Rb. cbn [bind] in Rb. injection Rb as <-.
      apply chain_app in Hc. destruct Hc as (mid & _ & Hx1).
      cbn [chain] in Hx1. destruct Hx1 as (_ & _ & Hx3).
      pose proof (fuser_inv_bound Hfinv) as Hbound.
      split.
      + rewrite forallb_app in Hall |- *. apply andb_prop in Hall.
        destruct Hall as (Hall0 & _). rewrite Hall0. cbn [forallb andb].
        rewrite scanned_run_extended; trivial. lia.
      + right. apply Hshort. unfold runThreshold. lia.
    - destruct (negb (tag c =? Unsorted) || (len c <=? blockMax)) eqn:Hkeep.
      + injection Rb as <-. split.
        * rewrite forallb_app, Hall. cbn [forallb andb].
          rewrite andb_true_r.
          destruct Hcr as [Ht | Hrun];
            [unfold tag_holds; now rewrite Ht
            | now apply scanned_run_tag_holds].
        * destruct Hcr as [Ht | Hrun]; [right; auto | left].
          now exists S, c.
      + rewrite split_block_unbound in Rb. discriminate. }
  destruct Hbody as (Hall1 & Hnext).
  exists S1.
  destruct (FuseSegments.next1 FS) as [a |] eqn:E1.
  - destruct (fuser_next_some lebA_total Hfinv E1)
      as (s & FS' & Rn & Hs & Hnes & Hinv' & Hdec & Hkind).
    destruct (fuser_next_runs lebA_total Hfinv Hfr E1 Rn)
      as (Hfr' & Hshort' & Hrun' & Hlen').
    exists (Some s), FS'. split; [exact Rb |]. split; [exact Rn |]. split.
    + split; [exact Hb1 |]. conj_split; trivial.
      * now rewrite Hs.
      * lia.
      * intros Ht. destruct Hkind as [(_ & N) | (_ & _ & Hlong)];
          [contradiction | exact Hlong].
      * intros Hl. specialize (Hg (Hl1 Hl)). cbn [long_or_none] in Hg.
        destruct Hkind as [(-> & _) | (_ & Hsh & _)]; [exact Hg | lia].
    + split; [exact Hall1 |]. split; [exact Hfr' |]. conj_split; trivial.
      destruct Hnext as [Hp | Hlong]; [now right; left |].
      right; right. cbn [long_or_none] in Hlong.
      destruct Hkind as [(-> & _) | (_ & Hsh & _)]; [exact Hlong | lia].
  - destruct (fuser_next_none Hfinv E1) as (Rn & Hp).
    exists None, FS. split; [exact Rb |]. split; [exact Rn |]. split.
    + split; [exact Hb1 |]. now rewrite <- Hp.
    + split; [exact Hall1 |]. split; [exact Hfr | exact I].
Qed.

Lemma segments_loop_runs (fuel : nat) :
  forall (S S' : list Segment) (curr : option Segment)
         (FS : FuseSegments.t),
    segments_inv lebA L S curr FS ->
    segments_runs_inv lebA L S curr FS ->
    segments_loop lebA L fuel None S curr FS = Ok S' ->
    forallb (tag_holds lebA (fun a => a) L) S' = true.
Proof.
  induction fuel as [| fuel IH]; intros S S' curr FS Hinv Hruns R;
    [discriminate |].
  cbn [segments_loop] in R. destruct curr as [c |].
  - destruct (oversized c) eqn:Ho.
    { rewrite segments_body_raises in R by exact Ho. discriminate. }
    destruct (segments_step Hinv Hruns Ho)
      as (S1 & curr' & FS' & Rb & Rn & Hinv' & Hruns').
    rewrite Rb in R. cbn [bind] in R. rewrite Rn in R. cbn [bind] in R.
    exact (IH _ _ _ _ Hinv' Hruns' R).
  - injection R as <-. now destruct Hruns.
Qed.

(** What [segments(L)] returns, when it returns. *)
Lemma segments_returned (Sg : list Segment) :
  segments lebA L = Ok Sg ->
  2 <= llen L
  /\ chain 0 Sg (llen L)
  /\ Forall bounded_unsorted Sg
  /\ forallb (tag_holds lebA (fun a => a) L) Sg = true.
Proof.
  intros R.
  assert (Hn : 2 <= llen L).
  { destruct (Z.le_gt_cases 2 (llen L)) as [Hn | C]; [exact Hn |].
    unfold segments, IncDecRuns.init in R.
    rewrite getitem_out_of_range in R by lia. discriminate. }
  split; [exact Hn |].
  destruct (@segments_outcome _ lebA L lebA_total Hn) as (F & _ & _ & _ & H).
  destruct (existsb oversized F).
  { rewrite H in R. discriminate. }
  destruct H as (S0 & R0 & Hc & Hb). rewrite R in R0. injection R0 as <-.
  split; [exact Hc |]. split; [exact Hb |].
  unfold segments in R.
  destruct (@scanner_init_spec _ _ lebA (fun x => x) L lebA_total Hn)
    as (idr & Ri & Hinv & Hj & Hm).
  rewrite Ri in R. cbn [bind] in R.
  destruct (fuser_init_spec lebA_total Hinv Hj Hn)
    as (fs & a & Rf & Hfinv & E1 & Hleft).
  rewrite Rf in R. cbn [bind] in R.
  pose proof (fuser_init_runs lebA_total Hinv Rf) as Hfr.
  destruct (fuser_next_some lebA_total Hfinv E1)
    as (s & FS' & Rn & Hs & Hne & Hinv' & Hdec & Hkind).
  destruct (fuser_next_runs lebA_total Hfinv Hfr E1 Rn)
    as (Hfr' & Hshort' & Hrun' & Hlen').
  rewrite Rn in R. cbn [bind] in R.
  eapply segments_loop_runs; [| | exact R].
  - split; [constructor |]. conj_split; trivial.
    + cbn [chain]. now rewrite Hs.
    + lia.
    + intros Ht. destruct Hkind as [(_ & N) | (_ & _ & Hlong)];
        [contradiction | exact Hlong].
    + intros [].
  - split; [reflexivity |]. split; [exact Hfr' |]. conj_split; auto.
Qed.

End SegmentsRunsFacts.

(** ** processSegments *)

Lemma slice_after {X : Type} (L L1 : list X) (e lo hi : Z) :
  skipn (Z.to_nat e) L1 = skipn (Z.to_nat e) L ->
  0 <= e <= lo -> slice L1 lo hi = slice L lo hi.
Proof.
  intros H He. unfold slice. f_equal.
  replace (Z.to_nat lo) with (Z.to_nat (lo - e) + Z.to_nat e)%nat by lia.
  rewrite <- !skipn_skipn. now rewrite H.
Qed.

Lemma firstn_before {X : Type} (L L1 : list X) (e a : Z) :
  firstn (Z.to_nat e) L1 = firstn (Z.to_nat e) L ->
  0 <= a <= e -> firstn (Z.to_nat a) L1 = firstn (Z.to_nat a) L.
Proof.
  intros H Ha.
  replace (Z.to_nat a) with (Nat.min (Z.to_nat a) (Z.to_nat e)) by lia.
  rewrite <- !firstn_firstn. now rewrite H.
Qed.

Lemma slice_before {X : Type} (L L1 : list X) (e lo hi : Z) :
  firstn (Z.to_nat e) L1 = firstn (Z.to_nat e) L ->
  0 <= lo <= hi -> hi <= e -> slice L1 lo hi = slice L lo hi.
Proof.
  intros H Hlo Hhi. unfold slice. rewrite !firstn_skipn_comm. f_equal.
  replace (Z.to_nat lo + Z.to_nat (hi - lo))%nat with (Z.to_nat hi) by lia.
  apply (firstn_before _ _ H). lia.
Qed.

Section ProcessSegmentsFacts.
Context {A K : Type} (leb : K -> K -> bool) (key : A -> K).
Hypothesis leb_total : total leb.

Lemma monotoneb_same_slice (L L1 : list A) (d lo hi : Z) :
  d = Inc \/ d = Dec -> 0 <= lo <= hi -> hi <= llen L ->
  llen L1 = llen L -> slice L1 lo hi = slice L lo hi ->
  monotoneb leb key L d lo hi = true ->
  monotoneb leb key L1 d lo hi = true.
Proof.
  intros Hd Hlo Hhi Hlen Hs Hm.
  apply monotoneb_slice; trivial; [lia |].
  rewrite Hs. now apply monotoneb_slice in Hm.
Qed.

Lemma tag_holds_cases (L : list A) (s : Segment) :
  tag_holds leb key L s = true ->
  tag s = Unsorted
  \/ (tag s = Inc /\ monotoneb leb key L Inc (start s) (end_ s) = true)
  \/ (tag s = Dec /\ monotoneb leb key L Dec (start s) (end_ s) = true).
Proof.
  unfold tag_holds. intros H. apply orb_prop in H.
  destruct H as [H | H]; [left; now apply Z.eqb_eq |].
  apply andb_prop in H. destruct H as (Ht & Hm). apply orb_prop in Ht.
  destruct Ht as [Ht | Ht]; apply Z.eqb_eq in Ht; rewrite Ht in Hm; auto.
Qed.

(** One segment: the body of the [for] loop. *)
Lemma process_one (L : list A) (s : Segment) :
  tag_holds leb key L s = true ->
  0 <= start s <= end_ s -> end_ s <= llen L ->
  exists L1,
    (if tag s =? Unsorted then insertSort leb key L (start s) (end_ s)
     else if tag s =? Dec then Ok (reverse L (start s) (end_ s))
          else Ok L) = Ok L1
    /\ monotoneb leb key L1 Inc (start s) (end_ s) = true
    /\ Permutation L L1
    /\ firstn (Z.to_nat (start s)) L1 = firstn (Z.to_nat (start s)) L
    /\ skipn (Z.to_nat (end_ s)) L1 = skipn (Z.to_nat (end_ s)) L.
Proof.
  intros Ht H1 H2.
  destruct (tag_holds_cases _ _ Ht) as [E | [(E & Hm) | (E & Hm)]];
    rewrite E.
  - change (Unsorted =? Unsorted) with true. cbn match.
    destruct (insertSort_range key L leb_total H1 H2)
      as (L1 & R & Hs & HP & Hf & Hk).
    exists L1. auto.
  - change (Inc =? Unsorted) with false. change (Inc =? Dec) with false.
    cbn match. exists L. auto.
  - change (Dec =? Unsorted) with false. change (Dec =? Dec) with true.
    cbn match. eexists. split; [reflexivity |].
    destruct (reverse_decreasing_range leb key L H1 H2 Hm) as (Hs & Hf & Hk).
    pose proof (reverse_permutation L (start s) (end_ s)) as HP.
    auto.
Qed.

Lemma processSegments_chain (S : list Segment) :
  forall (L : list A) (a b : Z),
    chain a S b -> 0 <= a -> b <= llen L ->
    forallb (tag_holds leb key L) S = true ->
    exists L',
      processSegments leb key L S = Ok L'
      /\ forallb (fun s => monotoneb leb key L' Inc (start s) (end_ s)) S
         = true
      /\ Permutation L L'
      /\ firstn (Z.to_nat a) L' = firstn (Z.to_nat a) L
      /\ skipn (Z.to_nat b) L' = skipn (Z.to_nat b) L.
Proof.
  unfold processSegments.
  induction S as [| s S IH]; intros L a b Hc Ha Hb Hall.
  - exists L. cbn. auto.
  - cbn [chain] in Hc. destruct Hc as (Hs & Hne & Hc).
    cbn [forallb] in Hall. apply andb_prop in Hall.
    destruct Hall as (Hts & Hall).
    pose proof (chain_le _ _ _ Hc) as Hle.
    destruct (@process_one L s Hts) as (L1 & R1 & Hm1 & HP1 & Hf1 & Hk1);
      [lia | lia |].
    cbn [for_each]. rewrite R1. cbn [bind].
    assert (Hlen1 : llen L1 = llen L).
    { unfold llen. now rewrite (Permutation_length HP1). }
    destruct (IH L1 (end_ s) b Hc) as (L' & R' & Hm' & HP' & Hf' & Hk');
      [lia | lia | |].
    { apply forallb_forall. intros x Hx.
      rewrite forallb_forall in Hall. specialize (Hall x Hx).
      pose proof (chain_bounds _ _ _ Hc) as Hbnd.
      rewrite Forall_forall in Hbnd. specialize (Hbnd x Hx).
      assert (Hsl : slice L1 (start x) (end_ x) = slice L (start x) (end_ x)).
      { apply (slice_after _ _ _ Hk1). lia. }
      destruct (tag_holds_cases _ _ Hall) as [E | [(E & Hm) | (E & Hm)]];
        unfold tag_holds; rewrite E; [reflexivity | |].
      - rewrite (@monotoneb_same_slice L L1 Inc); trivial;
          [now left | lia | lia].
      - rewrite (@monotoneb_same_slice L L1 Dec); trivial;
          [now right | lia | lia]. }
    assert (Hlen' : llen L' = llen L1).
    { unfold llen. now rewrite (Permutation_length HP'). }
    exists L'. split; [exact R' |]. conj_split.
    + cbn [forallb]. rewrite Hm', andb_true_r.
      apply (@monotoneb_same_slice L1 L' Inc); trivial;
        [now left | lia | lia |].
      eapply slice_before; [exact Hf' | lia | lia].
    + now rewrite HP1.
    + rewrite <- Hs, <- Hf1. eapply firstn_before; [exact Hf' | lia].
    + rewrite Hk'. 
      replace (Z.to_nat b)
        with (Z.to_nat (b - end_ s) + Z.to_nat (end_ s))%nat by lia.
      rewrite <- !skipn_skipn. now rewrite Hk1.
Qed.

End ProcessSegmentsFacts.

(** ** The merge of two lists *)

Section MergeListsFacts.
Context {A K : Type} (leb : K -> K -> bool) (key : A -> K).

Lemma merge_lists_nil_l (l2 : list A) : merge_lists leb key [] l2 = l2.
Proof. destruct l2; reflexivity. Qed.

Lemma merge_lists_nil_r (l1 : list A) : merge_lists leb key l1 [] = l1.
Proof. destruct l1; reflexivity. Qed.

Lemma merge_lists_cons (a b : A) (t1 t2 : list A) :
  merge_lists leb key (a :: t1) (b :: t2)
  = if leb (key a) (key b)
    then a :: merge_lists leb key t1 (b :: t2)
    else b :: merge_lists leb key (a :: t1) t2.
Proof. reflexivity. Qed.

Lemma merge_lists_permutation (l1 l2 : list A) :
  Permutation (l1 ++ l2) (merge_lists leb key l1 l2).
Proof.
  revert l2. induction l1 as [| a t1 IH1]; intros l2.
  - rewrite merge_lists_nil_l. reflexivity.
  - induction l2 as [| b t2 IH2].
    + rewrite merge_lists_nil_r, app_nil_r. reflexivity.
    + rewrite merge_lists_cons. destruct (leb (key a) (key b)).
      * cbn [app]. constructor. apply IH1.
      * rewrite <- IH2. apply Permutation_sym.
        apply (Permutation_middle (a :: t1) t2 b).
Qed.

Lemma merge_lists_length (l1 l2 : list A) :
  length (merge_lists leb key l1 l2) = (length l1 + length l2)%nat.
Proof.
  rewrite <- (Permutation_length (merge_lists_permutation l1 l2)).
  apply length_app.
Qed.

(** The head of a merge is the head of one of the two lists. *)
Lemma merge_lists_head (l1 l2 : list A) (x : A) :
  (forall a t, l1 = a :: t -> leb (key x) (key a) = true) ->
  (forall b t, l2 = b :: t -> leb (key x) (key b) = true) ->
  forall c t, merge_lists leb key l1 l2 = c :: t ->
              leb (key x) (key c) = true.
Proof.
  intros H1 H2 c t.
  destruct l1 as [| a t1]; [rewrite merge_lists_nil_l; apply H2 |].
  destruct l2 as [| b t2]; [rewrite merge_lists_nil_r; apply H1 |].
  rewrite merge_lists_cons. destruct (leb (key a) (key b)).
  - intros [= <- _]. now apply (H1 a t1).
  - intros [= <- _]. now apply (H2 b t2).
Qed.

Lemma sortedb_cons_intro (x : A) (l : list A) :
  sortedb leb key l = true ->
  (forall c t, l = c :: t -> leb (key x) (key c) = true) ->
  sortedb leb key (x :: l) = true.
Proof.
  intros Hs Hh. destruct l as [| c t]; [reflexivity |].
  change (sortedb leb key (x :: c :: t))
    with (leb (key x) (key c) && sortedb leb key (c :: t)).
  now rewrite Hs, (Hh c t eq_refl).
Qed.

Lemma sortedb_head (x c : A) (t : list A) :
  sortedb leb key (x :: c :: t) = true -> leb (key x) (key c) = true.
Proof.
  change (sortedb leb key (x :: c :: t))
    with (leb (key x) (key c) && sortedb leb key (c :: t)).
  now intros H%andb_prop.
Qed.

Lemma merge_lists_sorted (l1 l2 : list A) :
  total leb ->
  sortedb leb key l1 = true -> sortedb leb key l2 = true ->
  sortedb leb key (merge_lists leb key l1 l2) = true.
Proof.
  intros HT. revert l2. induction l1 as [| a t1 IH1]; intros l2 H1 H2.
  - now rewrite merge_lists_nil_l.
  - induction l2 as [| b t2 IH2].
    + now rewrite merge_lists_nil_r.
    + rewrite merge_lists_cons. destruct (leb (key a) (key b)) eqn:E.
      * apply sortedb_cons_intro.
        -- apply IH1; [apply (sortedb_cons _ _ _ _ H1) | exact H2].
        -- apply merge_lists_head.
           ++ intros c t ->. exact (sortedb_head _ _ _ H1).
           ++ intros c t [= <- _]. exact E.
      * apply sortedb_cons_intro.
        -- apply IH2. apply (sortedb_cons _ _ _ _ H2).
        -- apply merge_lists_head.
           ++ intros c t [= <- _].
              destruct (HT (key a) (key b)) as [T | T]; congruence.
           ++ intros c t ->. exact (sortedb_head _ _ _ H2).
Qed.

End MergeListsFacts.

(** ** mergeSegments and copySegment *)

Lemma reads_cons {X : Type} (L : list X) (p : Z) (c : X) (C : list X) :
  reads L p (c :: C) -> getitem L p = Ok c /\ reads L (p + 1) C.
Proof.
  intros H. split.
  - specialize (H 0%nat c eq_refl). now rewrite Z.add_0_r in H.
  - intros k x Hk. specialize (H (S k) x Hk).
    rewrite <- H. f_equal. lia.
Qed.

Lemma reads_slice {X : Type} (L : list X) (a b : Z) :
  0 <= a <= b -> b <= llen L -> reads L a (slice L a b).
Proof.
  intros H1 H2 k c Hk.
  assert (Hlt : (k < Z.to_nat (b - a))%nat).
  { pose proof (slice_length L H1 H2) as E. unfold llen in E.
    assert (k < length (slice L a b))%nat by (apply nth_error_Some; congruence).
    lia. }
  rewrite slice_nth_error in Hk by lia.
  apply getitem_nth_error.
  - unfold llen in *. lia.
  - rewrite <- Hk. f_equal. lia.
Qed.

Section MergeLoops.
Context {A K : Type} (leb : K -> K -> bool) (key : A -> K).
Variables (L : list (option A)) (seg1 seg2 : Segment) (st : Z).

Lemma write_next (Pre Free Post : list (option A)) (c : option A) (k0 : Z) :
  llen Pre = st + k0 -> Free <> [] ->
  exists Free',
    setitem (Pre ++ Free ++ Post) (st + k0) c
    = Ok ((Pre ++ [c]) ++ Free' ++ Post)
    /\ length Free = S (length Free').
Proof.
  intros HP HF. destruct Free as [| f Free']; [contradiction |].
  exists Free'. split; [| reflexivity]. cbn [app].
  rewrite setitem_app_mid by lia. now rewrite <- app_assoc.
Qed.

Lemma merge_left_spec (C : list (option A)) :
  forall (fuel : nat) (Pre Free Post : list (option A)) (i0 j0 k0 size : Z),
    reads L (start seg1 + i0) C -> len seg1 = i0 + llen C ->
    llen Pre = st + k0 -> length Free = length C ->
    (length C < fuel)%nat ->
    merge_left fuel L seg1 st (Pre ++ Free ++ Post, i0, j0, k0, size)
    = Ok (Pre ++ C ++ Post, i0 + llen C, j0, k0 + llen C, size + llen C).
Proof.
  induction C as [| c C IH]; intros fuel Pre Free Post i0 j0 k0 size
                                    Hr Hlen HP HF Hf;
    (destruct fuel as [| fuel]; [lia |]); cbn [merge_left]; unfold cell.
  - change (llen (@nil (option A))) with 0 in *.
    destruct (Z.ltb_spec i0 (len seg1)) as [C0 | _]; [lia |].
    destruct Free; [| discriminate]. now rewrite !Z.add_0_r.
  - unfold llen in Hlen |- *. cbn [length] in *.
    destruct (Z.ltb_spec i0 (len seg1)) as [_ | C0]; [| lia].
    apply reads_cons in Hr. destruct Hr as (Hg & Hr).
    rewrite Hg. cbn [bind].
    destruct (@write_next Pre Free Post c k0 HP) as (Free' & Hw & HF').
    { intros ->. discriminate. }
    rewrite Hw. cbn [bind].
    rewrite (IH fuel (Pre ++ [c]) Free' Post (i0 + 1) j0 (k0 + 1) (size + 1)).
    + rewrite <- app_assoc. cbn [app]. unfold llen. state_eq. reflexivity.
    + now rewrite Z.add_assoc.
    + unfold llen. lia.
    + rewrite llen_app. change (llen [c]) with 1. lia.
    + lia.
    + lia.
Qed.

Lemma merge_right_spec (C : list (option A)) :
  forall (fuel : nat) (Pre Free Post : list (option A)) (i0 j0 k0 size : Z),
    reads L (start seg2 + j0) C -> len seg2 = j0 + llen C ->
    llen Pre = st + k0 -> length Free = length C ->
    (length C < fuel)%nat ->
    merge_right fuel L seg2 st (Pre ++ Free ++ Post, i0, j0, k0, size)
    = Ok (Pre ++ C ++ Post, i0, j0 + llen C, k0 + llen C, size + llen C).
Proof.
  induction C as [| c C IH]; intros fuel Pre Free Post i0 j0 k0 size
                                    Hr Hlen HP HF Hf;
    (destruct fuel as [| fuel]; [lia |]); cbn [merge_right]; unfold cell.
  - change (llen (@nil (option A))) with 0 in *.
    destruct (Z.ltb_spec j0 (len seg2)) as [C0 | _]; [lia |].
    destruct Free; [| discriminate]. now rewrite !Z.add_0_r.
  - unfold llen in Hlen |- *. cbn [length] in *.
    destruct (Z.ltb_spec j0 (len seg2)) as [_ | C0]; [| lia].
    apply reads_cons in Hr. destruct Hr as (Hg & Hr).
    rewrite Hg. cbn [bind].
    destruct (@write_next Pre Free Post c k0 HP) as (Free' & Hw & HF').
    { intros ->. discriminate. }
    rewrite Hw. cbn [bind].
    rewrite (IH fuel (Pre ++ [c]) Free' Post i0 (j0 + 1) (k0 + 1) (size + 1)).
    + rewrite <- app_assoc. cbn [app]. unfold llen. state_eq. reflexivity.
    + now rewrite Z.add_assoc.
    + unfold llen. lia.
    + rewrite llen_app. change (llen [c]) with 1. lia.
    + lia.
    + lia.
Qed.

(** The first loop: it stops when one of the two segments is used up. *)
Lemma merge_both_spec (fuel : nat) :
  forall (R1 R2 : list A) (Pre Free Post : list (option A))
         (i0 j0 k0 size : Z),
    reads L (start seg1 + i0) (map Some R1) -> len seg1 = i0 + llen R1 ->
    reads L (start seg2 + j0) (map Some R2) -> len seg2 = j0 + llen R2 ->
    llen Pre = st + k0 ->
    length Free = (length R1 + length R2)%nat ->
    (length R1 + length R2 < fuel)%nat ->
    exists out r1 r2 Free',
      merge_both leb key fuel L seg1 seg2 st
                 (Pre ++ Free ++ Post, i0, j0, k0, size)
      = Ok (Pre ++ map Some out ++ Free' ++ Post,
            len seg1 - llen r1, len seg2 - llen r2,
            k0 + llen out, size + llen out)
      /\ merge_lists leb key R1 R2 = out ++ r1 ++ r2
      /\ (r1 = [] \/ r2 = [])
      /\ reads L (start seg1 + (len seg1 - llen r1)) (map Some r1)
      /\ reads L (start seg2 + (len seg2 - llen r2)) (map Some r2)
      /\ length Free' = (length r1 + length r2)%nat
      /\ (length r1 <= length R1)%nat /\ (length r2 <= length R2)%nat.
Proof.
  induction fuel as [| fuel IH];
    intros R1 R2 Pre Free Post i0 j0 k0 size Hr1 Hl1 Hr2 Hl2 HP HF Hf;
    [lia |].
  cbn [merge_both]. unfold cell.
  destruct R1 as [| a t1].
  - change (llen (@nil A)) with 0 in Hl1.
    destruct (Z.ltb_spec i0 (len seg1)) as [C0 | _]; [lia |]. cbn [andb].
    exists [], [], R2, Free. cbn [map app]. change (llen (@nil A)) with 0.
    rewrite merge_lists_nil_l.
    replace (len seg1 - 0) with i0 by lia.
    replace (len seg2 - llen R2) with j0 by lia.
    rewrite !Z.add_0_r. conj_split; auto.
  - destruct R2 as [| b t2].
    + change (llen (@nil A)) with 0 in Hl2.
      destruct (Z.ltb_spec j0 (len seg2)) as [C0 | _]; [lia |].
      rewrite andb_false_r.
      exists [], (a :: t1), [], Free. cbn [map app].
      change (llen (@nil A)) with 0. rewrite app_nil_r.
      replace (len seg1 - llen (a :: t1)) with i0 by lia.
      replace (len seg2 - 0) with j0 by lia.
      rewrite !Z.add_0_r. conj_split; auto.
    + unfold llen in Hl1, Hl2. cbn [length] in *.
      destruct (Z.ltb_spec i0 (len seg1)) as [_ | C0]; [| lia].
      destruct (Z.ltb_spec j0 (len seg2)) as [_ | C0]; [| lia].
      cbn [andb]. cbn [map] in Hr1, Hr2.
      apply reads_cons in Hr1. destruct Hr1 as (Hg1 & Hr1).
      apply reads_cons in Hr2. destruct Hr2 as (Hg2 & Hr2).
      rewrite Hg1, Hg2. cbn [bind key_cell].
      rewrite merge_lists_cons.
      destruct (leb (key a) (key b)).
      * cbn [bind].
        destruct (@write_next Pre Free Post (Some a) k0 HP)
          as (Free' & Hw & HF').
        { intros ->. discriminate. }
        rewrite Hw. cbn [bind].
        destruct (IH t1 (b :: t2) (Pre ++ [Some a]) Free' Post
                     (i0 + 1) j0 (k0 + 1) (size + 1))
          as (out & r1 & r2 & Free'' & R & Hm & Hor & Hq1 & Hq2 & HF''
              & Hle1 & Hle2);
          try (cbn [length]; lia).
        { now rewrite Z.add_assoc. }
        { unfold llen. lia. }
        { cbn [map]. intros k c Hk. destruct k as [| k].
          - injection Hk as <-. now rewrite Z.add_0_r.
            - specialize (Hr2 k c Hk). rewrite <- Hr2. f_equal. lia. }
        { unfold llen. cbn [length]. lia. }
        { rewrite llen_app. change (llen [Some a]) with 1. lia. }
        exists (a :: out), r1, r2, Free''. rewrite R.
        split; [| conj_split; auto; try (cbn [length]; lia)].
        -- rewrite <- app_assoc. cbn [app map]. unfold llen.
           cbn [length]. state_eq. reflexivity.
        -- cbn [app]. now rewrite Hm.
      * cbn [bind].
        destruct (@write_next Pre Free Post (Some b) k0 HP)
          as (Free' & Hw & HF').
        { intros ->. discriminate. }
        rewrite Hw. cbn [bind].
        destruct (IH (a :: t1) t2 (Pre ++ [Some b]) Free' Post
                     i0 (j0 + 1) (k0 + 1) (size + 1))
          as (out & r1 & r2 & Free'' & R & Hm & Hor & Hq1 & Hq2 & HF''
              & Hle1 & Hle2);
          try (cbn [length]; lia).
        { cbn [map]. intros k c Hk. destruct k as [| k].
          - injection Hk as <-. now rewrite Z.add_0_r.
            - specialize (Hr1 k c Hk). rewrite <- Hr1. f_equal. lia. }
        { unfold llen. cbn [length]. lia. }
        { now rewrite Z.add_assoc. }
        { unfold llen. lia. }
        { rewrite llen_app. change (llen [Some b]) with 1. lia. }
        exists (b :: out), r1, r2, Free''. rewrite R.
        split; [| conj_split; auto; try (cbn [length]; lia)].
        -- rewrite <- app_assoc. cbn [app map]. unfold llen.
           cbn [length]. state_eq. reflexivity.
        -- cbn [app]. now rewrite Hm.
Qed.

Lemma mergeSegments_spec (X1 X2 : list A)
      (Pre Free Post : list (option A)) :
  reads L (start seg1) (map Some X1) -> len seg1 = llen X1 ->
  reads L (start seg2) (map Some X2) -> len seg2 = llen X2 ->
  llen Pre = st -> length Free = (length X1 + length X2)%nat ->
  mergeSegments leb key L seg1 seg2 (Pre ++ Free ++ Post) st
  = Ok (Pre ++ map Some (merge_lists leb key X1 X2) ++ Post,
        llen X1 + llen X2).
Proof.
  intros Hr1 Hl1 Hr2 Hl2 HP HF. unfold mergeSegments, cell.
  destruct (@merge_both_spec
              (S (Z.to_nat (len seg1) + Z.to_nat (len seg2)))
              X1 X2 Pre Free Post 0 0 0 0)
    as (out & r1 & r2 & Free' & R & Hm & _ & Hq1 & Hq2 & HF' & Hle1 & Hle2);
    try (rewrite ?Z.add_0_r; trivial; lia).
  { unfold llen in *. lia. }
  rewrite R. cbn [bind]. rewrite !Z.add_0_l.
  assert (Hout : llen (map Some out) = llen out).
  { unfold llen. now rewrite length_map. }
  assert (Hlen : (length out + (length r1 + length r2)
                  = length X1 + length X2)%nat).
  { pose proof (f_equal (@length A) Hm) as E.
    rewrite merge_lists_length, !length_app in E. lia. }
  set (F1 := firstn (length r1) Free').
  set (F2 := skipn (length r1) Free').
  assert (HF1 : length F1 = length r1).
  { subst F1. rewrite length_firstn. lia. }
  assert (HF2 : length F2 = length r2).
  { subst F2. rewrite length_skipn. lia. }
  replace (Free' ++ Post) with (F1 ++ F2 ++ Post)
    by (rewrite app_assoc; subst F1 F2; now rewrite firstn_skipn).
  rewrite (app_assoc Pre (map Some out)).
  rewrite (@merge_left_spec (map Some r1) (S (Z.to_nat (len seg1)))
             (Pre ++ map Some out) F1 (F2 ++ Post)).
  - cbn [bind]. rewrite (app_assoc (Pre ++ map Some out) (map Some r1)).
    rewrite (@merge_right_spec (map Some r2) (S (Z.to_nat (len seg2)))
               ((Pre ++ map Some out) ++ map Some r1) F2 Post).
    + cbn [bind]. rewrite Hm, !map_app, <- !app_assoc.
      unfold llen in *. rewrite !length_map. state_eq. reflexivity.
    + exact Hq2.
    + unfold llen. rewrite length_map. fold (llen r2). lia.
    + rewrite !llen_app. unfold llen in *. rewrite !length_map. lia.
    + now rewrite length_map.
    + rewrite length_map. unfold llen in *. lia.
  - exact Hq1.
  - unfold llen. rewrite length_map. fold (llen r1). lia.
  - rewrite llen_app, Hout. lia.
  - now rewrite length_map.
  - rewrite length_map. unfold llen in *. lia.
Qed.

End MergeLoops.

Lemma slice_map {X Y : Type} (f : X -> Y) (l : list X) (a b : Z) :
  slice (map f l) a b = map f (slice l a b).
Proof. unfold slice. now rewrite skipn_map, firstn_map. Qed.

Lemma reads_of_slice {X : Type} (L C : list X) (a b : Z) :
  0 <= a <= b -> b <= llen L -> slice L a b = C -> reads L a C.
Proof. intros H1 H2 <-. now apply reads_slice. Qed.

Lemma parts_of {X : Type} (M : list X) (st n : Z) :
  0 <= st -> 0 <= n -> st + n <= llen M ->
  M = firstn (Z.to_nat st) M ++ slice M st (st + n)
      ++ skipn (Z.to_nat (st + n)) M
  /\ llen (firstn (Z.to_nat st) M) = st
  /\ length (slice M st (st + n)) = Z.to_nat n.
Proof.
  intros H1 H2 H3. split; [apply slice_split; lia |]. split.
  - unfold llen in *. rewrite length_firstn. lia.
  - pose proof (@slice_length _ M st (st + n) ltac:(lia) H3) as E.
    unfold llen in E. lia.
Qed.

Lemma mergeSegments_of_slices {A K : Type} (leb : K -> K -> bool)
        (key : A -> K) (L M : list (option A)) (seg1 seg2 : Segment)
        (st : Z) (X1 X2 : list A) :
  0 <= start seg1 <= end_ seg1 -> end_ seg1 <= llen L ->
  slice L (start seg1) (end_ seg1) = map Some X1 ->
  0 <= start seg2 <= end_ seg2 -> end_ seg2 <= llen L ->
  slice L (start seg2) (end_ seg2) = map Some X2 ->
  0 <= st -> st + len seg1 + len seg2 <= llen M ->
  mergeSegments leb key L seg1 seg2 M st
  = Ok (firstn (Z.to_nat st) M
        ++ map Some (merge_lists leb key X1 X2)
        ++ skipn (Z.to_nat (st + len seg1 + len seg2)) M,
        len seg1 + len seg2).
Proof.
  intros H1 H1' E1 H2 H2' E2 Hst HM.
  assert (Hl1 : len seg1 = llen X1).
  { pose proof (slice_length L H1 H1') as E. rewrite E1 in E.
    unfold llen in *. rewrite length_map in E. unfold len. lia. }
  assert (Hl2 : len seg2 = llen X2).
  { pose proof (slice_length L H2 H2') as E. rewrite E2 in E.
    unfold llen in *. rewrite length_map in E. unfold len. lia. }
  destruct (@parts_of _ M st (len seg1 + len seg2))
    as (EM & HP & HF); try lia.
  { unfold len. lia. }
  rewrite EM at 1.
  rewrite (@mergeSegments_spec _ _ leb key L seg1 seg2 st X1 X2).
  - rewrite Hl1, Hl2, Z.add_assoc. reflexivity.
  - eapply reads_of_slice; [exact H1 | exact H1' | exact E1].
  - exact Hl1.
  - eapply reads_of_slice; [exact H2 | exact H2' | exact E2].
  - exact Hl2.
  - exact HP.
  - rewrite HF. unfold llen in *. lia.
Qed.

(** ** copySegment *)

Section CopyLoop.
Context {A : Type}.
Variables (L : list (option A)) (seg : Segment) (st : Z).

Lemma copy_loop (C : list (option A)) :
  forall (c : nat) (Pre Free Post : list (option A)),
    reads L (start seg + Z.of_nat c) C ->
    llen Pre = st + Z.of_nat c -> length Free = length C ->
    for_each (map (fun k => 0 + Z.of_nat k) (seq c (length C)))
      (fun M0 i0 =>
         v <- getitem L (start seg + i0) ;;
         setitem M0 (st + i0) v)
      (Pre ++ Free ++ Post)
    = Ok (Pre ++ C ++ Post).
Proof.
  induction C as [| x C IH]; intros c Pre Free Post Hr HP HF.
  - destruct Free; [reflexivity | discriminate].
  - cbn [length seq map for_each]. rewrite Z.add_0_l.
    apply reads_cons in Hr. destruct Hr as (Hg & Hr).
    rewrite Hg. cbn [bind].
    destruct Free as [| f Free]; [discriminate |]. cbn [app].
    rewrite setitem_app_mid by lia. cbn [bind].
    replace (Pre ++ x :: Free ++ Post) with ((Pre ++ [x]) ++ Free ++ Post)
      by now rewrite <- app_assoc.
    rewrite (IH (S c)).
    + now rewrite <- app_assoc.
    + replace (start seg + Z.of_nat (S c))
        with (start seg + Z.of_nat c + 1) by lia.
      exact Hr.
    + rewrite llen_app. change (llen [x]) with 1. lia.
    + cbn [length] in HF. lia.
Qed.

End CopyLoop.

Lemma copySegment_range {A : Type} (L M : list (option A))
        (seg : Segment) (st : Z) :
  0 <= start seg <= end_ seg -> end_ seg <= llen L ->
  0 <= st -> st + len seg <= llen M ->
  copySegment L seg M st
  = Ok (firstn (Z.to_nat st) M
        ++ slice L (start seg) (end_ seg)
        ++ skipn (Z.to_nat (st + len seg)) M,
        len seg).
Proof.
  intros H1 H2 Hst HM. unfold copySegment, range, range2, cell.
  destruct (@parts_of _ M st (len seg)) as (EM & HP & HF);
    try (unfold len in *; lia).
  pose proof (slice_length L H1 H2) as Hsl.
  rewrite EM at 1.
  replace (Z.to_nat (len seg - 0))
    with (length (slice L (start seg) (end_ seg)))
    by (unfold llen, len in *; lia).
  rewrite (@copy_loop _ L seg st (slice L (start seg) (end_ seg)) 0%nat).
  - reflexivity.
  - rewrite Z.add_0_r. now apply reads_slice.
  - rewrite Z.add_0_r. exact HP.
  - rewrite HF. unfold llen, len in *. lia.
Qed.

(** ** The driver *)

Lemma sorted_cells_map {A K : Type} (leb : K -> K -> bool) (key : A -> K)
      (l : list A) :
  sorted_cells leb key (map Some l) = sortedb leb key l.
Proof.
  induction l as [| a l IH]; [reflexivity |].
  destruct l as [| b l]; [reflexivity |].
  change (sorted_cells leb key (map Some (a :: b :: l)))
    with (leb (key a) (key b) && sorted_cells leb key (map Some (b :: l))).
  now rewrite IH.
Qed.

Lemma llen_repeat {X : Type} (x : X) (n : nat) : llen (repeat x n) = Z.of_nat n.
Proof. unfold llen. now rewrite repeat_length. Qed.

Section DriverFacts.
Context {A : Type} (lebA : A -> A -> bool).
Hypothesis lebA_total : total lebA.

(** A list shorter than [runThreshold] is one segment. *)
Lemma segments_short (L : list A) :
  2 <= llen L -> llen L < runThreshold ->
  exists s, segments lebA L = Ok [s] /\ start s = 0 /\ end_ s = llen L.
Proof.
  intros Hn Hshort. unfold segments.
  destruct (@scanner_init_spec _ _ lebA (fun x => x) L lebA_total Hn)
    as (idr & Ri & Hinv & Hj & Hm).
  rewrite Ri. cbn [bind].
  destruct (fuser_init_spec lebA_total Hinv Hj Hn)
    as (fs & a & Rf & Hfinv & E1 & Hleft).
  rewrite Rf. cbn [bind].
  pose proof (fuser_init_runs lebA_total Hinv Rf) as Hfr.
  destruct (fuser_next_some lebA_total Hfinv E1)
    as (s & FS' & Rn & Hs & Hne & Hinv' & Hdec & Hkind).
  destruct (fuser_next_runs lebA_total Hfinv Hfr E1 Rn)
    as (_ & Hlong & _ & _).
  rewrite Rn. cbn [bind].
  pose proof (fuser_inv_bound Hinv') as Hbound.
  assert (Hnone : FuseSegments.next1 FS' = None).
  { assert (Hl : long_or_none (FuseSegments.next1 FS'))
      by (apply Hlong; unfold len; lia).
    destruct Hinv' as (Hsinv & Hshape). pose proof Hsinv as (Hm' & Hj' & _).
    assert (Hpos : scanner_pos (FuseSegments.IDR FS') <= llen L).
    { unfold scanner_pos.
      destruct (Z.eqb_spec (IncDecRuns.j (FuseSegments.IDR FS'))
                           (IncDecRuns.m (FuseSegments.IDR FS'))); lia. }
    destruct (FuseSegments.next1 FS') as [b |]; [| reflexivity].
    cbn [long_or_none] in Hl. unfold len, runThreshold in *.
    destruct (FuseSegments.next2 FS'); lia. }
  destruct (fuser_next_none Hinv' Hnone) as (Rn' & He).
  exists s. split; [| auto].
  cbn [segments_loop]. unfold segments_body.
  destruct (Z.eqb_spec (len s) 1) as [C | _]; [unfold len in C; lia |].
  cbn [andb].
  destruct (Z.leb_spec (len s) blockMax) as [_ | C];
    [| unfold len, blockMax, runThreshold in *; lia].
  rewrite orb_true_r. cbn [bind app]. rewrite Rn'. reflexivity.
Qed.

End DriverFacts.

Section MergeUpToTwo.
Context {A K : Type} (leb : K -> K -> bool) (key : A -> K).

(** The merge rounds over at most two segments that tile a list of
    elements: no round for one segment, one merge for two. *)
Lemma mergeRounds_up_to_two (L1 : list A) (S : list Segment) :
  chain 0 S (llen L1) -> (length S <= 2)%nat -> S <> [] ->
  exists res,
    mergeRounds leb key (map Some L1) S (repeat None (length L1))
    = Ok (map Some res)
    /\ Permutation L1 res
    /\ (total leb ->
        forallb (fun s => monotoneb leb key L1 Inc (start s) (end_ s)) S
        = true ->
        sortedb leb key res = true).
Proof.
  intros Hc Hlen Hne.
  destruct S as [| s1 [| s2 [| s3 S]]];
    [contradiction | | | cbn [length] in Hlen; lia].
  - (* one segment: no round runs *)
    exists L1. cbn [chain] in Hc. destruct Hc as (Hs & Hlt & He).
    split; [reflexivity |]. split; [reflexivity |]. intros _ Hall.
    cbn [forallb] in Hall. rewrite andb_true_r in Hall.
    apply monotoneb_slice in Hall; [| now left | lia | lia].
    change (Inc =? Inc) with true in Hall. cbn match in Hall.
    rewrite Hs, He in Hall. unfold slice in Hall.
    rewrite Z.sub_0_r in Hall. change (Z.to_nat 0) with 0%nat in Hall.
    cbn [skipn] in Hall. unfold llen in Hall. rewrite Nat2Z.id in Hall.
    now rewrite firstn_all in Hall.
  - (* two segments: one round, one merge *)
    cbn [chain] in Hc. destruct Hc as (Hs1 & Hlt1 & Hs2 & Hlt2 & He2).
    set (X1 := slice L1 (start s1) (end_ s1)) in *.
    set (X2 := slice L1 (start s2) (end_ s2)) in *.
    assert (EL : L1 = X1 ++ X2).
    { subst X1 X2. rewrite (@slice_split _ L1 0 (end_ s1)) at 1 by lia.
      cbn [Z.to_nat firstn app]. rewrite Hs1. f_equal.
      unfold slice. rewrite Hs2, He2.
      rewrite firstn_all2; [reflexivity |].
      rewrite length_skipn. unfold llen. lia. }
    assert (Rm := @mergeSegments_of_slices _ _ leb key
                    (map Some L1) (repeat None (length L1)) s1 s2 0 X1 X2).
    rewrite llen_repeat in Rm.
    specialize (Rm ltac:(lia) ltac:(unfold llen in *; rewrite length_map; lia)
                   (slice_map _ _ _ _) ltac:(lia)
                   ltac:(unfold llen in *; rewrite length_map; lia)
                   (slice_map _ _ _ _) ltac:(lia)
                   ltac:(unfold llen, len in *; lia)).
    exists (merge_lists leb key X1 X2).
    split; [| split].
    2: { rewrite EL at 1. apply merge_lists_permutation. }
    2: { intros HT Hall.
         cbn [forallb] in Hall. rewrite andb_true_r in Hall.
         apply andb_prop in Hall. destruct Hall as (Hm1 & Hm2).
         apply monotoneb_slice in Hm1; [| now left | lia | lia].
         apply monotoneb_slice in Hm2; [| now left | lia | lia].
         now apply merge_lists_sorted. }
    unfold mergeRounds. cbn [length mergeRounds_loop].
    change (1 <? llen [s1; s2]) with true. cbn match.
    unfold mergeRound, mergeRound_log. cbn [length merge_pairs].
    change (0 <? llen [s1; s2] - 1) with true. cbn match.
    change (getitem [s1; s2] 0) with (Ok s1).
    change (getitem [s1; s2] (0 + 1)) with (Ok s2). cbn [bind].
    change (llen (@nil Segment)) with 0. rewrite Rm. cbn [bind app].
    change (0 + 2 <? llen [s1; s2] - 1) with false. cbn match.
    change (llen [s1; s2] mod 2 =? 1) with false. cbn match. cbn [bind].
    change (1 <? llen [mkSegment (start s1) (end_ s2) Inc]) with false.
    cbn match. cbn [Z.to_nat firstn app]. f_equal.
    rewrite skipn_all2; [now rewrite app_nil_r |].
    rewrite repeat_length. unfold len, llen in *. lia.
Qed.

End MergeUpToTwo.

(** The driver after [segments]: normalise, then merge at most once. *)
Lemma sort_of_segments {A : Type} (lebA : A -> A -> bool)
        (L : list A) (S : list Segment) :
  total lebA -> 2 <= llen L ->
  segments lebA L = Ok S ->
  chain 0 S (llen L) ->
  forallb (tag_holds lebA (fun x => x) L) S = true ->
  (length S <= 2)%nat ->
  exists res,
    SimpleTimSort lebA lebA (fun x => x) L = Ok (map Some res)
    /\ Permutation L res
    /\ sorted_cells lebA (fun x => x) (map Some res) = true.
Proof.
  intros HT Hn RS Hc Hall Hlen.
  destruct (@processSegments_chain _ _ lebA (fun x => x) HT S L 0 (llen L))
    as (L1 & Rp & Hm & HP & _); trivial; try lia.
  assert (Hlen1 : length L1 = length L)
    by (symmetry; apply (Permutation_length HP)).
  destruct (@mergeRounds_up_to_two _ _ lebA (fun x => x) L1 S)
    as (res & Rm & HP' & Hs); trivial.
  { unfold llen. rewrite Hlen1. exact Hc. }
  { intros ->. cbn [chain] in Hc. lia. }
  specialize (Hs HT Hm).
  exists res. unfold SimpleTimSort.
  destruct (Z.leb_spec (llen L) 1) as [C | _]; [lia |].
  rewrite RS. cbn [bind]. rewrite Rp. cbn [bind]. rewrite <- Hlen1.
  split; [exact Rm |]. split; [now rewrite HP |].
  now rewrite sorted_cells_map.
Qed.

(** ** Out of range *)

Lemma for_each_app {X S : Type} (xs ys : list X) (body : S -> X -> Res S)
      (s : S) :
  for_each (xs ++ ys) body s = (s' <- for_each xs body s ;; for_each ys body s').
Proof.
  revert s. induction xs as [| x xs IH]; intros s; [reflexivity |].
  cbn [app for_each]. destruct (body s x) as [s1 | e]; cbn [bind]; auto.
Qed.

Section InsertSortRange.
Context {A K : Type} (leb : K -> K -> bool) (key : A -> K).

(** The outer loop over indices inside the list always runs through,
    whatever the order is. *)
Lemma insert_loop_runs (P R : list A) (st : Z) :
  st = llen P ->
  forall (X Srt : list A),
    exists Srt',
      for_each (map (fun k => st + Z.of_nat k) (seq (length Srt) (length X)))
        (fun L0 i0 =>
           item <- getitem L0 i0 ;;
           let j0 := i0 - 1 in
           '(L1, j1) <- shift leb key (S (Z.to_nat (j0 - st + 1)))
                              L0 st j0 item ;;
           setitem L1 (j1 + 1) item)
        (P ++ Srt ++ X ++ R)
      = Ok (P ++ Srt' ++ R)
      /\ Permutation (Srt ++ X) Srt'.
Proof.
  intros Hst. induction X as [| item X IH]; intros Srt.
  - exists Srt. cbn. rewrite app_nil_r. auto.
  - cbn [length seq map for_each].
    assert (Hread : getitem (P ++ Srt ++ (item :: X) ++ R)
                            (st + Z.of_nat (length Srt)) = Ok item).
    { rewrite app_assoc. cbn [app]. apply getitem_app_mid.
      rewrite llen_app. unfold llen at 2. lia. }
    rewrite Hread. cbn [bind]. cbn zeta.
    destruct (@shift_spec _ _ leb key P (X ++ R) item st Hst
                (S (Z.to_nat (st + Z.of_nat (length Srt) - 1 - st + 1)))
                Srt [] item)
      as (A1 & B1 & h' & Rs & E & _ & _); [lia | now left |].
    cbn [app] in Rs |- *. unfold llen at 1 in Rs. rewrite Rs. cbn [bind].
    assert (Hwrite : setitem (P ++ A1 ++ h' :: B1 ++ X ++ R)
                             (st + llen A1 - 1 + 1) item
                     = Ok (P ++ (A1 ++ item :: B1) ++ X ++ R)).
    { rewrite (app_assoc P). rewrite setitem_app_mid.
      - rewrite <- !app_assoc. reflexivity.
      - rewrite llen_app. lia. }
    rewrite Hwrite. rewrite app_nil_r in E.
    assert (Hlen : length (A1 ++ item :: B1) = S (length Srt)).
    { rewrite E, !length_app. cbn [length]. lia. }
    destruct (IH (A1 ++ item :: B1)) as (Srt' & Rl & HP).
    rewrite Hlen in Rl. exists Srt'. split; [exact Rl |].
    rewrite <- HP, E, <- !app_assoc. apply Permutation_app_head.
    cbn [app]. apply Permutation_sym, Permutation_middle.
Qed.

End InsertSortRange.

Section BelowTwo.
Context {A K : Type} (leb : K -> K -> bool) (key : A -> K).

(** [IncDecRuns(L, key)] reads [L[1]] first. *)
Lemma scanner_init_below_two (L : list A) :
  llen L < 2 -> IncDecRuns.init leb key L = Raise IndexError.
Proof.
  intros H. unfold IncDecRuns.init.
  rewrite getitem_out_of_range; [reflexivity | lia].
Qed.

End BelowTwo.

(** ** What the fuser emits *)

Section FuserOutputFacts.
Context {A K : Type} (leb : K -> K -> bool) (key : A -> K) (L : list A).
Hypothesis leb_total : total leb.

Lemma fuser_drain_short (fuel : nat) :
  forall (fs : FuseSegments.t) (p : Z) (F : list Segment),
    fuser_inv leb key L fs p -> fuser_runs leb key L fs ->
    FuseSegments.drain leb key L fuel fs = Ok F ->
    long_after_short F
    /\ (long_or_none (FuseSegments.next1 fs) -> head_long F)
    /\ Forall (fun s => (tag s = Unsorted /\ 2 <= len s)
                        \/ scanned_run leb key L s = true) F.
Proof.
  induction fuel as [| fuel IH]; intros fs p F Hinv Hruns R; [discriminate |].
  cbn [FuseSegments.drain] in R.
  destruct (FuseSegments.next1 fs) as [a |] eqn:E1.
  - destruct (fuser_next_some leb_total Hinv E1)
      as (s & fs' & Rn & Hs & Hne & Hinv' & _ & Hkind).
    destruct (fuser_next_runs leb_total Hinv Hruns E1 Rn)
      as (Hruns' & Hshort & Hrun & Hlen).
    rewrite Rn in R. cbn [bind] in R.
    destruct (FuseSegments.drain leb key L fuel fs') as [F' | e] eqn:Rd;
      cbn [bind] in R; [| discriminate].
    injection R as <-.
    destruct (IH fs' (end_ s) F' Hinv' Hruns' Rd) as (Hadj & Hhead & Hall).
    split; [| split].
    + cbn [long_after_short]. split; [| exact Hadj].
      intros Hl. apply Hhead. now apply Hshort.
    + cbn [long_or_none head_long]. intros Hl.
      destruct Hkind as [(-> & _) | (_ & Hsa & _)]; [exact Hl | lia].
    + constructor; [| exact Hall].
      destruct Hrun as [Ht | Hr]; [left | right]; auto.
  - destruct (fuser_next_none Hinv E1) as (Rn & _).
    rewrite Rn in R. cbn [bind] in R. injection R as <-.
    cbn. auto.
Qed.

Lemma fuser_fused_short :
  2 <= llen L ->
  exists F, FuseSegments.fused leb key L = Ok F
            /\ chain 0 F (llen L)
            /\ long_after_short F
            /\ long_after_unsorted F
            /\ Forall (fun s => (tag s = Unsorted /\ 2 <= len s)
                                \/ scanned_run leb key L s = true) F.
Proof.
  intros Hn.
  destruct (@fuser_fused_spec _ _ leb key L leb_total Hn)
    as (F & R & Hc & Hu).
  exists F. split; [exact R |]. split; [exact Hc |].
  unfold FuseSegments.fused in R.
  destruct (@scanner_init_spec _ _ leb key L leb_total Hn)
    as (idr & Ri & Hinv & Hj & Hm).
  rewrite Ri in R. cbn [bind] in R.
  destruct (fuser_init_spec leb_total Hinv Hj Hn)
    as (fs & a & Rf & Hfinv & _ & _).
  rewrite Rf in R. cbn [bind] in R.
  pose proof (fuser_init_runs leb_total Hinv Rf) as Hfr.
  destruct (fuser_drain_short _ Hfinv Hfr R) as (Hs & _ & Hall).
  auto.
Qed.

End FuserOutputFacts.

(** ** The scanner's directions *)

Section ScannerDirections.
Context {A K : Type} (leb : K -> K -> bool) (key : A -> K) (L : list A).

Lemma scanner_next_dir (st st' : IncDecRuns.t) (s : Segment) :
  IncDecRuns.next leb key L st = Ok (Some s, st') ->
  tag s = IncDecRuns.dir st
  /\ (IncDecRuns.j st' <> IncDecRuns.m st' ->
      IncDecRuns.dir st' = - IncDecRuns.dir st).
Proof.
  unfold IncDecRuns.next. intros R.
  destruct (IncDecRuns.j st =? IncDecRuns.m st); [discriminate |].
  destruct (IncDecRuns.scan _ _ _ _ _ _ _) as [j1 | e]; cbn [bind] in R;
    [| discriminate].
  destruct (Z.eqb_spec j1 (IncDecRuns.m st)) as [E | N];
    injection R as <- <-; cbn.
  - split; [reflexivity |]. intros C. contradiction.
  - split; [apply Z.opp_involutive | reflexivity].
Qed.

Lemma scanner_drain_alternating (fuel : nat) :
  forall (st : IncDecRuns.t) (R : list Segment),
    IncDecRuns.drain leb key L fuel st = Ok R ->
    alternating (IncDecRuns.dir st) R.
Proof.
  induction fuel as [| fuel IH]; intros st R H; [discriminate |].
  cbn [IncDecRuns.drain] in H.
  destruct (IncDecRuns.next leb key L st) as [[[s |] st'] | e] eqn:Rn;
    cbn [bind] in H; try discriminate.
  - destruct (IncDecRuns.drain leb key L fuel st') as [rest | e] eqn:Rd;
      cbn [bind] in H; [| discriminate].
    injection H as <-.
    destruct (@scanner_next_dir st st' s Rn) as (Ht & Hd).
    cbn [alternating]. split; [exact Ht |].
    destruct (Z.eq_dec (IncDecRuns.j st') (IncDecRuns.m st')) as [E | N].
    + destruct fuel as [| fuel']; [discriminate |].
      cbn [IncDecRuns.drain] in Rd.
      rewrite scanner_next_none in Rd by exact E. cbn [bind] in Rd.
      injection Rd as <-. exact I.
    + rewrite <- (Hd N). now apply IH.
  - injection H as <-. exact I.
Qed.

End ScannerDirections.

(** ** One merge round *)

Lemma skipn_written {X : Type} (M C : list X) (st n w : Z) :
  0 <= st -> 0 <= n -> st + n <= llen M -> llen C = n -> st + n <= w ->
  skipn (Z.to_nat w)
        (firstn (Z.to_nat st) M ++ C ++ skipn (Z.to_nat (st + n)) M)
  = skipn (Z.to_nat w) M.
Proof.
  intros H1 H2 H3 H4 H5. unfold llen in *.
  rewrite app_assoc, skipn_app.
  rewrite skipn_all2 by (rewrite length_app, length_firstn; lia).
  cbn [app]. rewrite skipn_skipn. f_equal.
  rewrite length_app, length_firstn. lia.
Qed.

Lemma length_written {X : Type} (M C : list X) (st n : Z) :
  0 <= st -> 0 <= n -> st + n <= llen M -> llen C = n ->
  length (firstn (Z.to_nat st) M ++ C ++ skipn (Z.to_nat (st + n)) M)
  = length M.
Proof.
  intros H1 H2 H3 H4. unfold llen in *.
  rewrite !length_app, length_firstn, length_skipn. lia.
Qed.

Section MergeRoundFacts.
Context {A K : Type} (leb : K -> K -> bool) (key : A -> K).
Variables (l : list A) (a b : Z).
Hypothesis a_nonneg : 0 <= a.
Hypothesis b_inside : b <= llen l.

(** The [while] loop of [mergeRound] from the segment at position [c] on:
    [done] is what the loop has left behind, [rest] what lies ahead. *)
Lemma merge_pairs_spec (fuel : nat) :
  forall (rest done merged : list Segment) (M : list (option A))
         (log : write_log) (c : Z),
    chain c rest b -> a <= c ->
    2 * llen merged <= c - a ->
    b - a <= llen M ->
    (length rest < 2 * fuel)%nat ->
    exists (consumed tail merged' : list Segment) (M' : list (option A))
           (log' : write_log) (c' : Z),
      merge_pairs leb key fuel (map Some l) (done ++ rest) merged
                  (llen done) M log
      = Ok (merged ++ merged', M', log')
      /\ rest = consumed ++ tail
      /\ (length tail <= 1)%nat
      /\ length consumed = (2 * length merged')%nat
      /\ chain c merged' c' /\ chain c' tail b
      /\ 2 * llen merged' <= c' - c
      /\ length M' = length M
      /\ (forall w, c' - a - (llen merged + llen merged') + 1 <= w ->
                    skipn (Z.to_nat w) M' = skipn (Z.to_nat w) M).
Proof.
  induction fuel as [| fuel IH];
    intros rest done merged M log c Hc Hac Hp HM Hf; [lia |].
  cbn [merge_pairs].
  destruct rest as [| x [| y rest]].
  - (* nothing left *)
    rewrite app_nil_r.
    destruct (Z.ltb_spec (llen done) (llen done - 1)) as [C | _]; [lia |].
    exists [], [], [], M, log, c. rewrite app_nil_r.
    cbn [chain length app] in *. change (llen (@nil Segment)) with 0.
    conj_split; trivial; lia.
  - (* one segment left: the loop stops in front of it *)
    rewrite llen_app. change (llen [x]) with 1.
    destruct (Z.ltb_spec (llen done) (llen done + 1 - 1)) as [C | _]; [lia |].
    exists [], [x], [], M, log, c. rewrite app_nil_r.
    cbn [length app]. change (llen (@nil Segment)) with 0.
    conj_split; trivial; try lia. reflexivity.
  - (* a pair *)
    cbn [chain] in Hc. destruct Hc as (Hsx & Hex & Hsy & Hey & Hrest).
    pose proof (chain_le _ _ _ Hrest) as Hle.
    rewrite llen_app.
    assert (Hl2 : llen (x :: y :: rest) = 2 + llen rest)
      by (unfold llen; cbn [length]; lia).
    rewrite Hl2. pose proof (llen_nonneg rest) as Hr0.
    destruct (Z.ltb_spec (llen done) (llen done + (2 + llen rest) - 1))
      as [_ | C]; [| lia].
    assert (Gx : getitem (done ++ x :: y :: rest) (llen done) = Ok x)
      by now apply getitem_app_mid.
    assert (Gy : getitem (done ++ x :: y :: rest) (llen done + 1) = Ok y).
    { replace (done ++ x :: y :: rest) with ((done ++ [x]) ++ y :: rest)
        by now rewrite <- app_assoc.
      apply getitem_app_mid. rewrite llen_app. reflexivity. }
    rewrite Gx, Gy. cbn [bind]. cbn zeta.
    rewrite (@mergeSegments_of_slices _ _ leb key (map Some l) M x y
               (llen merged) (slice l (start x) (end_ x))
               (slice l (start y) (end_ y)));
      try (apply slice_map);
      try (unfold llen, len in *; rewrite ?length_map; lia).
    cbn [bind].
    set (M1 := firstn (Z.to_nat (llen merged)) M
               ++ map Some (merge_lists leb key (slice l (start x) (end_ x))
                                        (slice l (start y) (end_ y)))
               ++ skipn (Z.to_nat (llen merged + len x + len y)) M).
    assert (Hwritten : llen (map Some (merge_lists leb key
                                         (slice l (start x) (end_ x))
                                         (slice l (start y) (end_ y))))
                       = len x + len y).
    { unfold llen. rewrite length_map, merge_lists_length.
      pose proof (@slice_length _ l (start x) (end_ x)) as E1.
      pose proof (@slice_length _ l (start y) (end_ y)) as E2.
      unfold llen, len in *. lia. }
    assert (HM1 : length M1 = length M).
    { subst M1. rewrite <- Z.add_assoc.
      apply length_written; trivial; unfold llen, len in *; lia. }
    replace (done ++ x :: y :: rest) with ((done ++ [x; y]) ++ rest)
      by now rewrite <- app_assoc.
    replace (llen done + 2) with (llen (done ++ [x; y]))
      by (rewrite llen_app; reflexivity).
    destruct (IH rest (done ++ [x; y])
                 (merged ++ [mkSegment (start x) (end_ y) Inc]) M1
                 (log ++ [(llen merged, len x + len y)]) (end_ y))
      as (consumed & tail & merged' & M' & log' & c' & R & E & Ht & Hcons
          & Hcm & Hct & Hcov & HlM & Hun);
      trivial.
    { lia. }
    { rewrite llen_app. change (llen [_]) with 1. lia. }
    { unfold llen in *. lia. }
    { cbn [length] in Hf. lia. }
    rewrite R.
    exists (x :: y :: consumed), tail,
           (mkSegment (start x) (end_ y) Inc :: merged'), M', log', c'.
    assert (Hlm : llen (mkSegment (start x) (end_ y) Inc :: merged')
                  = 1 + llen merged')
      by (unfold llen; cbn [length]; lia).
    conj_split.
    + now rewrite <- app_assoc.
    + cbn [app]. now rewrite E.
    + exact Ht.
    + cbn [length]. lia.
    + cbn [chain start end_]. conj_split; trivial. lia.
    + exact Hct.
    + rewrite Hlm. lia.
    + congruence.
    + intros w Hw. rewrite Hlm in Hw.
      pose proof (llen_nonneg merged') as Hm0.
      rewrite llen_app in Hun. change (llen [_]) with 1 in Hun.
      rewrite Hun by lia.
      subst M1. rewrite <- Z.add_assoc.
      apply skipn_written; trivial; unfold len in *; try lia.
      unfold llen in *. lia.
Qed.

(** One round over segments that tile [[a, b)] of a list of elements. *)
Lemma mergeRound_spec (segs : list Segment) (M : list (option A)) :
  chain a segs b -> b - a <= llen M ->
  exists (merged : list Segment) (M' : list (option A)),
    mergeRound leb key (map Some l) segs M = Ok (merged, M')
    /\ chain a merged b
    /\ length merged = Nat.div2 (S (length segs))
    /\ length M' = length M
    /\ (forall w, b - a - llen merged + 1 <= w ->
                  skipn (Z.to_nat w) M' = skipn (Z.to_nat w) M).
Proof.
  intros Hc HM. unfold mergeRound, mergeRound_log.
  destruct (@merge_pairs_spec (S (length segs)) segs [] [] M [] a)
    as (consumed & tail & merged' & M1 & log' & c' & R & E & Ht & Hcons
        & Hcm & Hct & Hcov & HlM & Hun);
    trivial; try lia.
  { change (llen (@nil Segment)) with 0. lia. }
  cbn [app] in R. change (llen (@nil Segment)) with 0 in R, Hun.
  rewrite R. cbn [bind].
  assert (Hlen : length segs = (2 * length merged' + length tail)%nat)
    by (rewrite E, length_app; lia).
  destruct tail as [| x [| y tail]]; [| | cbn [length] in Ht; lia].
  - (* an even number of segments *)
    assert (Hmod : llen segs mod 2 = 0).
    { unfold llen. rewrite Hlen. cbn [length].
      replace (Z.of_nat (2 * length merged' + 0))
        with (Z.of_nat (length merged') * 2) by lia.
      apply Z_mod_mult. }
    rewrite Hmod. change (0 =? 1) with false. cbn match.
    cbn [chain] in Hct. subst c'.
    exists merged', M1. conj_split; trivial.
    rewrite Hlen. cbn [length]. rewrite Nat.add_0_r.
    now rewrite Nat.div2_succ_double.
  - (* an odd number: the last segment is copied *)
    assert (Hmod : llen segs mod 2 = 1).
    { unfold llen. rewrite Hlen. cbn [length].
      replace (Z.of_nat (2 * length merged' + 1))
        with (1 + Z.of_nat (length merged') * 2) by lia.
      now rewrite Z_mod_plus_full. }
    rewrite Hmod. change (1 =? 1) with true. cbn match.
    rewrite E, getitem_last. cbn [bind]. cbn zeta. rewrite <- E.
    cbn [chain] in Hct. destruct Hct as (Hsx & Hex & Hend).
    replace (llen (merged' ++ [x]) - 1) with (llen merged')
      by (rewrite llen_app; change (llen [x]) with 1; lia).
    pose proof (llen_nonneg merged') as Hm0.
    rewrite copySegment_range;
      try (unfold llen, len in *; rewrite ?length_map; lia).
    cbn [bind].
    assert (Hsl : llen (slice (map Some l) (start x) (end_ x)) = len x).
    { rewrite slice_length; unfold llen, len in *;
        rewrite ?length_map; lia. }
    eexists _, _. split; [reflexivity |]. conj_split.
    + apply chain_app. exists c'. split; [exact Hcm |].
      cbn [chain]. auto.
    + rewrite Hlen, length_app. cbn [length].
      replace (S (2 * length merged' + 1)) with (2 * S (length merged'))%nat
        by lia.
      rewrite Nat.div2_double. lia.
    + rewrite <- HlM.
      apply length_written; trivial; unfold llen, len in *; lia.
    + intros w Hw. rewrite llen_app in Hw. change (llen [x]) with 1 in Hw.
      rewrite skipn_written; trivial;
        try (unfold llen, len in *; cbn [length] in *; lia).
      apply Hun. lia.
Qed.

End MergeRoundFacts.

(** ** Merging cells that may be empty

    Under the default key: it hands [None] through and the comparison
    raises TypeError. *)

Section MergeCells.
Context {A : Type} (leb : A -> A -> bool).
Variables (L : list (option A)) (seg1 seg2 : Segment) (st : Z).

(** The first loop on arbitrary cells: a comparison that meets an empty
    cell raises TypeError; otherwise the cells written and the cells left
    are those of the two ranges. *)
Lemma merge_both_cells (fuel : nat) :
  forall (C1 C2 Pre Free Post : list (option A)) (i0 j0 k0 size : Z),
    reads L (start seg1 + i0) C1 -> len seg1 = i0 + llen C1 ->
    reads L (start seg2 + j0) C2 -> len seg2 = j0 + llen C2 ->
    llen Pre = st + k0 ->
    length Free = (length C1 + length C2)%nat ->
    (length C1 + length C2 < fuel)%nat ->
    merge_both leb (fun x => x) fuel L seg1 seg2 st
               (Pre ++ Free ++ Post, i0, j0, k0, size)
    = Raise TypeError
    \/ exists out r1 r2 Free',
      merge_both leb (fun x => x) fuel L seg1 seg2 st
                 (Pre ++ Free ++ Post, i0, j0, k0, size)
      = Ok (Pre ++ out ++ Free' ++ Post,
            len seg1 - llen r1, len seg2 - llen r2,
            k0 + llen out, size + llen out)
      /\ Permutation (C1 ++ C2) (out ++ r1 ++ r2)
      /\ reads L (start seg1 + (len seg1 - llen r1)) r1
      /\ reads L (start seg2 + (len seg2 - llen r2)) r2
      /\ length Free' = (length r1 + length r2)%nat
      /\ (length r1 <= length C1)%nat /\ (length r2 <= length C2)%nat.
Proof.
  induction fuel as [| fuel IH];
    intros C1 C2 Pre Free Post i0 j0 k0 size Hr1 Hl1 Hr2 Hl2 HP HF Hf;
    [lia |].
  cbn [merge_both]. unfold cell.
  destruct C1 as [| c1 t1].
  - change (llen (@nil (option A))) with 0 in Hl1.
    destruct (Z.ltb_spec i0 (len seg1)) as [C0 | _]; [lia |]. cbn [andb].
    right. exists [], [], C2, Free. cbn [app].
    change (llen (@nil (option A))) with 0.
    replace (len seg1 - 0) with i0 by lia.
    replace (len seg2 - llen C2) with j0 by lia.
    rewrite !Z.add_0_r. conj_split; auto.
  - destruct C2 as [| c2 t2].
    + change (llen (@nil (option A))) with 0 in Hl2.
      destruct (Z.ltb_spec j0 (len seg2)) as [C0 | _]; [lia |].
      rewrite andb_false_r.
      right. exists [], (c1 :: t1), [], Free. cbn [app].
      change (llen (@nil (option A))) with 0. rewrite app_nil_r.
      replace (len seg1 - llen (c1 :: t1)) with i0 by lia.
      replace (len seg2 - 0) with j0 by lia.
      rewrite !Z.add_0_r. conj_split; auto.
    + unfold llen in Hl1, Hl2. cbn [length] in *.
      destruct (Z.ltb_spec i0 (len seg1)) as [_ | C0]; [| lia].
      destruct (Z.ltb_spec j0 (len seg2)) as [_ | C0]; [| lia].
      cbn [andb].
      pose proof Hr1 as Hr1'. pose proof Hr2 as Hr2'.
      apply reads_cons in Hr1. destruct Hr1 as (Hg1 & Hr1).
      apply reads_cons in Hr2. destruct Hr2 as (Hg2 & Hr2).
      rewrite Hg1, Hg2. cbn [bind].
      destruct c1 as [a |]; [| now left].
      destruct c2 as [b |]; [| now left].
      cbn [bind key_cell].
      destruct (leb a b).
      * cbn [bind].
        destruct (@write_next _ st Pre Free Post (Some a) k0 HP)
          as (Free' & Hw & HF').
        { intros ->. discriminate. }
        rewrite Hw. cbn [bind].
        assert (G1 : reads L (start seg1 + (i0 + 1)) t1)
          by now rewrite Z.add_assoc.
        assert (G2 : len seg1 = i0 + 1 + llen t1) by (unfold llen; lia).
        assert (G4 : len seg2 = j0 + llen (Some b :: t2))
          by (unfold llen; cbn [length]; lia).
        assert (G5 : llen (Pre ++ [Some a]) = st + (k0 + 1))
          by (rewrite llen_app; change (llen [Some a]) with 1; lia).
        assert (G6 : length Free' = (length t1 + length (Some b :: t2))%nat)
          by (cbn [length]; lia).
        assert (G7 : (length t1 + length (Some b :: t2) < fuel)%nat)
          by (cbn [length]; lia).
        destruct (IH t1 (Some b :: t2) (Pre ++ [Some a]) Free' Post
                     (i0 + 1) j0 (k0 + 1) (size + 1) G1 G2 Hr2' G4 G5 G6 G7)
          as [R | (out & r1 & r2 & Free'' & R & Hm & Hq1 & Hq2 & HF''
                   & Hle1 & Hle2)]; [now left |].
        right. exists (Some a :: out), r1, r2, Free''. rewrite R.
        split; [| conj_split; auto; try (cbn [length]; lia)].
        -- rewrite <- app_assoc. cbn [app]. unfold llen.
           cbn [length]. state_eq. reflexivity.
        -- cbn [app]. now apply perm_skip.
      * cbn [bind].
        destruct (@write_next _ st Pre Free Post (Some b) k0 HP)
          as (Free' & Hw & HF').
        { intros ->. discriminate. }
        rewrite Hw. cbn [bind].
        assert (G2 : len seg1 = i0 + llen (Some a :: t1))
          by (unfold llen; cbn [length]; lia).
        assert (G3 : reads L (start seg2 + (j0 + 1)) t2)
          by now rewrite Z.add_assoc.
        assert (G4 : len seg2 = j0 + 1 + llen t2) by (unfold llen; lia).
        assert (G5 : llen (Pre ++ [Some b]) = st + (k0 + 1))
          by (rewrite llen_app; change (llen [Some b]) with 1; lia).
        assert (G6 : length Free' = (length (Some a :: t1) + length t2)%nat)
          by (cbn [length]; lia).
        assert (G7 : (length (Some a :: t1) + length t2 < fuel)%nat)
          by (cbn [length]; lia).
        destruct (IH (Some a :: t1) t2 (Pre ++ [Some b]) Free' Post
                     i0 (j0 + 1) (k0 + 1) (size + 1) Hr1' G2 G3 G4 G5 G6 G7)
          as [R | (out & r1 & r2 & Free'' & R & Hm & Hq1 & Hq2 & HF''
                   & Hle1 & Hle2)]; [now left |].
        right. exists (Some b :: out), r1, r2, Free''. rewrite R.
        split; [| conj_split; auto; try (cbn [length]; lia)].
        -- rewrite <- app_assoc. cbn [app]. unfold llen.
           cbn [length]. state_eq. reflexivity.
        -- cbn [app]. rewrite <- Hm.
           apply Permutation_sym.
           apply (Permutation_middle (Some a :: t1) t2 (Some b)).
Qed.

Lemma mergeSegments_cells (C1 C2 Pre Free Post : list (option A)) :
  reads L (start seg1) C1 -> len seg1 = llen C1 ->
  reads L (start seg2) C2 -> len seg2 = llen C2 ->
  llen Pre = st -> length Free = (length C1 + length C2)%nat ->
  mergeSegments leb (fun x => x) L seg1 seg2 (Pre ++ Free ++ Post) st
  = Raise TypeError
  \/ exists C,
    mergeSegments leb (fun x => x) L seg1 seg2 (Pre ++ Free ++ Post) st
    = Ok (Pre ++ C ++ Post, llen C1 + llen C2)
    /\ Permutation (C1 ++ C2) C.
Proof.
  intros Hr1 Hl1 Hr2 Hl2 HP HF. unfold mergeSegments, cell.
  destruct (@merge_both_cells
              (S (Z.to_nat (len seg1) + Z.to_nat (len seg2)))
              C1 C2 Pre Free Post 0 0 0 0)
    as [R | (out & r1 & r2 & Free' & R & Hm & Hq1 & Hq2 & HF'
             & Hle1 & Hle2)];
    try (rewrite ?Z.add_0_r; trivial; lia).
  { unfold llen in *. lia. }
  { left. now rewrite R. }
  right. rewrite R. cbn [bind]. rewrite !Z.add_0_l.
  assert (Hlen : (length out + (length r1 + length r2)
                  = length C1 + length C2)%nat).
  { pose proof (Permutation_length Hm) as E.
    rewrite !length_app in E. lia. }
  set (F1 := firstn (length r1) Free').
  set (F2 := skipn (length r1) Free').
  assert (HF1 : length F1 = length r1).
  { subst F1. rewrite length_firstn. lia. }
  assert (HF2 : length F2 = length r2).
  { subst F2. rewrite length_skipn. lia. }
  replace (Free' ++ Post) with (F1 ++ F2 ++ Post)
    by (rewrite app_assoc; subst F1 F2; now rewrite firstn_skipn).
  rewrite (app_assoc Pre out).
  rewrite (@merge_left_spec _ L seg1 st r1 (S (Z.to_nat (len seg1)))
             (Pre ++ out) F1 (F2 ++ Post)).
  - cbn [bind]. rewrite (app_assoc (Pre ++ out) r1).
    rewrite (@merge_right_spec _ L seg2 st r2 (S (Z.to_nat (len seg2)))
               ((Pre ++ out) ++ r1) F2 Post).
    + cbn [bind]. exists (out ++ r1 ++ r2). split; [| exact Hm].
      rewrite <- !app_assoc. unfold llen in *. state_eq. reflexivity.
    + exact Hq2.
    + lia.
    + rewrite !llen_app. unfold llen in *. lia.
    + exact HF2.
    + unfold llen in *. lia.
  - exact Hq1.
  - lia.
  - rewrite llen_app. lia.
  - exact HF1.
  - unfold llen in *. lia.
Qed.

End MergeCells.

(** ** Three or four segments *)

Section ThreeOrFour.
Context {A K : Type} (leb : K -> K -> bool) (key : A -> K).

Lemma insertSort_runs (L : list A) (st e : Z) :
  0 <= st <= e -> e <= llen L ->
  exists L', insertSort leb key L st e = Ok L' /\ Permutation L L'.
Proof.
  intros H1 H2. unfold insertSort, range2.
  pose proof (slice_length L H1 H2) as Hsl.
  destruct (@insert_loop_runs _ _ leb key (firstn (Z.to_nat st) L)
              (skipn (Z.to_nat e) L) st)
    with (X := slice L st e) (Srt := @nil A) as (srt & R & HP).
  { unfold llen in *. rewrite length_firstn. lia. }
  cbn [length app] in R, HP.
  rewrite <- slice_split in R by assumption.
  replace (length (slice L st e)) with (Z.to_nat (e - st)) in R
    by (unfold llen in Hsl; lia).
  eexists. split; [exact R |].
  rewrite (slice_split L H1 H2) at 1.
  apply Permutation_app_head, Permutation_app_tail. exact HP.
Qed.

(** [processSegments] over segments that lie inside the list returns, and
    the list keeps its elements, whatever the tags, the key and the order
    are. *)
Lemma processSegments_runs (S : list Segment) :
  forall (L : list A) (a b : Z),
    chain a S b -> 0 <= a -> b <= llen L ->
    exists L', processSegments leb key L S = Ok L'
               /\ Permutation L L'.
Proof.
  unfold processSegments.
  induction S as [| s S IH]; intros L a b Hc Ha Hb.
  - exists L. split; reflexivity.
  - cbn [chain] in Hc. destruct Hc as (Hs & Hlt & Hrest).
    pose proof (chain_le _ _ _ Hrest) as Hle.
    cbn [for_each].
    assert (Hstep : exists L1,
               (if tag s =? Unsorted
                then insertSort leb key L (start s) (end_ s)
                else if tag s =? Dec
                     then Ok (reverse L (start s) (end_ s))
                     else Ok L) = Ok L1
               /\ Permutation L L1).
    { destruct (tag s =? Unsorted).
      - apply insertSort_runs; lia.
      - destruct (tag s =? Dec); eexists; (split; [reflexivity |]);
          [apply reverse_permutation | reflexivity]. }
    destruct Hstep as (L1 & R1 & HP1). rewrite R1. cbn [bind].
    destruct (IH L1 (end_ s) b Hrest) as (L' & R & HP); [lia | |].
    { unfold llen in *. rewrite <- (Permutation_length HP1). lia. }
    exists L'. split; [exact R |]. now rewrite HP1.
Qed.

Lemma last_cell_none (M1 : list (option A)) (n : nat) :
  (0 < n)%nat -> length M1 = n ->
  skipn (n - 1) M1 = skipn (n - 1) (repeat None n) ->
  In None M1.
Proof.
  intros Hn Hl E.
  apply (f_equal (fun l => nth_error l 0)) in E.
  rewrite !nth_error_skipn, Nat.add_0_r in E.
  rewrite nth_error_repeat in E by lia.
  now apply nth_error_In in E.
Qed.

End ThreeOrFour.

Section ThreeOrFourDefaultKey.
Context {A : Type} (leb : A -> A -> bool).

(** The rounds over three or four segments that tile a list of elements,
    under the default key: the first round leaves the last cell of the
    buffer empty, the second one merges the two halves of that buffer. *)
Lemma mergeRounds_three_or_four (l : list A) (S : list Segment) :
  chain 0 S (llen l) -> (3 <= length S <= 4)%nat ->
  mergeRounds leb (fun x => x) (map Some l) S (repeat None (length l))
  = Raise TypeError
  \/ exists res,
    mergeRounds leb (fun x => x) (map Some l) S (repeat None (length l)) = Ok res
    /\ In None res /\ length res = length l.
Proof.
  intros Hc Hk.
  pose proof (llen_nonneg l) as Hl0.
  destruct (@mergeRound_spec _ _ leb (fun x => x) l 0 (llen l) (Z.le_refl 0)
              (Z.le_refl (llen l)) S (repeat None (length l)) Hc)
    as (merged & M1 & R1 & Hcm & Hlm & HlM & Hun).
  { rewrite llen_repeat. unfold llen. lia. }
  rewrite repeat_length in HlM.
  assert (Hm2 : length merged = 2%nat).
  { rewrite Hlm.
    assert (E : length S = 3%nat \/ length S = 4%nat) by lia.
    destruct E as [-> | ->]; reflexivity. }
  specialize (Hun (llen l - 0 - 1) ltac:(unfold llen at 2; lia)).
  destruct merged as [| d1 [| d2 [| d3 merged]]]; try discriminate.
  cbn [chain] in Hcm. destruct Hcm as (Hs1 & He1 & Hs2 & He2 & Hend).
  assert (Hpos : 0 < llen l) by lia.
  assert (Hnone : In None M1).
  { apply (@last_cell_none _ M1 (length l)); trivial.
    - unfold llen in Hpos. lia.
    - replace (length l - 1)%nat with (Z.to_nat (llen l - 0 - 1))
        by (unfold llen; lia).
      exact Hun. }
  set (C1 := slice M1 (start d1) (end_ d1)).
  set (C2 := slice M1 (start d2) (end_ d2)).
  assert (HM1 : llen M1 = llen l) by (unfold llen; lia).
  assert (EM : M1 = C1 ++ C2).
  { subst C1 C2. rewrite (@slice_split _ M1 0 (end_ d1)) at 1 by lia.
    cbn [Z.to_nat firstn app]. rewrite Hs1. f_equal.
    unfold slice. rewrite Hs2, Hend.
    rewrite firstn_all2; [reflexivity |].
    rewrite length_skipn. unfold llen in *. lia. }
  assert (HC1 : llen C1 = len d1).
  { subst C1. rewrite slice_length; unfold len; lia. }
  assert (HC2 : llen C2 = len d2).
  { subst C2. rewrite slice_length; unfold len; lia. }
  pose proof (@mergeSegments_cells _ leb M1 d1 d2 0 C1 C2
                [] (map Some l) []) as Hmerge.
  cbn [app] in Hmerge. rewrite app_nil_r in Hmerge.
  specialize (Hmerge ltac:(apply reads_slice; lia) ltac:(lia)
                     ltac:(apply reads_slice; lia) ltac:(lia) eq_refl).
  assert (HF : length (map (@Some A) l) = (length C1 + length C2)%nat).
  { rewrite length_map, <- length_app, <- EM. unfold llen in *. lia. }
  specialize (Hmerge HF).
  assert (Hl1 : (1 <? llen S) = true)
    by (apply Z.ltb_lt; unfold llen; lia).
  unfold mergeRounds.
  destruct (length S) as [| [| [| k]]] eqn:En; try lia.
  cbn [mergeRounds_loop]. rewrite Hl1, R1. cbn [bind].
  change (1 <? llen [d1; d2]) with true. cbn match.
  unfold mergeRound, mergeRound_log. cbn [length merge_pairs].
  change (0 <? llen [d1; d2] - 1) with true. cbn match.
  change (getitem [d1; d2] 0) with (Ok d1).
  change (getitem [d1; d2] (0 + 1)) with (Ok d2). cbn [bind].
  change (llen (@nil Segment)) with 0.
  destruct Hmerge as [Rm | (C & Rm & HP)]; rewrite Rm; cbn [bind];
    [now left |].
  right. exists C.
  change (0 + 2 <? llen [d1; d2] - 1) with false. cbn match.
  change (llen [d1; d2] mod 2 =? 1) with false. cbn match. cbn [bind app].
  change (1 <? llen [mkSegment (start d1) (end_ d2) Inc]) with false.
  cbn match. split; [now rewrite app_nil_r |]. split.
  - apply (Permutation_in _ HP). now rewrite <- EM.
  - transitivity (length M1); [| exact HlM].
    rewrite EM. symmetry. exact (Permutation_length HP).
Qed.

End ThreeOrFourDefaultKey.

(** * The normalizer, the merge engine and the driver, property by property *)

(** ** reverse *)

(** X1. [reverse], for every pair of bounds (negative and out-of-range ones
    are normalised as Python does for a slice): the list keeps its length
    and its elements, and reversing the same range again gives the list
    back. *)
Theorem reverse_involutive {A : Type} (L : list A) (st e : Z) :
  length (reverse L st e) = length L
  /\ Permutation L (reverse L st e)
  /\ reverse (reverse L st e) st e = L.
Proof.
  destruct (reverse_parts L st e) as (P & Mid & R & HL & HR & HP & HM).
  assert (Hlen : length (reverse L st e) = length L).
  { rewrite HR, HL. rewrite !length_app, length_rev. reflexivity. }
  split; [exact Hlen |]. split; [apply reverse_permutation |].
  rewrite HR. rewrite reverse_of_parts.
  - rewrite rev_involutive. now symmetry.
  - rewrite <- HR. unfold llen. now rewrite Hlen.
  - rewrite <- HR. unfold llen at 1 2. rewrite Hlen.
    rewrite length_app, length_rev, <- length_app. exact HM.
Qed.

(** X2. [reverse] on a non-increasing index range inside the list: the
    range then holds its elements in the opposite order, it is
    non-decreasing, and nothing outside it has moved. *)
Theorem reverse_sorts_decreasing {A K : Type} (leb : K -> K -> bool)
        (key : A -> K) (L : list A) (st e : Z) :
  0 <= st <= e -> e <= llen L ->
  monotoneb leb key L Dec st e = true ->
  slice (reverse L st e) st e = rev (slice L st e)
  /\ monotoneb leb key (reverse L st e) Inc st e = true
  /\ firstn (Z.to_nat st) (reverse L st e) = firstn (Z.to_nat st) L
  /\ skipn (Z.to_nat e) (reverse L st e) = skipn (Z.to_nat e) L.
Proof.
  intros H1 H2 Hm. split; [| now apply reverse_decreasing_range].
  rewrite reverse_in_range by assumption.
  pose proof (slice_length L H1 H2) as Hsl.
  apply slice_app_mid.
  - unfold llen in *. rewrite length_firstn. lia.
  - unfold llen in *. rewrite length_firstn, length_rev. lia.
Qed.

Lemma reverse_sorts_decreasing_9521 :
  slice (reverse [9; 5; 2; 1; 7] 0 4) 0 4 = rev (slice [9; 5; 2; 1; 7] 0 4)
  /\ monotoneb Z.leb (fun x => x) (reverse [9; 5; 2; 1; 7] 0 4) Inc 0 4 = true
  /\ firstn (Z.to_nat 0) (reverse [9; 5; 2; 1; 7] 0 4)
     = firstn (Z.to_nat 0) [9; 5; 2; 1; 7]
  /\ skipn (Z.to_nat 4) (reverse [9; 5; 2; 1; 7] 0 4)
     = skipn (Z.to_nat 4) [9; 5; 2; 1; 7].
Proof.
  apply (@reverse_sorts_decreasing Z Z Z.leb (fun x => x)
           [9; 5; 2; 1; 7] 0 4).
  - lia.
  - vm_compute. discriminate.
  - reflexivity.
Defined.

(** ** insertSort *)

(** X3. [insertSort] on an index range inside the list, for a total order
    on the keys: it returns without error, the range ends up
    non-decreasing under the key and holds the elements it held before,
    and nothing outside the range has moved. *)
Theorem insertSort_sorts_range {A K : Type} (leb : K -> K -> bool)
        (key : A -> K) (L : list A) (st e : Z) :
  total leb -> 0 <= st <= e -> e <= llen L ->
  exists L',
    insertSort leb key L st e = Ok L'
    /\ monotoneb leb key L' Inc st e = true
    /\ Permutation (slice L st e) (slice L' st e)
    /\ Permutation L L'
    /\ firstn (Z.to_nat st) L' = firstn (Z.to_nat st) L
    /\ skipn (Z.to_nat e) L' = skipn (Z.to_nat e) L.
Proof.
  intros HT H1 H2.
  destruct (@insertSort_range _ _ leb key L st e HT H1 H2)
    as (L' & R & Hs & HP & Hf & Hk).
  exists L'. conj_split; trivial.
  assert (H2' : e <= llen L').
  { unfold llen in *. now rewrite <- (Permutation_length HP). }
  rewrite (slice_split L H1 H2), (slice_split L' H1 H2') in HP.
  rewrite Hf, Hk in HP.
  apply Permutation_app_inv_l, Permutation_app_inv_r in HP. exact HP.
Qed.

Lemma insertSort_sorts_range_l1 :
  exists L',
    insertSort Z.leb (fun x => x) l1 2 9 = Ok L'
    /\ monotoneb Z.leb (fun x => x) L' Inc 2 9 = true
    /\ Permutation (slice l1 2 9) (slice L' 2 9)
    /\ Permutation l1 L'
    /\ firstn (Z.to_nat 2) L' = firstn (Z.to_nat 2) l1
    /\ skipn (Z.to_nat 9) L' = skipn (Z.to_nat 9) l1.
Proof.
  apply (@insertSort_sorts_range Z Z Z.leb (fun x => x) l1 2 9 Zleb_total).
  - lia.
  - vm_compute. discriminate.
Defined.

(** X4. [insertSort] with an end index behind the end of the list (and a
    start index that is not negative): IndexError, whatever the order and
    the key are. The loop reads [L[i]] for every [i] of the range. *)
Theorem insertSort_raises_past_end {A K : Type} (leb : K -> K -> bool)
        (key : A -> K) (L : list A) (st e : Z) :
  0 <= st < e -> llen L < e ->
  insertSort leb key L st e = Raise IndexError.
Proof.
  intros H1 H2. unfold insertSort, range2.
  destruct (Z.le_gt_cases st (llen L)) as [Hin | Hout].
  - replace (Z.to_nat (e - st))
      with (Z.to_nat (llen L - st) + Z.to_nat (e - llen L))%nat by lia.
    rewrite seq_app, map_app, for_each_app.
    destruct (@insert_loop_runs _ _ leb key (firstn (Z.to_nat st) L) [] st)
      with (X := skipn (Z.to_nat st) L) (Srt := @nil A) as (srt & R & HP).
    { unfold llen in *. rewrite length_firstn. lia. }
    apply Permutation_length in HP. rename HP into Hl.
    cbn [length app] in R, Hl. rewrite app_nil_r in R.
    rewrite firstn_skipn in R. rewrite length_skipn in R, Hl.
    replace (Z.to_nat (llen L - st)) with (length L - Z.to_nat st)%nat
      by (unfold llen; lia).
    rewrite R. cbn [bind].
    destruct (Z.to_nat (e - llen L)) as [| k] eqn:Ek; [lia |].
    cbn [seq map for_each].
    rewrite getitem_out_of_range; [reflexivity |].
    rewrite !llen_app. unfold llen in *. cbn [length].
    rewrite length_firstn. lia.
  - destruct (Z.to_nat (e - st)) as [| k] eqn:Ek; [lia |].
    cbn [seq map for_each].
    rewrite getitem_out_of_range; [reflexivity | lia].
Qed.

Lemma insertSort_raises_past_end_312 :
  insertSort Z.leb (fun x => x) [3; 1; 2] 1 4 = Raise IndexError.
Proof.
  apply (@insertSort_raises_past_end Z Z Z.leb (fun x => x) [3; 1; 2] 1 4).
  - lia.
  - vm_compute. reflexivity.
Defined.

(** ** The scanner and the fuser *)

(** X5. The runs of [IncDecRuns] alternate in direction: the first one has
    the direction of the first pair of elements (Increasing on a tie), and
    every run has the opposite tag of the one before it. *)
Theorem scanner_directions_alternate {A K : Type} (leb : K -> K -> bool)
        (key : A -> K) (L : list A) (x0 x1 : A) :
  total leb -> getitem L 0 = Ok x0 -> getitem L 1 = Ok x1 ->
  exists R,
    IncDecRuns.runs leb key L = Ok R
    /\ alternating (if leb (key x0) (key x1) then Inc else Dec) R.
Proof.
  intros HT H0 H1.
  assert (Hn : 2 <= llen L).
  { destruct (Z.le_gt_cases 2 (llen L)) as [Hn | C]; [exact Hn |].
    rewrite getitem_out_of_range in H1 by lia. discriminate. }
  destruct (@scanner_runs_spec _ _ leb key L HT Hn) as (R & E & _).
  exists R. split; [exact E |].
  unfold IncDecRuns.runs, IncDecRuns.init in E. rewrite H1, H0 in E.
  cbn [bind] in E. apply scanner_drain_alternating in E. exact E.
Qed.

Lemma scanner_directions_alternate_l1 :
  exists R,
    IncDecRuns.runs Z.leb (fun x => x) l1 = Ok R
    /\ alternating (if Z.leb 1 5 then Inc else Dec) R.
Proof.
  apply (@scanner_directions_alternate Z Z Z.leb (fun x => x) l1 1 5
           Zleb_total); reflexivity.
Defined.

(** X6. In the output of [FuseSegments] no two short segments are
    neighbours: a segment of fewer than [runThreshold] elements is followed
    by one of at least [runThreshold] elements, or by nothing. An Unsorted
    segment holds at least two elements, and any other segment is a run
    as the scanner made it. *)
Theorem fuser_separates_short_runs {A K : Type} (leb : K -> K -> bool)
        (key : A -> K) (L : list A) :
  total leb -> 2 <= llen L ->
  exists F,
    FuseSegments.fused leb key L = Ok F
    /\ long_after_short F
    /\ Forall (fun s => (tag s = Unsorted /\ 2 <= len s)
                        \/ scanned_run leb key L s = true) F.
Proof.
  intros HT Hn.
  destruct (@fuser_fused_short _ _ leb key L HT Hn)
    as (F & R & _ & Hs & _ & Hall).
  exists F. auto.
Qed.

Lemma fuser_separates_short_runs_l35 :
  exists F,
    FuseSegments.fused Z.leb (fun x => x) l35 = Ok F
    /\ long_after_short F
    /\ Forall (fun s => (tag s = Unsorted /\ 2 <= len s)
                        \/ scanned_run Z.leb (fun x => x) l35 s = true) F.
Proof.
  apply (@fuser_separates_short_runs Z Z Z.leb (fun x => x) l35 Zleb_total).
  vm_compute. discriminate.
Defined.

(** ** segments and processSegments *)

(** X7. The tags of [segments(L)] tell the truth about the elements.
    [segments] returns exactly when the fuser emits no Unsorted block
    longer than blockMax (on such a block it raises UnboundLocalError),
    and in the list it returns every segment is tagged Unsorted,
    Increasing or Decreasing; an Increasing one is non-decreasing in the
    elements' own order, a Decreasing one non-increasing. *)
Theorem segments_tags_hold {A : Type} (lebA : A -> A -> bool)
        (L : list A) :
  total lebA -> 2 <= llen L ->
  exists F,
    FuseSegments.fused lebA (fun x => x) L = Ok F
    /\ if existsb oversized F
       then segments lebA L = Raise UnboundLocalError
       else exists S,
           segments lebA L = Ok S
           /\ forallb (tag_holds lebA (fun x => x) L) S = true.
Proof.
  intros HT Hn.
  destruct (@segments_outcome _ lebA L HT Hn) as (F & E & _ & _ & H).
  exists F. split; [exact E |].
  destruct (existsb oversized F); [exact H |].
  destruct H as (S & R & _). exists S. split; [exact R |].
  now destruct (@segments_returned _ lebA L HT S R) as (_ & _ & _ & Hall).
Qed.

Lemma segments_tags_hold_l66 :
  exists F,
    FuseSegments.fused Z.leb (fun x => x) l66 = Ok F
    /\ if existsb oversized F
       then segments Z.leb l66 = Raise UnboundLocalError
       else exists S,
           segments Z.leb l66 = Ok S
           /\ forallb (tag_holds Z.leb (fun x => x) l66) S = true.
Proof.
  apply (@segments_tags_hold Z Z.leb l66 Zleb_total).
  vm_compute. discriminate.
Defined.

(** X8. [processSegments] on the segments that [segments(L)] returns, with
    the default key and a total order on the elements: it returns, the
    list keeps its elements, and every segment ends up non-decreasing. *)
Theorem processSegments_sorts_segments {A : Type} (lebA : A -> A -> bool)
        (L : list A) (S : list Segment) :
  total lebA -> segments lebA L = Ok S ->
  exists L',
    processSegments lebA (fun x => x) L S = Ok L'
    /\ Permutation L L'
    /\ forallb (fun s => monotoneb lebA (fun x => x) L' Inc
                                   (start s) (end_ s)) S = true.
Proof.
  intros HT R.
  destruct (@segments_returned _ lebA L HT S R) as (Hn & Hc & _ & Hall).
  destruct (@processSegments_chain _ _ lebA (fun x => x) HT S L 0 (llen L))
    as (L' & Rp & Hm & HP & _); trivial; try lia.
  exists L'. auto.
Qed.

Lemma processSegments_sorts_segments_l66 :
  exists L',
    processSegments Z.leb (fun x => x) l66
      [mkSegment 0 1 Inc; mkSegment 1 33 Dec; mkSegment 33 66 Inc] = Ok L'
    /\ Permutation l66 L'
    /\ forallb (fun s => monotoneb Z.leb (fun x => x) L' Inc
                                   (start s) (end_ s))
               [mkSegment 0 1 Inc; mkSegment 1 33 Dec; mkSegment 33 66 Inc]
       = true.
Proof.
  apply (@processSegments_sorts_segments Z Z.leb l66
           [mkSegment 0 1 Inc; mkSegment 1 33 Dec; mkSegment 33 66 Inc]
           Zleb_total).
  vm_compute. reflexivity.
Defined.

(** X9. [processSegments] over segments that tile an index range of the
    list: whatever the tags, the key and the order on the keys are, it
    returns without error and the list keeps its elements and its
    length. *)
Theorem processSegments_keeps_elements {A K : Type} (leb : K -> K -> bool)
        (key : A -> K) (L : list A) (S : list Segment) (a b : Z) :
  chain a S b -> 0 <= a -> b <= llen L ->
  exists L',
    processSegments leb key L S = Ok L'
    /\ Permutation L L'
    /\ length L' = length L.
Proof.
  intros Hc Ha Hb.
  destruct (@processSegments_runs _ _ leb key S L a b Hc Ha Hb)
    as (L' & R & HP).
  exists L'. split; [exact R |]. split; [exact HP |].
  symmetry. exact (Permutation_length HP).
Qed.

Lemma processSegments_keeps_elements_l35 :
  exists L',
    processSegments Z.leb Z.opp l35
      [mkSegment 0 1 Unsorted; mkSegment 1 33 Inc; mkSegment 33 35 Dec]
    = Ok L'
    /\ Permutation l35 L'
    /\ length L' = length l35.
Proof.
  apply (@processSegments_keeps_elements Z Z Z.leb Z.opp l35
           [mkSegment 0 1 Unsorted; mkSegment 1 33 Inc; mkSegment 33 35 Dec]
           0 35).
  - cbn [chain start end_]. repeat split; lia.
  - lia.
  - vm_compute. discriminate.
Defined.

(** ** The merge engine *)

(** X10. [mergeSegments] on two index ranges of [L] that hold elements,
    writing into a buffer with room from [st] on: it returns the two
    lengths added up, the buffer holds the two-pointer merge of the two
    ranges (the left element first on a tie) from [st] on, and no other
    cell has changed. The merge keeps the elements, and is sorted when
    both ranges are. *)
Theorem mergeSegments_merges {A K : Type} (leb : K -> K -> bool)
        (key : A -> K) (L M : list (option A)) (seg1 seg2 : Segment)
        (st : Z) (X1 X2 : list A) :
  0 <= start seg1 <= end_ seg1 -> end_ seg1 <= llen L ->
  slice L (start seg1) (end_ seg1) = map Some X1 ->
  0 <= start seg2 <= end_ seg2 -> end_ seg2 <= llen L ->
  slice L (start seg2) (end_ seg2) = map Some X2 ->
  0 <= st -> st + len seg1 + len seg2 <= llen M ->
  mergeSegments leb key L seg1 seg2 M st
  = Ok (firstn (Z.to_nat st) M
        ++ map Some (merge_lists leb key X1 X2)
        ++ skipn (Z.to_nat (st + len seg1 + len seg2)) M,
        len seg1 + len seg2)
  /\ Permutation (X1 ++ X2) (merge_lists leb key X1 X2)
  /\ (total leb -> sortedb leb key X1 = true -> sortedb leb key X2 = true ->
      sortedb leb key (merge_lists leb key X1 X2) = true).
Proof.
  intros H1 H1' E1 H2 H2' E2 Hst HM. split; [| split].
  - now apply mergeSegments_of_slices.
  - apply merge_lists_permutation.
  - intros HT. now apply merge_lists_sorted.
Qed.

Lemma mergeSegments_merges_1324 :
  mergeSegments Z.leb (fun x => x) [Some 1; Some 3; Some 2; Some 4]
                (mkSegment 0 2 Inc) (mkSegment 2 4 Inc)
                [None; None; None; None; None] 1
  = Ok (firstn (Z.to_nat 1) [None; None; None; None; None]
        ++ map Some (merge_lists Z.leb (fun x => x) [1; 3] [2; 4])
        ++ skipn (Z.to_nat (1 + len (mkSegment 0 2 Inc)
                            + len (mkSegment 2 4 Inc)))
                 [None; None; None; None; None],
        len (mkSegment 0 2 Inc) + len (mkSegment 2 4 Inc))
  /\ Permutation ([1; 3] ++ [2; 4])
                 (merge_lists Z.leb (fun x => x) [1; 3] [2; 4])
  /\ (total Z.leb -> sortedb Z.leb (fun x => x) [1; 3] = true ->
      sortedb Z.leb (fun x => x) [2; 4] = true ->
      sortedb Z.leb (fun x => x)
              (merge_lists Z.leb (fun x => x) [1; 3] [2; 4]) = true).
Proof.
  apply (@mergeSegments_merges Z Z Z.leb (fun x => x)
           [Some 1; Some 3; Some 2; Some 4] [None; None; None; None; None]
           (mkSegment 0 2 Inc) (mkSegment 2 4 Inc) 1 [1; 3] [2; 4]);
    try reflexivity; try (vm_compute; discriminate);
    try (vm_compute; split; discriminate).
Defined.

(** X11. [copySegment] on an index range of [L], writing into a buffer
    with room from [st] on: the length of the segment is returned, the
    buffer keeps its length, its cells from [st] on read back as the cells
    of the range, empty ones too, and no other cell changes. *)
Theorem copySegment_copies {A : Type} (L M : list (option A))
        (seg : Segment) (st : Z) :
  0 <= start seg <= end_ seg -> end_ seg <= llen L ->
  0 <= st -> st + len seg <= llen M ->
  exists M',
    copySegment L seg M st = Ok (M', len seg)
    /\ length M' = length M
    /\ slice M' st (st + len seg) = slice L (start seg) (end_ seg)
    /\ firstn (Z.to_nat st) M' = firstn (Z.to_nat st) M
    /\ skipn (Z.to_nat (st + len seg)) M'
       = skipn (Z.to_nat (st + len seg)) M.
Proof.
  intros H1 H2 Hst HM. eexists. split; [now apply copySegment_range |].
  pose proof (slice_length L H1 H2) as Hsl.
  assert (HP : llen (firstn (Z.to_nat st) M) = st).
  { unfold llen, len in *. rewrite length_firstn. lia. }
  conj_split.
  - apply length_written; trivial; unfold len in *; lia.
  - apply slice_app_mid; unfold cell, len; lia.
  - now apply firstn_llen_app.
  - rewrite app_assoc. apply skipn_llen_app.
    rewrite llen_app. unfold cell, len in *. lia.
Qed.

Lemma copySegment_copies_empty_cell :
  exists M',
    copySegment [Some 1; None; Some 3] (mkSegment 1 3 Inc)
                [Some 7; Some 8; Some 9; Some 10] 1
    = Ok (M', len (mkSegment 1 3 Inc))
    /\ length M' = length [Some 7; Some 8; Some 9; Some 10]
    /\ slice M' 1 (1 + len (mkSegment 1 3 Inc))
       = slice [Some 1; None; Some 3] (start (mkSegment 1 3 Inc))
               (end_ (mkSegment 1 3 Inc))
    /\ firstn (Z.to_nat 1) M'
       = firstn (Z.to_nat 1) [Some 7; Some 8; Some 9; Some 10]
    /\ skipn (Z.to_nat (1 + len (mkSegment 1 3 Inc))) M'
       = skipn (Z.to_nat (1 + len (mkSegment 1 3 Inc)))
               [Some 7; Some 8; Some 9; Some 10].
Proof.
  apply (@copySegment_copies Z [Some 1; None; Some 3]
           [Some 7; Some 8; Some 9; Some 10] (mkSegment 1 3 Inc) 1);
    try (vm_compute; discriminate); try (vm_compute; split; discriminate).
Defined.

(** X12. One call of [mergeRound] over segments that tile [[a, b)] of a
    list holding elements, with a buffer of at least [b - a] cells: the
    round returns; the descriptors it returns tile [[a, b)] again and
    there are half as many, rounded up; the buffer keeps its length. The
    write positions are segment counts: with [m] descriptors returned,
    nothing is written at index [b - a - m + 1] or behind it, so with
    three or more segments the last of the [b - a] cells is left as it
    was. *)
Theorem mergeRound_halves_descriptors {A K : Type} (leb : K -> K -> bool)
        (key : A -> K) (l : list A) (segs : list Segment)
        (M : list (option A)) (a b : Z) :
  0 <= a -> b <= llen l -> chain a segs b -> b - a <= llen M ->
  exists (merged : list Segment) (M' : list (option A)),
    mergeRound leb key (map Some l) segs M = Ok (merged, M')
    /\ chain a merged b
    /\ length merged = Nat.div2 (S (length segs))
    /\ length M' = length M
    /\ (forall w, b - a - llen merged + 1 <= w ->
                  skipn (Z.to_nat w) M' = skipn (Z.to_nat w) M)
    /\ ((3 <= length segs)%nat ->
        skipn (Z.to_nat (b - a - 1)) M' = skipn (Z.to_nat (b - a - 1)) M).
Proof.
  intros Ha Hb Hc HM.
  destruct (@mergeRound_spec _ _ leb key l a b Ha Hb segs M Hc HM)
    as (merged & M' & R & Hcm & Hlm & HlM & Hun).
  exists merged, M'. conj_split; trivial.
  intros H3. apply Hun.
  assert (H2 : (2 <= length merged)%nat).
  { rewrite Hlm. revert H3.
    destruct (length segs) as [| [| [| k]]]; intros H3; try lia.
    change (Nat.div2 (S (S (S (S k))))) with (S (S (Nat.div2 k))).
    do 2 apply le_n_S. apply Nat.le_0_l. }
  unfold llen. lia.
Qed.

Lemma mergeRound_halves_descriptors_p35 :
  exists (merged : list Segment) (M' : list (option Z)),
    mergeRound Z.leb (fun x => x) (map Some p35) segs35
               (repeat None 35) = Ok (merged, M')
    /\ chain 0 merged 35
    /\ length merged = Nat.div2 (S (length segs35))
    /\ length M' = length (repeat (@None Z) 35)
    /\ (forall w, 35 - 0 - llen merged + 1 <= w ->
                  skipn (Z.to_nat w) M'
                  = skipn (Z.to_nat w) (repeat None 35))
    /\ ((3 <= length segs35)%nat ->
        skipn (Z.to_nat (35 - 0 - 1)) M'
        = skipn (Z.to_nat (35 - 0 - 1)) (repeat None 35)).
Proof.
  apply (@mergeRound_halves_descriptors Z Z Z.leb (fun x => x) p35 segs35
           (repeat None 35) 0 35).
  - lia.
  - vm_compute. discriminate.
  - vm_compute. repeat split.
  - vm_compute. discriminate.
Defined.

(** ** The driver *)

(** X13. Below two elements: [segments(L)], like [IncDecRuns(L, key)],
    raises IndexError, since the scanner reads [L[1]] when it is built;
    [SimpleTimSort] never gets there and returns the list as it is,
    whatever the key. *)
Theorem below_two_elements {A K : Type} (lebA : A -> A -> bool)
        (leb : K -> K -> bool) (key : A -> K) (L : list A) :
  llen L < 2 ->
  IncDecRuns.init leb key L = Raise IndexError
  /\ segments lebA L = Raise IndexError
  /\ SimpleTimSort lebA leb key L = Ok (map Some L).
Proof.
  intros H. split; [now apply scanner_init_below_two |]. split.
  - unfold segments. now rewrite scanner_init_below_two.
  - unfold SimpleTimSort.
    destruct (Z.leb_spec (llen L) 1) as [_ | C]; [reflexivity | lia].
Qed.

Lemma below_two_elements_singleton :
  IncDecRuns.init Z.leb Z.opp [7] = Raise IndexError
  /\ segments Z.leb [7] = Raise IndexError
  /\ SimpleTimSort Z.leb Z.leb Z.opp [7] = Ok (map Some [7]).
Proof.
  apply (@below_two_elements Z Z Z.leb Z.leb Z.opp [7]).
  vm_compute. reflexivity.
Defined.

(** X14. A list that is non-decreasing in its elements' own order comes
    back as it is, whatever the key and the order on the keys are: the
    scanner, which compares the elements themselves, tags the whole list
    Increasing, and neither the normalizer nor the merge engine touches
    it. *)
Theorem own_order_sorted_unchanged {A K : Type} (lebA : A -> A -> bool)
        (leb : K -> K -> bool) (key : A -> K) (L : list A) :
  monotoneb lebA (fun x => x) L Inc 0 (llen L) = true ->
  SimpleTimSort lebA leb key L = Ok (map Some L).
Proof.
  intros Hs. unfold SimpleTimSort.
  destruct (Z.leb_spec (llen L) 1) as [_ | Hn]; [reflexivity |].
  rewrite sorted_segments by (trivial; lia). reflexivity.
Qed.

Lemma own_order_sorted_unchanged_opp :
  SimpleTimSort Z.leb Z.leb Z.opp [1; 2; 3] = Ok (map Some [1; 2; 3]).
Proof.
  apply (@own_order_sorted_unchanged Z Z Z.leb Z.leb Z.opp [1; 2; 3]).
  reflexivity.
Defined.

(** X15. [SimpleTimSort] with the default key and a total order, on a list
    of fewer than [runThreshold] elements: the list is one segment, and
    what comes back is the list's elements in non-decreasing order. *)
Theorem sort_correct_short_lists {A : Type} (lebA : A -> A -> bool)
        (L : list A) :
  total lebA -> llen L < runThreshold ->
  exists res,
    SimpleTimSort lebA lebA (fun x => x) L = Ok (map Some res)
    /\ Permutation L res
    /\ sorted_cells lebA (fun x => x) (map Some res) = true.
Proof.
  intros HT Hshort.
  destruct (Z.le_gt_cases 2 (llen L)) as [Hn | Hsmall].
  - destruct (segments_short HT L Hn Hshort) as (s & RS & _).
    destruct (@segments_returned _ lebA L HT [s] RS) as (_ & Hc & _ & Hall).
    apply (@sort_of_segments _ lebA L [s]); trivial.
    cbn [length]. lia.
  - exists L. unfold SimpleTimSort.
    destruct (Z.leb_spec (llen L) 1) as [_ | C]; [| lia].
    split; [reflexivity |]. split; [reflexivity |].
    destruct L as [| a [| b L]]; try reflexivity.
    unfold llen in Hsmall. cbn [length] in Hsmall. lia.
Qed.

Lemma sort_correct_short_lists_l1 :
  exists res,
    SimpleTimSort Z.leb Z.leb (fun x => x) l1 = Ok (map Some res)
    /\ Permutation l1 res
    /\ sorted_cells Z.leb (fun x => x) (map Some res) = true.
Proof.
  apply (@sort_correct_short_lists Z Z.leb l1 Zleb_total).
  vm_compute. reflexivity.
Defined.

(** X16. [SimpleTimSort] with the default key and a total order, on a list
    that [segments] cuts into at most two segments: it returns the
    elements of the list, there is no empty cell, in non-decreasing
    order. *)
Theorem sort_correct_up_to_two_segments {A : Type} (lebA : A -> A -> bool)
        (L : list A) (S : list Segment) :
  total lebA -> 2 <= llen L ->
  segments lebA L = Ok S -> (length S <= 2)%nat ->
  exists res,
    SimpleTimSort lebA lebA (fun x => x) L = Ok (map Some res)
    /\ Permutation L res
    /\ sorted_cells lebA (fun x => x) (map Some res) = true.
Proof.
  intros HT Hn RS Hlen.
  destruct (@segments_returned _ lebA L HT S RS) as (_ & Hc & _ & Hall).
  now apply (@sort_of_segments _ lebA L S).
Qed.

Lemma sort_correct_up_to_two_segments_updown66 :
  exists res,
    SimpleTimSort Z.leb Z.leb (fun x => x) updown66 = Ok (map Some res)
    /\ Permutation updown66 res
    /\ sorted_cells Z.leb (fun x => x) (map Some res) = true.
Proof.
  apply (@sort_correct_up_to_two_segments Z Z.leb updown66
           [mkSegment 0 33 Inc; mkSegment 33 66 Dec] Zleb_total).
  - vm_compute. discriminate.
  - vm_compute. reflexivity.
  - cbn [length]. lia.
Defined.

(** X17. Whatever the key and the order on the keys are, on a list of
    fewer than [runThreshold] elements, or one that [segments] cuts into
    at most two segments, [SimpleTimSort] returns without error and what
    it returns holds the elements of the input, each as often as the
    input does, and no empty cell. *)
Theorem sort_keeps_elements_up_to_two_segments {A K : Type}
        (lebA : A -> A -> bool) (leb : K -> K -> bool) (key : A -> K)
        (L : list A) :
  total lebA ->
  llen L < runThreshold
  \/ (exists S, segments lebA L = Ok S /\ (length S <= 2)%nat) ->
  exists res,
    SimpleTimSort lebA leb key L = Ok (map Some res)
    /\ Permutation L res.
Proof.
  intros HT Hcase.
  destruct (Z.le_gt_cases 2 (llen L)) as [Hn | Hsmall].
  - assert (HS : exists S, segments lebA L = Ok S /\ (length S <= 2)%nat).
    { destruct Hcase as [Hshort | HS]; [| exact HS].
      destruct (segments_short HT L Hn Hshort) as (s & RS & _).
      exists [s]. split; [exact RS |]. cbn [length]. lia. }
    destruct HS as (S & RS & Hlen).
    destruct (@segments_returned _ lebA L HT S RS) as (_ & Hc & _).
    destruct (@processSegments_runs _ _ leb key S L 0 (llen L) Hc)
      as (L1 & Rp & HP1); try lia.
    assert (Hl1 : length L1 = length L)
      by (symmetry; exact (Permutation_length HP1)).
    destruct (@mergeRounds_up_to_two _ _ leb key L1 S)
      as (res & Rm & HP & _); trivial.
    { unfold llen. rewrite Hl1. exact Hc. }
    { intros ->. cbn [chain] in Hc. lia. }
    exists res. unfold SimpleTimSort.
    destruct (Z.leb_spec (llen L) 1) as [C | _]; [lia |].
    rewrite RS. cbn [bind]. rewrite Rp. cbn [bind]. rewrite <- Hl1.
    split; [exact Rm | now rewrite HP1].
  - exists L. unfold SimpleTimSort.
    destruct (Z.leb_spec (llen L) 1) as [_ | C]; [| lia].
    split; reflexivity.
Qed.

Lemma sort_keeps_elements_up_to_two_segments_l1 :
  exists res,
    SimpleTimSort Z.leb Z.leb Z.opp l1 = Ok (map Some res)
    /\ Permutation l1 res.
Proof.
  apply (@sort_keeps_elements_up_to_two_segments Z Z Z.leb Z.leb Z.opp l1
           Zleb_total).
  left. vm_compute. reflexivity.
Defined.

(** X18. Three or four segments are always too many: whenever
    [segments(L)] returns three or four segments, [SimpleTimSort] with the
    default key raises TypeError or returns a list with an empty cell in
    it. The first merge round leaves the last cell of the buffer empty,
    and the second round, over two segments, reads every cell of that
    buffer. *)
Theorem sort_fails_on_three_or_four_segments {A : Type}
        (lebA : A -> A -> bool) (L : list A) (S : list Segment) :
  total lebA ->
  segments lebA L = Ok S -> (3 <= length S <= 4)%nat ->
  SimpleTimSort lebA lebA (fun x => x) L = Raise TypeError
  \/ exists res,
    SimpleTimSort lebA lebA (fun x => x) L = Ok res
    /\ In None res /\ length res = length L.
Proof.
  intros HT RS Hk.
  destruct (@segments_returned _ lebA L HT S RS) as (Hn & Hc & _).
  destruct (@processSegments_runs _ _ lebA (fun x => x) S L 0 (llen L) Hc)
    as (L1 & Rp & HP1); try lia.
  assert (Hl1 : length L1 = length L)
    by (symmetry; exact (Permutation_length HP1)).
  unfold SimpleTimSort.
  destruct (Z.leb_spec (llen L) 1) as [C | _]; [lia |].
  rewrite RS. cbn [bind]. rewrite Rp. cbn [bind].
  rewrite <- Hl1.
  apply mergeRounds_three_or_four; [| exact Hk].
  unfold llen. rewrite Hl1. exact Hc.
Qed.

Lemma sort_fails_on_three_or_four_segments_l66 :
  SimpleTimSort Z.leb Z.leb (fun x => x) l66 = Raise TypeError
  \/ exists res,
    SimpleTimSort Z.leb Z.leb (fun x => x) l66 = Ok res
    /\ In None res /\ length res = length l66.
Proof.
  apply (@sort_fails_on_three_or_four_segments Z Z.leb l66
           [mkSegment 0 1 Inc; mkSegment 1 33 Dec; mkSegment 33 66 Inc]
           Zleb_total).
  - vm_compute. reflexivity.
  - cbn [length]. lia.
Defined.

(** X19. The sort cannot take an Unsorted block longer than blockMax:
    whenever the fuser emits one, [segments] raises UnboundLocalError at
    line 100, and so does [SimpleTimSort], whatever the key and the order
    on the keys are. *)
Theorem sort_raises_on_oversized_block {A K : Type}
        (lebA : A -> A -> bool) (leb : K -> K -> bool) (key : A -> K)
        (L : list A) (F : list Segment) :
  total lebA -> 2 <= llen L ->
  FuseSegments.fused lebA (fun x => x) L = Ok F ->
  existsb oversized F = true ->
  segments lebA L = Raise UnboundLocalError
  /\ SimpleTimSort lebA leb key L = Raise UnboundLocalError.
Proof.
  intros HT Hn RF Hbig.
  destruct (@segments_outcome _ lebA L HT Hn) as (F' & E & _ & _ & H).
  rewrite RF in E. injection E as <-. rewrite Hbig in H.
  split; [exact H |].
  unfold SimpleTimSort.
  destruct (Z.leb_spec (llen L) 1) as [C | _]; [lia |].
  rewrite H. reflexivity.
Qed.

Lemma sort_raises_on_oversized_block_zigzag70 :
  segments Z.leb zigzag70 = Raise UnboundLocalError
  /\ SimpleTimSort Z.leb Z.leb Z.opp zigzag70 = Raise UnboundLocalError.
Proof.
  apply (@sort_raises_on_oversized_block Z Z Z.leb Z.leb Z.opp zigzag70
           [mkSegment 0 70 Unsorted] Zleb_total).
  - vm_compute. discriminate.
  - vm_compute. reflexivity.
  - vm_compute. reflexivity.
Defined.
